(** * bemio: hydrodynamic data structures ([bemio/data_structures/bem.py])

    A shallow embedding of the numerical core of [HydrodynamicData]:
    [calc_irf_excitation], [calc_ss_excitation], [calc_irf_radiation] and
    [calc_ss_radiation], followed by the properties of the specification
    that were checked against it.

    Conventions of the embedding.
    - A float is an element of an arbitrary type [F] with the operations of
      the class [Scalar]; no algebraic law is assumed unless a theorem
      states it, so the structural results hold for IEEE doubles as well as
      for the real numbers (the instance [R_Scalar] used for examples).
    - A numpy array is a list (of lists ...) of floats; arrays are
      rectangular and their shape is read off the first row.
    - Routines of numpy and scipy that are not part of the repository
      ([interp1d], [np.linalg.svd], [np.linalg.inv], [expm]) are the
      operations of the class [Library], with the shape contracts their
      documentation gives.
    - A Python exception is a value of [exn]; a method of the class is a
      function from the store to the store and a [result].
    - The progress bar is an output device only and is not modelled. *)

From Stdlib Require Import Reals Lra String ClassicalDescription
  IndefiniteDescription.
From stdpp Require Import base list.

Set Default Proof Using "Type*".

(** ** Exceptions and results *)

Definition not_implemented_msg : string :=
  "The calc_ss_excitation function is not yet implemented"%string.

(** The exception classes the code and its libraries can raise. *)
Inductive exn : Type :=
| AttributeError
| IndexError
| ValueError
| LinAlgError
| Exception (msg : string).

Inductive result (A : Type) : Type :=
| OK (a : A)
| Raise (e : exn).
Arguments OK {A} a.
Arguments Raise {A} e.

(** The error taxonomy of the specification (section 7). *)
Inductive spec_error : Type :=
| InsufficientDataError
| UnimplementedError
| SingularMatrixError.

(** What an exception of the code signals in the specification's taxonomy:
    the one deliberate [raise] of the source announces a missing
    implementation, numpy's [LinAlgError] reports a singular matrix; the
    index, value and attribute errors of Python are no signal of the
    taxonomy. *)
Definition signals (e : exn) : option spec_error :=
  match e with
  | Exception msg =>
      if String.eqb msg not_implemented_msg then Some UnimplementedError else None
  | LinAlgError => Some SingularMatrixError
  | AttributeError | IndexError | ValueError => None
  end.

Definition rbind {A B} (k : A -> result B) (m : result A) : result B :=
  match m with
  | OK a => k a
  | Raise e => Raise e
  end.

#[global] Instance result_ret : MRet result := fun A a => OK a.
#[global] Instance result_bind : MBind result := fun A B k m => rbind k m.
#[global] Instance result_fmap : FMap result := fun A B g m =>
  rbind (fun a => OK (g a)) m.

(** ** Floats *)

Class Scalar (F : Type) : Type := {
  of_nat : nat -> F;          (* float(n), and the literals 0.0, 1.0, 2. *)
  fadd : F -> F -> F;
  fsub : F -> F -> F;
  fmul : F -> F -> F;
  fdiv : F -> F -> F;
  fneg : F -> F;
  fsqrt : F -> F;             (* np.sqrt *)
  fcos : F -> F;              (* np.cos *)
  fsin : F -> F;              (* np.sin *)
  fpi : F;                    (* np.pi *)
  fgt : F -> F -> bool;       (* x > y *)
  fge : F -> F -> bool;       (* x >= y *)
  fne : F -> F -> bool;       (* x != y *)
  fmin : F -> F -> F;         (* np.minimum *)
  fmax : F -> F -> F          (* np.maximum *)
}.

Declare Scope float_scope.
Delimit Scope float_scope with fl.
Notation "x + y" := (fadd x y) : float_scope.
Notation "x - y" := (fsub x y) : float_scope.
Notation "x * y" := (fmul x y) : float_scope.
Notation "x / y" := (fdiv x y) : float_scope.
Notation "- x" := (fneg x) : float_scope.

(** ** numpy arrays *)

Abbreviation matrix F := (list (list F)) (only parsing).
Abbreviation tensor3 F := (list (list (list F))) (only parsing).
Abbreviation tensor4 F := (list (list (list (list F)))) (only parsing).

Section Arrays.
Context {F : Type} `{Scalar F}.

Definition zeros (n : nat) : list F := replicate n (of_nat 0).
Definition zeros2 (n m : nat) : matrix F := replicate n (zeros m).
Definition zeros3 (n m k : nat) : tensor3 F := replicate n (zeros2 m k).
Definition zeros4 (n m k l : nat) : tensor4 F := replicate n (zeros3 m k l).

(** [a.shape[0]] and [a.shape[1]]. *)
Definition shape0 {A} (a : list A) : nat := length a.
Definition shape1 {A} (a : list (list A)) : nat :=
  match a with
  | [] => 0
  | r :: _ => length r
  end.

(** [a[i]] for an integer [i >= 0]. *)
Definition getitem {A} (a : list A) (i : nat) : result A :=
  match a !! i with
  | Some x => OK x
  | None => Raise IndexError
  end.

(** [a[i] = x]. *)
Definition setitem {A} (a : list A) (i : nat) (x : A) : result (list A) :=
  if decide (i < length a) then OK (<[i:=x]> a) else Raise IndexError.

(** [a[i,j]] (for a 3-d array: the slice [a[i,j,:]]). *)
Definition getitem2 {A} (a : list (list A)) (i j : nat) : result A :=
  r ← getitem a i; getitem r j.

(** [a[i,j] = x] (for a 3-d array: [a[i,j,:] = x] with [x] of the
    length of the last axis). *)
Definition setitem2 {A} (a : list (list A)) (i j : nat) (x : A)
  : result (list (list A)) :=
  r ← getitem a i; r' ← setitem r j x; setitem a i r'.

(** [a[i,j,k] = x]. *)
Definition setitem3 {A} (a : list (list (list A))) (i j k : nat) (x : A)
  : result (list (list (list A))) :=
  r ← getitem2 a i j; r' ← setitem r k x; setitem2 a i j r'.

(** [np.flipud] of a 1-d array. *)
Definition flipud (a : list F) : list F := reverse a.

(** [np.min] and [np.max]: reductions that raise on an empty array. *)
Definition np_min (a : list F) : result F :=
  match a with
  | [] => Raise ValueError
  | x :: a' => OK (foldl fmin x a')
  end.

Definition np_max (a : list F) : result F :=
  match a with
  | [] => Raise ValueError
  | x :: a' => OK (foldl fmax x a')
  end.

(** [np.sum]; the order in which numpy adds the terms is idealised to
    left-to-right. *)
Definition np_sum (a : list F) : F := foldl fadd (of_nat 0) a.

(** [np.linspace(start, stop, num)] with the end point included:
    [arange(0, num) * step + start], the last sample set to [stop].
    (When the step rounds to zero numpy multiplies in another order; the
    two agree unless the difference [stop - start] underflows.) *)
Definition linspace (start stop : F) (num : nat) : list F :=
  match num with
  | 0 => []
  | 1 => [start]
  | S (S _ as n1) =>
      let step := ((stop - start) / of_nat n1)%fl in
      ((fun k => (of_nat k * step + start)%fl) <$> seq 0 n1) ++ [stop]
  end.

(** [np.diff]. *)
Definition diff (x : list F) : list F :=
  zip_with (fun a b => (b - a)%fl) x (tail x).

(** [np.trapz(y, x)] for [y] and [x] of one length:
    [sum(diff(x) * (y[1:] + y[:-1]) / 2.0)]. *)
Definition trapz (y x : list F) : F :=
  np_sum (zip_with (fun d s => (d * s / of_nat 2)%fl) (diff x)
            (zip_with (fun a b => (b + a)%fl) y (tail y))).
End Arrays.

(** ** Library routines of numpy and scipy *)

(** [a] is an [n] by [m] array. *)
Definition has_shape {F} (n m : nat) (a : matrix F) : Prop :=
  length a = n /\ Forall (fun r => length r = m) a.

Class Library (F : Type) : Type := {
  (** [scipy.interpolate.interp1d(x=x, y=y)]: the piecewise-linear
      interpolant of the samples [(x, y)], a function of the points to
      evaluate it on; construction raises when the samples are unusable,
      evaluation when a point leaves their range. *)
  interp1d : list F -> list F -> result (list F -> result (list F));
  interp1d_length x y f x_new y_new :
    interp1d x y = OK f -> f x_new = OK y_new -> length y_new = length x_new;
  (** [np.linalg.svd(h)]: [(u, s, vh)]. *)
  svd : matrix F -> result (matrix F * list F * matrix F);
  svd_shape n h u s vh :
    has_shape n n h -> svd h = OK (u, s, vh) ->
    has_shape n n u /\ length s = n /\ has_shape n n vh;
  (** [np.linalg.inv(a)]; raises [LinAlgError] on a singular matrix. *)
  inv : matrix F -> result (matrix F);
  inv_shape n a m : has_shape n n a -> inv a = OK m -> has_shape n n m;
  (** [scipy.linalg.expm(a)]. *)
  expm : matrix F -> result (matrix F);
  expm_shape n a m : has_shape n n a -> expm a = OK m -> has_shape n n m
}.

(** ** The coefficient store *)

(** [self.ex.irf]: attributes appear when they are first assigned. *)
Record ExcitationIRF (F : Type) : Type := {
  ex_irf_t : option (list F);
  ex_irf_w : option (list F);
  ex_irf_f : option (tensor3 F)
}.
Arguments ex_irf_t {F} _.
Arguments ex_irf_w {F} _.
Arguments ex_irf_f {F} _.

(** [self.rd.irf]. *)
Record RadiationIRF (F : Type) : Type := {
  rd_irf_t : option (list F);
  rd_irf_w : option (list F);
  rd_irf_L : option (tensor3 F);
  rd_irf_K : option (tensor3 F)
}.
Arguments rd_irf_t {F} _.
Arguments rd_irf_w {F} _.
Arguments rd_irf_L {F} _.
Arguments rd_irf_K {F} _.

(** [self.rd.ss]. *)
Record StateSpaceRealization (F : Type) : Type := {
  ss_A : tensor4 F;
  ss_B : tensor4 F;
  ss_C : tensor4 F;
  ss_D : tensor3 F;
  ss_irk_bss : tensor3 F;
  ss_rad_conv : matrix F;
  ss_it : matrix F;
  ss_r2t : matrix F
}.
Arguments ss_A {F} _.
Arguments ss_B {F} _.
Arguments ss_C {F} _.
Arguments ss_D {F} _.
Arguments ss_irk_bss {F} _.
Arguments ss_rad_conv {F} _.
Arguments ss_it {F} _.
Arguments ss_r2t {F} _.

(** [HydrodynamicData]: the fields the numerical core reads and writes.
    [rd_im] is [self.rd.im], an attribute that only exists if something
    assigned it: radiation damping is real and the parsers give [self.rd]
    no imaginary part. *)
Record HydrodynamicData (F : Type) : Type := {
  w : list F;
  am_inf : matrix F;
  rd_all : tensor3 F;
  rd_im : option (tensor3 F);
  ex_re : tensor3 F;
  ex_im : tensor3 F;
  ex_mag : tensor3 F;
  ex_irf : ExcitationIRF F;
  rd_irf : RadiationIRF F;
  rd_ss : option (StateSpaceRealization F)
}.
Arguments w {F} _.
Arguments am_inf {F} _.
Arguments rd_all {F} _.
Arguments rd_im {F} _.
Arguments ex_re {F} _.
Arguments ex_im {F} _.
Arguments ex_mag {F} _.
Arguments ex_irf {F} _.
Arguments rd_irf {F} _.
Arguments rd_ss {F} _.

Section Store.
Context {F : Type}.

Definition set_ex_irf (g : ExcitationIRF F -> ExcitationIRF F)
    (self : HydrodynamicData F) : HydrodynamicData F :=
  {| w := w self; am_inf := am_inf self; rd_all := rd_all self;
     rd_im := rd_im self; ex_re := ex_re self; ex_im := ex_im self;
     ex_mag := ex_mag self; ex_irf := g (ex_irf self);
     rd_irf := rd_irf self; rd_ss := rd_ss self |}.

Definition set_rd_irf (g : RadiationIRF F -> RadiationIRF F)
    (self : HydrodynamicData F) : HydrodynamicData F :=
  {| w := w self; am_inf := am_inf self; rd_all := rd_all self;
     rd_im := rd_im self; ex_re := ex_re self; ex_im := ex_im self;
     ex_mag := ex_mag self; ex_irf := ex_irf self;
     rd_irf := g (rd_irf self); rd_ss := rd_ss self |}.

Definition set_rd_ss (s : StateSpaceRealization F)
    (self : HydrodynamicData F) : HydrodynamicData F :=
  {| w := w self; am_inf := am_inf self; rd_all := rd_all self;
     rd_im := rd_im self; ex_re := ex_re self; ex_im := ex_im self;
     ex_mag := ex_mag self; ex_irf := ex_irf self;
     rd_irf := rd_irf self; rd_ss := Some s |}.

Definition set_ex_irf_t (t : list F) : HydrodynamicData F -> HydrodynamicData F :=
  set_ex_irf (fun r => {| ex_irf_t := Some t; ex_irf_w := ex_irf_w r;
                          ex_irf_f := ex_irf_f r |}).
Definition set_ex_irf_w (x : list F) : HydrodynamicData F -> HydrodynamicData F :=
  set_ex_irf (fun r => {| ex_irf_t := ex_irf_t r; ex_irf_w := Some x;
                          ex_irf_f := ex_irf_f r |}).
Definition set_ex_irf_f (f : tensor3 F) : HydrodynamicData F -> HydrodynamicData F :=
  set_ex_irf (fun r => {| ex_irf_t := ex_irf_t r; ex_irf_w := ex_irf_w r;
                          ex_irf_f := Some f |}).

Definition set_rd_irf_t (t : list F) : HydrodynamicData F -> HydrodynamicData F :=
  set_rd_irf (fun r => {| rd_irf_t := Some t; rd_irf_w := rd_irf_w r;
                          rd_irf_L := rd_irf_L r; rd_irf_K := rd_irf_K r |}).
Definition set_rd_irf_w (x : list F) : HydrodynamicData F -> HydrodynamicData F :=
  set_rd_irf (fun r => {| rd_irf_t := rd_irf_t r; rd_irf_w := Some x;
                          rd_irf_L := rd_irf_L r; rd_irf_K := rd_irf_K r |}).
Definition set_rd_irf_L (l : tensor3 F) : HydrodynamicData F -> HydrodynamicData F :=
  set_rd_irf (fun r => {| rd_irf_t := rd_irf_t r; rd_irf_w := rd_irf_w r;
                          rd_irf_L := Some l; rd_irf_K := rd_irf_K r |}).
Definition set_rd_irf_K (k : tensor3 F) : HydrodynamicData F -> HydrodynamicData F :=
  set_rd_irf (fun r => {| rd_irf_t := rd_irf_t r; rd_irf_w := rd_irf_w r;
                          rd_irf_L := rd_irf_L r; rd_irf_K := Some k |}).

(** Reading an attribute that may not have been assigned. *)
Definition getattr {A} (o : option A) : result A :=
  match o with
  | Some a => OK a
  | None => Raise AttributeError
  end.

(** [for x in xs: body], over a state that [body] updates in place: an
    exception leaves the updates made so far. *)
Fixpoint for_ {S X} (xs : list X) (body : X -> S -> S * result unit) (s : S)
  : S * result unit :=
  match xs with
  | [] => (s, OK tt)
  | x :: xs' =>
      match body x s with
      | (s', OK _) => for_ xs' body s'
      | (s', Raise e) => (s', Raise e)
      end
  end.

(** [enumerate]. *)
Definition enumerate {A} (xs : list A) : list (nat * A) :=
  imap (fun i x => (i, x)) xs.

(** [xrange(n)]. *)
Definition xrange (n : nat) : list nat := seq 0 n.

(** An update of the state that may raise and then changes nothing. *)
Definition try_update {S} (g : S -> result S) (s : S) : S * result unit :=
  match g s with
  | OK s' => (s', OK tt)
  | Raise e => (s, Raise e)
  end.
End Store.

(** ** Methods of [HydrodynamicData] *)

(** A method: a function of the store that returns the store it leaves
    behind and either a value or the exception raised. *)
Definition M (F A : Type) : Type :=
  HydrodynamicData F -> HydrodynamicData F * result A.

#[global] Instance M_ret {F} : MRet (M F) := fun A a self => (self, OK a).
#[global] Instance M_bind {F} : MBind (M F) := fun A B k m self =>
  match m self with
  | (self', OK a) => k a self'
  | (self', Raise e) => (self', Raise e)
  end.

Definition get {F} : M F (HydrodynamicData F) := fun self => (self, OK self).
Definition modify {F} (g : HydrodynamicData F -> HydrodynamicData F) : M F unit :=
  fun self => (g self, OK tt).
Definition lift {F A} (r : result A) : M F A := fun self => (self, r).

(** A loop that updates [self.ex.irf.f] in place. *)
Definition in_place_ex_irf_f {F}
    (loop : tensor3 F -> tensor3 F * result unit) : M F unit :=
  fun self =>
    match ex_irf_f (ex_irf self) with
    | None => (self, Raise AttributeError)
    | Some f => let '(f', r) := loop f in (set_ex_irf_f f' self, r)
    end.

(** A loop that updates [self.rd.irf.K] and [self.rd.irf.L] in place. *)
Definition in_place_rd_irf_KL {F}
    (loop : tensor3 F * tensor3 F -> (tensor3 F * tensor3 F) * result unit)
  : M F unit :=
  fun self =>
    match rd_irf_K (rd_irf self), rd_irf_L (rd_irf self) with
    | Some K, Some L =>
        let '((K', L'), r) := loop (K, L) in
        (set_rd_irf_L L' (set_rd_irf_K K' self), r)
    | _, _ => (self, Raise AttributeError)
    end.

Section IRF.
Context {F : Type} `{Scalar F} `{Library F}.

(** Elementwise operations on 1-d arrays of one length. *)
Definition vmul (a b : list F) : list F := zip_with fmul a b.
Definition vsub (a b : list F) : list F := zip_with fsub a b.

(** *** [calc_irf_excitation] *)

(** Lines 135-153: the interpolation of one [(i,j)] slice. *)
Definition interp_excitation_ij (self : HydrodynamicData F) (flip : bool)
    (w_tmp irf_w : list F) (i j : nat) (acc : tensor3 F * tensor3 F)
  : result (tensor3 F * tensor3 F) :=
  let '(ex_re_interp, ex_im_interp) := acc in
  ex_tmp_re ←
    (if flip then flipud <$> getitem2 (ex_re self) i j
     else getitem2 (ex_re self) i j);
  ex_tmp_im ←
    (if flip then im ← getattr (rd_im self); flipud <$> getitem2 im i j
     else getitem2 (ex_im self) i j);
  f_re ← interp1d w_tmp ex_tmp_re;
  f_im ← interp1d w_tmp ex_tmp_im;
  v_re ← f_re irf_w;
  ex_re_interp ← setitem2 ex_re_interp i j v_re;
  v_im ← f_im irf_w;
  ex_im_interp ← setitem2 ex_im_interp i j v_im;
  OK (ex_re_interp, ex_im_interp).

Definition interp_excitation (self : HydrodynamicData F) (flip : bool)
    (w_tmp irf_w : list F) : result (tensor3 F * tensor3 F) :=
  let s0 := shape0 (ex_mag self) in
  let s1 := shape1 (ex_mag self) in
  let zs := zeros3 s0 s1 (length irf_w) in
  match
    for_ (xrange s0) (fun i =>
      for_ (xrange s1) (fun j =>
        try_update (interp_excitation_ij self flip w_tmp irf_w i j)))
      (zs, zs)
  with
  | (acc, OK _) => OK acc
  | (_, Raise e) => Raise e
  end.

(** Lines 163-164: the integrand at time [t]. *)
Definition excitation_integrand (re_ij im_ij irf_w : list F) (t : F) : list F :=
  let wt := (fun wk => (wk * t)%fl) <$> irf_w in
  let tmp := vsub (vmul re_ij (fcos <$> wt)) (vmul im_ij (fsin <$> wt)) in
  (fun x => (x * (of_nat 1 / fpi))%fl) <$> tmp.

(** Lines 163-165: one pass of the quadrature loop, updating
    [self.ex.irf.f]. *)
Definition excitation_step (ex_re_interp ex_im_interp : tensor3 F)
    (irf_w : list F) (t_ind : nat) (t : F) (i j : nat) (f : tensor3 F)
  : result (tensor3 F) :=
  re_ij ← getitem2 ex_re_interp i j;
  im_ij ← getitem2 ex_im_interp i j;
  let tmp := excitation_integrand re_ij im_ij irf_w t in
  setitem3 f i j t_ind (trapz tmp irf_w).

(** Lines 158-167. *)
Definition excitation_loop (s0 s1 : nat) (ex_re_interp ex_im_interp : tensor3 F)
    (irf_t irf_w : list F) (f : tensor3 F) : tensor3 F * result unit :=
  for_ (enumerate irf_t) (fun '(t_ind, t) =>
    for_ (xrange s0) (fun i =>
      for_ (xrange s1) (fun j =>
        try_update (excitation_step ex_re_interp ex_im_interp irf_w t_ind t i j))))
    f.

Definition calc_irf_excitation (t_length : F) (n_t n_w : nat) : M F unit :=
  let irf_t := linspace (- t_length)%fl t_length n_t in
  modify (set_ex_irf_t irf_t);;
  self ← get;
  lo ← lift (np_min (w self));
  hi ← lift (np_max (w self));
  let irf_w := linspace lo hi n_w in
  modify (set_ex_irf_w irf_w);;
  let s0 := shape0 (ex_mag self) in
  let s1 := shape1 (ex_mag self) in
  let f := zeros3 s0 s1 (length irf_t) in
  modify (set_ex_irf_f f);;
  w0 ← lift (getitem (w self) 0);
  w1 ← lift (getitem (w self) 1);
  let flip := fgt w0 w1 in
  let w_tmp := if flip then flipud (w self) else w self in
  interp ← lift (interp_excitation self flip w_tmp irf_w);
  in_place_ex_irf_f
    (excitation_loop s0 s1 interp.1 interp.2 irf_t irf_w).

(** *** [calc_ss_excitation] *)

Definition calc_ss_excitation (t_end : F) (n_t n_w : nat) : M F unit :=
  lift (Raise (Exception not_implemented_msg)).

(** *** [calc_irf_radiation] *)

(** Lines 198-210. *)
Definition interp_radiation_ij (self : HydrodynamicData F) (flip : bool)
    (w_tmp irf_w : list F) (i j : nat) (rd_interp : tensor3 F)
  : result (tensor3 F) :=
  rdTmp ←
    (if flip then flipud <$> getitem2 (rd_all self) i j
     else getitem2 (rd_all self) i j);
  f ← interp1d w_tmp rdTmp;
  v ← f irf_w;
  setitem2 rd_interp i j v.

Definition interp_radiation (self : HydrodynamicData F) (flip : bool)
    (w_tmp irf_w : list F) : result (tensor3 F) :=
  let s0 := shape0 (rd_all self) in
  let s1 := shape1 (rd_all self) in
  match
    for_ (xrange s0) (fun i =>
      for_ (xrange s1) (fun j =>
        try_update (interp_radiation_ij self flip w_tmp irf_w i j)))
      (zeros3 s0 s1 (length irf_w))
  with
  | (rd_interp, OK _) => OK rd_interp
  | (_, Raise e) => Raise e
  end.

(** Lines 221-222: the two integrands at time [t]. *)
Definition radiation_integrand (trig : F -> F) (rd_ij irf_w : list F) (t : F)
  : list F :=
  vmul ((fun r => (of_nat 2 / fpi * r)%fl) <$> rd_ij)
       (trig <$> ((fun wk => (wk * t)%fl) <$> irf_w)).

(** Lines 221-224: one pass of the quadrature loop, updating
    [self.rd.irf.K] and [self.rd.irf.L]. *)
Definition radiation_step (rd_interp : tensor3 F) (irf_w : list F)
    (t_ind : nat) (t : F) (i j : nat) (KL : tensor3 F * tensor3 F)
  : (tensor3 F * tensor3 F) * result unit :=
  let '(K, L) := KL in
  match getitem2 rd_interp i j with
  | Raise e => ((K, L), Raise e)
  | OK rd_ij =>
      let tmpL := radiation_integrand fsin rd_ij irf_w t in
      let tmpK := radiation_integrand fcos rd_ij irf_w t in
      match setitem3 K i j t_ind (trapz tmpK irf_w) with
      | Raise e => ((K, L), Raise e)
      | OK K' =>
          match setitem3 L i j t_ind (trapz tmpL irf_w) with
          | Raise e => ((K', L), Raise e)
          | OK L' => ((K', L'), OK tt)
          end
      end
  end.

(** Lines 215-226. *)
Definition radiation_loop (s0 s1 : nat) (rd_interp : tensor3 F)
    (irf_t irf_w : list F) (KL : tensor3 F * tensor3 F)
  : (tensor3 F * tensor3 F) * result unit :=
  for_ (enumerate irf_t) (fun '(t_ind, t) =>
    for_ (xrange s0) (fun i =>
      for_ (xrange s1) (radiation_step rd_interp irf_w t_ind t i))) KL.

Definition calc_irf_radiation (t_end : F) (n_t n_w : nat) : M F unit :=
  let irf_t := linspace (of_nat 0) t_end n_t in
  modify (set_rd_irf_t irf_t);;
  self ← get;
  lo ← lift (np_min (w self));
  hi ← lift (np_max (w self));
  let irf_w := linspace lo hi n_w in
  modify (set_rd_irf_w irf_w);;
  let L := zeros3 (shape0 (am_inf self)) (shape1 (am_inf self)) (length irf_t) in
  let K := zeros3 (shape0 (am_inf self)) (shape1 (am_inf self)) (length irf_t) in
  modify (set_rd_irf_L L);;
  modify (set_rd_irf_K K);;
  w0 ← lift (getitem (w self) 0);
  w1 ← lift (getitem (w self) 1);
  let flip := fgt w0 w1 in
  let w_tmp := if flip then flipud (w self) else w self in
  rd_interp ← lift (interp_radiation self flip w_tmp irf_w);
  in_place_rd_irf_KL
    (radiation_loop (shape0 (rd_all self)) (shape1 (rd_all self))
       rd_interp irf_t irf_w).
End IRF.

(** ** numpy on 2-d arrays *)

Section LinearAlgebra.
Context {F : Type} `{Scalar F}.

(** Column [j] of a 2-d array. *)
Definition col (j : nat) (a : matrix F) : list F :=
  (fun r => default (of_nat 0) (r !! j)) <$> a.

(** [a.T]. *)
Definition transpose (a : matrix F) : matrix F :=
  (fun j => col j a) <$> seq 0 (shape1 a).

(** [np.eye(n)]. *)
Definition eye (n : nat) : matrix F :=
  (fun i => (fun j => if decide (i = j) then of_nat 1 else of_nat 0) <$> seq 0 n)
    <$> seq 0 n.

(** [g] applied to every entry: a scalar combined with an array. *)
Definition mmap (g : F -> F) (a : matrix F) : matrix F :=
  (fun r : list F => g <$> r) <$> a.

(** An elementwise binary operation under numpy's broadcasting rule, along
    one axis: equal lengths pair up, a length of one is stretched, anything
    else raises. *)
Definition broadcast {A B C} (g : A -> B -> result C) (a : list A) (b : list B)
  : result (list C) :=
  if decide (length a = length b) then mapM (fun p => g p.1 p.2) (zip a b)
  else
    match a, b with
    | [x], _ => mapM (g x) b
    | _, [y] => mapM (fun x => g x y) a
    | _, _ => Raise ValueError
    end.

(** On 1-d and on 2-d arrays. *)
Definition broadcast1 (g : F -> F -> F) (a b : list F) : result (list F) :=
  broadcast (fun x y => OK (g x y)) a b.
Definition broadcast2 (g : F -> F -> F) (a b : matrix F) : result (matrix F) :=
  broadcast (broadcast1 g) a b.

(** The matrix product of aligned 2-d arrays. *)
Definition matmul (a b : matrix F) : matrix F :=
  (fun r => (fun j => np_sum (zip_with fmul r (col j b))) <$> seq 0 (shape1 b))
    <$> a.

(** [np.dot] of two 2-d arrays; raises when the shapes are not aligned. *)
Definition dot (a b : matrix F) : result (matrix F) :=
  if decide (shape1 a = shape0 b) then OK (matmul a b) else Raise ValueError.

(** [v.reshape(n, 1)] and [v.reshape(1, n)] of a 1-d array. *)
Definition reshape_col (v : list F) (n : nat) : result (matrix F) :=
  if decide (length v = n) then OK ((fun x => [x]) <$> v) else Raise ValueError.
Definition reshape_row (v : list F) (n : nat) : result (matrix F) :=
  if decide (length v = n) then OK [v] else Raise ValueError.

(** [a[r0:r1, 0:c]]. *)
Definition slice2 (a : matrix F) (r0 r1 c : nat) : matrix F :=
  take c <$> drop r0 (take r1 a).

(** [scipy.linalg.hankel(c)]: first column [c], zeros below the
    anti-diagonal. *)
Definition hankel (c : list F) : matrix F :=
  (fun i => drop i c ++ zeros i) <$> seq 0 (length c).

(** [a.mean()] and [np.linalg.norm(a)] of a 1-d array. *)
Definition mean (a : list F) : F := (np_sum a / of_nat (length a))%fl.
Definition norm (a : list F) : F := fsqrt (np_sum ((fun x => (x * x)%fl) <$> a)).

(** The only entry of an array of size one, as assigning the array to a
    scalar slot takes it. *)
Definition item (a : matrix F) : result F :=
  match a with
  | [[x]] => OK x
  | _ => Raise ValueError
  end.

(** [target[0:n] = v] along one axis: the slice stops at the end of
    [target], and [v] must have its length or length one. *)
Definition assign_slice {A} (assign : A -> A -> result A)
    (target : list A) (n : nat) (v : list A) : result (list A) :=
  let t := min n (length target) in
  if decide (length v = t) then
    head ← mapM (fun p => assign p.1 p.2) (zip (take t target) v);
    OK (head ++ drop t target)
  else
    match v with
    | [x] =>
        head ← mapM (fun old => assign old x) (take t target);
        OK (head ++ drop t target)
    | _ => Raise ValueError
    end.

(** [target[0:n] = v] for 1-d arrays, [target[0:n, 0:m] = v] for 2-d ones. *)
Definition assign1 (target : list F) (n : nat) (v : list F) : result (list F) :=
  assign_slice (fun _ x => OK x) target n v.
Definition assign2 (target : matrix F) (n m : nat) (v : matrix F)
  : result (matrix F) :=
  assign_slice (fun old x => assign1 old m x) target n v.
End LinearAlgebra.

(** ** [calc_ss_radiation] *)

(** What one pass of the order search computes (lines 281-314). *)
Record realization (F : Type) : Type := {
  ac : matrix F;
  bc : matrix F;
  cc : matrix F;
  dc : matrix F;
  k_ss_est : list F;
  R2T : F
}.
Arguments ac {F} _.
Arguments bc {F} _.
Arguments cc {F} _.
Arguments dc {F} _.
Arguments k_ss_est {F} _.
Arguments R2T {F} _.

Section SetStateSpace.
Context {F : Type}.

Definition set_ss_A (x : tensor4 F) (s : StateSpaceRealization F) :=
  {| ss_A := x; ss_B := ss_B s; ss_C := ss_C s; ss_D := ss_D s;
     ss_irk_bss := ss_irk_bss s; ss_rad_conv := ss_rad_conv s;
     ss_it := ss_it s; ss_r2t := ss_r2t s |}.
Definition set_ss_B (x : tensor4 F) (s : StateSpaceRealization F) :=
  {| ss_A := ss_A s; ss_B := x; ss_C := ss_C s; ss_D := ss_D s;
     ss_irk_bss := ss_irk_bss s; ss_rad_conv := ss_rad_conv s;
     ss_it := ss_it s; ss_r2t := ss_r2t s |}.
Definition set_ss_C (x : tensor4 F) (s : StateSpaceRealization F) :=
  {| ss_A := ss_A s; ss_B := ss_B s; ss_C := x; ss_D := ss_D s;
     ss_irk_bss := ss_irk_bss s; ss_rad_conv := ss_rad_conv s;
     ss_it := ss_it s; ss_r2t := ss_r2t s |}.
Definition set_ss_D (x : tensor3 F) (s : StateSpaceRealization F) :=
  {| ss_A := ss_A s; ss_B := ss_B s; ss_C := ss_C s; ss_D := x;
     ss_irk_bss := ss_irk_bss s; ss_rad_conv := ss_rad_conv s;
     ss_it := ss_it s; ss_r2t := ss_r2t s |}.
Definition set_ss_irk_bss (x : tensor3 F) (s : StateSpaceRealization F) :=
  {| ss_A := ss_A s; ss_B := ss_B s; ss_C := ss_C s; ss_D := ss_D s;
     ss_irk_bss := x; ss_rad_conv := ss_rad_conv s;
     ss_it := ss_it s; ss_r2t := ss_r2t s |}.
Definition set_ss_rad_conv (x : matrix F) (s : StateSpaceRealization F) :=
  {| ss_A := ss_A s; ss_B := ss_B s; ss_C := ss_C s; ss_D := ss_D s;
     ss_irk_bss := ss_irk_bss s; ss_rad_conv := x;
     ss_it := ss_it s; ss_r2t := ss_r2t s |}.
Definition set_ss_it (x : matrix F) (s : StateSpaceRealization F) :=
  {| ss_A := ss_A s; ss_B := ss_B s; ss_C := ss_C s; ss_D := ss_D s;
     ss_irk_bss := ss_irk_bss s; ss_rad_conv := ss_rad_conv s;
     ss_it := x; ss_r2t := ss_r2t s |}.
Definition set_ss_r2t (x : matrix F) (s : StateSpaceRealization F) :=
  {| ss_A := ss_A s; ss_B := ss_B s; ss_C := ss_C s; ss_D := ss_D s;
     ss_irk_bss := ss_irk_bss s; ss_rad_conv := ss_rad_conv s;
     ss_it := ss_it s; ss_r2t := x |}.

(** [for x in xs: body] where [body] contains a [while] loop that is run
    on fuel: [None] when the fuel ran out. *)
Fixpoint for_fuel {S X} (xs : list X) (body : X -> S -> S * option (result unit))
    (s : S) : S * option (result unit) :=
  match xs with
  | [] => (s, Some (OK tt))
  | x :: xs' =>
      match body x s with
      | (s', Some (OK _)) => for_fuel xs' body s'
      | (s', o) => (s', o)
      end
  end.
End SetStateSpace.

Section StateSpace.
Context {F : Type} `{Scalar F} `{Library F}.

(** Lines 281-295: the discrete realization [(a, b, c, d)] of order [ss]
    from the Hankel matrix of the kernel. *)
Definition discrete_realization (K_ij : list F) (dt : F) (numFreq ss : nat)
  : result (matrix F * matrix F * matrix F * F) :=
  let y := fmul dt <$> K_ij in
  let h := hankel (drop 1 y) in
  '(u, svh, v) ← svd h;
  let u1 := slice2 u 0 (numFreq - 2) ss in
  let v1 := slice2 (transpose v) 0 (numFreq - 2) ss in
  let u2 := slice2 u 1 (numFreq - 1) ss in
  sq ← reshape_col (take ss svh) ss;
  let sqs := mmap fsqrt sq in
  let invss := mmap (fun x => (of_nat 1 / x)%fl) sqs in
  ubar ← dot (transpose u1) u2;
  scale ← dot invss (transpose sqs);
  a ← broadcast2 fmul ubar scale;
  v1_0 ← getitem v1 0;
  v1_0 ← reshape_col v1_0 ss;
  b ← broadcast2 fmul v1_0 sqs;
  u1_0 ← getitem u1 0;
  u1_0 ← reshape_row u1_0 ss;
  c ← broadcast2 fmul u1_0 (transpose sqs);
  d ← getitem y 0;
  OK (a, b, c, d).

(** Lines 297-307: the bilinear transform to continuous time. *)
Definition bilinear (dt : F) (ss : nat) (a b c : matrix F) (d : F)
  : result (matrix F * matrix F * matrix F * matrix F) :=
  let CoeA := (dt / of_nat 2)%fl in
  let CoeB := of_nat 1 in
  let CoeC := (- CoeA)%fl in
  let CoeD := of_nat 1 in
  m ← broadcast2 fsub (mmap (fmul CoeA) (eye ss)) (mmap (fmul CoeC) a);
  iidd ← inv m;
  n ← broadcast2 fsub (mmap (fmul CoeB) a) (mmap (fmul CoeD) (eye ss));
  ac ← dot n iidd;
  ib ← dot iidd b;
  let bc := mmap (fmul (CoeA * CoeB - CoeC * CoeD)%fl) ib in
  cc ← dot c iidd;
  ci ← dot c iidd;
  cib ← dot ci b;
  let dc := mmap (fun x => (d + CoeC * x)%fl) cib in
  OK (ac, bc, cc, dc).

(** Lines 309-311: the impulse response of the realization at every
    sample. *)
Definition impulse_response (ac bc cc : matrix F) (dt : F) (numFreq : nat)
  : result (list F) :=
  mapM (fun jj =>
          e ← expm (mmap (fun x => (x * dt * of_nat jj)%fl) ac);
          ce ← dot cc e;
          ceb ← dot ce bc;
          item ceb)
       (xrange numFreq).

(** Lines 313-314: the fit quality [R2T]. *)
Definition fit_quality (K_ij k_ss_est : list F) (r2bt : F) : result F :=
  err ← broadcast1 fsub K_ij k_ss_est;
  let R2TT := norm err in
  OK (of_nat 1 - (R2TT / r2bt) * (R2TT / r2bt))%fl.

(** One pass of the loop body up to the stop tests. *)
Definition realization_at (K_ij : list F) (dt : F) (numFreq : nat) (r2bt : F)
    (ss : nat) : result (realization F) :=
  '(a, b, c, d) ← discrete_realization K_ij dt numFreq ss;
  '(ac, bc, cc, dc) ← bilinear dt ss a b c d;
  k_ss_est ← impulse_response ac bc cc dt numFreq;
  R2T ← fit_quality K_ij k_ss_est r2bt;
  OK {| ac := ac; bc := bc; cc := cc; dc := dc;
        k_ss_est := k_ss_est; R2T := R2T |}.

(** Lines 278-326: [while True] from the order [ss] on, run on [fuel]
    passes; the result is the last realization, the status and the
    order. *)
Fixpoint order_search (fuel : nat) (K_ij : list F) (dt : F) (numFreq : nat)
    (r2bt : F) (max_order : nat) (r2_thresh : F) (ss : nat)
  : option (result (realization F * nat * nat)) :=
  match fuel with
  | 0 => None
  | S fuel' =>
      match realization_at K_ij dt numFreq r2bt ss with
      | Raise e => Some (Raise e)
      | OK r =>
          if fge (R2T r) r2_thresh then Some (OK (r, 1, ss))
          else if decide (ss = max_order) then Some (OK (r, 2, ss))
          else order_search fuel' K_ij dt numFreq r2bt max_order r2_thresh (ss + 1)
      end
  end.

(** Line 328: [A[i,j,0:n,0:n] = ac] with [n = ac.shape[0]], on the entry
    [A[i,j]]. *)
Definition write_A (r : realization F) (A_ij : matrix F) : result (matrix F) :=
  assign2 A_ij (shape0 (ac r)) (shape0 (ac r)) (ac r).

(** Line 329: [B[i,j,0:n,0] = bc[:,0]] with [n = bc.shape[0]]. *)
Definition write_B (r : realization F) (B_ij : matrix F) : result (matrix F) :=
  bc_0 ← mapM (fun row => getitem row 0) (bc r);
  B_0 ← assign1 (col 0 B_ij) (shape0 (bc r)) bc_0;
  OK (zip_with (fun row x => <[0:=x]> row) B_ij B_0).

(** Line 330: [C[i,j,0,0:n] = cc[0,:]] with [n = cc.shape[1]]. *)
Definition write_C (r : realization F) (C_ij : matrix F) : result (matrix F) :=
  cc_0 ← getitem (cc r) 0;
  C_0 ← getitem C_ij 0;
  C_0 ← assign1 C_0 (shape1 (cc r)) cc_0;
  OK (<[0:=C_0]> C_ij).

(** Line 331: [D[i,j] = dc], an array of size one into a slot of size
    one. *)
Definition write_D (r : realization F) (D_ij : list F) : result (list F) :=
  x ← item (dc r); OK [x].

(** An assignment into the entry [a[i,j]] of an array of arrays. *)
Definition update2 {A} (a : list (list A)) (i j : nat) (g : A -> result A)
  : result (list (list A)) :=
  x ← getitem2 a i j; x ← g x; setitem2 a i j x.

(** Lines 328-335: the results of a pair written into the store, one
    assignment after the other. *)
Definition record_pair (i j : nat) (r : realization F) (status ss : nat)
  : list (StateSpaceRealization F -> result (StateSpaceRealization F)) :=
  [ (fun s => x ← update2 (ss_A s) i j (write_A r); OK (set_ss_A x s));
    (fun s => x ← update2 (ss_B s) i j (write_B r); OK (set_ss_B x s));
    (fun s => x ← update2 (ss_C s) i j (write_C r); OK (set_ss_C x s));
    (fun s => x ← update2 (ss_D s) i j (write_D r); OK (set_ss_D x s));
    (fun s =>
       x ← setitem2 (ss_irk_bss s) i j (k_ss_est r); OK (set_ss_irk_bss x s));
    (fun s =>
       x ← setitem2 (ss_rad_conv s) i j (of_nat status); OK (set_ss_rad_conv x s));
    (fun s => x ← setitem2 (ss_r2t s) i j (R2T r); OK (set_ss_r2t x s));
    (fun s => x ← setitem2 (ss_it s) i j (of_nat ss); OK (set_ss_it x s)) ].

(** Line 273: the reference norm of a kernel. *)
Definition reference_norm (K_ij : list F) : F :=
  norm ((fun k => (k - mean K_ij)%fl) <$> K_ij).

(** Lines 273-335: the body of the loops over [(i, j)]. *)
Definition reduce_pair (fuel : nat) (self : HydrodynamicData F) (dt : F)
    (numFreq max_order : nat) (r2_thresh : F) (i j : nat)
    (s : StateSpaceRealization F)
  : StateSpaceRealization F * option (result unit) :=
  match K ← getattr (rd_irf_K (rd_irf self)); getitem2 K i j with
  | Raise e => (s, Some (Raise e))
  | OK K_ij =>
      let r2bt := reference_norm K_ij in
      if fne r2bt (of_nat 0) then
        match order_search fuel K_ij dt numFreq r2bt max_order r2_thresh 2 with
        | None => (s, None)
        | Some (Raise e) => (s, Some (Raise e))
        | Some (OK (r, status, ss)) =>
            let '(s', o) := for_ (record_pair i j r status ss) try_update s in
            (s', Some o)
        end
      else (s, Some (OK tt))
  end.

(** Lines 255-265: the containers, all zero. *)
Definition empty_realization (n1 numFreq max_order : nat)
  : StateSpaceRealization F :=
  {| ss_A := zeros4 6 n1 max_order max_order;
     ss_B := zeros4 6 n1 max_order 1;
     ss_C := zeros4 6 n1 1 max_order;
     ss_D := zeros3 6 n1 1;
     ss_irk_bss := zeros3 6 n1 numFreq;
     ss_rad_conv := zeros2 6 n1;
     ss_it := zeros2 6 n1;
     ss_r2t := zeros2 6 n1 |}.

(** The method; [fuel] bounds the passes of each order search. *)
Definition calc_ss_radiation (fuel : nat) (max_order : nat) (r2_thresh : F)
    (self : HydrodynamicData F) : HydrodynamicData F * option (result unit) :=
  match
    t ← getattr (rd_irf_t (rd_irf self));
    t2 ← getitem t 2;
    t1 ← getitem t 1;
    OK ((t2 - t1)%fl, length t)
  with
  | Raise e => (self, Some (Raise e))
  | OK (dt, numFreq) =>
      let n0 := shape0 (am_inf self) in
      let n1 := shape1 (am_inf self) in
      let '(s, o) :=
        for_fuel (xrange n0) (fun i =>
          for_fuel (xrange n1) (fun j =>
            reduce_pair fuel self dt numFreq max_order r2_thresh i j))
          (empty_realization n1 numFreq max_order) in
      (set_rd_ss s self, o)
  end.
End StateSpace.

(** ** Exact real arithmetic

    The instance of the two classes in which a float is a real number and
    every library routine returns the exact mathematical result when there
    is one. It gives the concrete stores of the examples below. *)

Lemma mapM_result_length {A B} (g : A -> result B) (xs : list A) (ys : list B) :
  mapM g xs = OK ys -> length ys = length xs.
Proof.
  revert ys. induction xs as [|x xs IH]; intros ys; simpl.
  - intros [= <-]. reflexivity.
  - destruct (g x) as [y|e]; simpl; [|discriminate].
    destruct (mapM g xs) as [ys'|e]; simpl; [|discriminate].
    intros [= <-]. simpl. f_equal. apply IH. reflexivity.
Qed.

#[global] Instance R_Scalar : Scalar R := {|
  of_nat := INR;
  fadd := Rplus;
  fsub := Rminus;
  fmul := Rmult;
  fdiv := Rdiv;
  fneg := Ropp;
  fsqrt := sqrt;
  fcos := cos;
  fsin := sin;
  fpi := PI;
  fgt x y := if Rgt_dec x y then true else false;
  fge x y := if Rge_dec x y then true else false;
  fne x y := if Req_dec_T x y then false else true;
  fmin := Rmin;
  fmax := Rmax
|}.

(** The interpolant on the segment that contains [x_new]; [xs] ascending. *)
Fixpoint interp_segment (xs ys : list R) (x_new : R) : R :=
  match xs, ys with
  | x_lo :: xs', y_lo :: ys' =>
      match xs', ys' with
      | x_hi :: _, y_hi :: _ =>
          if Rle_dec x_new x_hi
          then ((y_hi - y_lo) / (x_hi - x_lo) * (x_new - x_lo) + y_lo)%R
          else interp_segment xs' ys' x_new
      | _, _ => y_lo
      end
  | _, _ => 0%R
  end.

Definition interp_at (xs ys : list R) (x_new : R) : result R :=
  match xs with
  | [] => Raise ValueError
  | x0 :: _ =>
      if Rgt_dec x0 x_new then Raise ValueError
      else if Rgt_dec x_new (List.last xs x0) then Raise ValueError
      else OK (interp_segment xs ys x_new)
  end.

Definition R_interp1d (x y : list R) : result (list R -> result (list R)) :=
  if decide (length x = length y /\ 2 <= length x)
  then OK (mapM (interp_at x y))
  else Raise ValueError.

(** Singular value decomposition, inverse and exponential of a real
    matrix, by their defining properties. *)
Definition diag (s : list R) : matrix R :=
  imap (fun i x => <[i:=x]> (replicate (length s) 0%R)) s.

Definition descending (s : list R) : Prop :=
  forall i x y, s !! i = Some x -> s !! S i = Some y -> (0 <= y <= x)%R.

Definition is_svd (h : matrix R) (usv : matrix R * list R * matrix R) : Prop :=
  let '(u, s, vh) := usv in
  let n := length h in
  has_shape n n u /\ length s = n /\ has_shape n n vh /\
  matmul u (transpose u) = eye n /\ matmul vh (transpose vh) = eye n /\
  descending s /\ matmul (matmul u (diag s)) vh = h.

Definition is_inv (a m : matrix R) : Prop :=
  let n := length a in
  has_shape n n m /\ matmul a m = eye n /\ matmul m a = eye n.

Fixpoint mpow (a : matrix R) (k : nat) : matrix R :=
  match k with
  | 0 => eye (length a)
  | S k' => matmul a (mpow a k')
  end.

Definition entry (a : matrix R) (i j : nat) : R :=
  default 0%R (a !! i ≫= fun r => r !! j).

Definition is_expm (a m : matrix R) : Prop :=
  let n := length a in
  has_shape n n m /\
  forall i j, i < n -> j < n ->
    Un_cv (sum_f_R0 (fun k => (entry (mpow a k) i j / INR (fact k))%R))
          (entry m i j).

Definition choose {A} (P : A -> Prop) (e : exn) : result A :=
  match excluded_middle_informative (exists x, P x) with
  | left ex => OK (proj1_sig (constructive_indefinite_description P ex))
  | right _ => Raise e
  end.

Lemma choose_spec {A} (P : A -> Prop) (e : exn) (x : A) :
  choose P e = OK x -> P x.
Proof.
  unfold choose. destruct (excluded_middle_informative _) as [ex|]; [|discriminate].
  intros [= <-]. apply proj2_sig.
Qed.

Definition R_svd (h : matrix R) := choose (is_svd h) LinAlgError.
Definition R_inv (a : matrix R) := choose (is_inv a) LinAlgError.
Definition R_expm (a : matrix R) := choose (is_expm a) ValueError.

#[global, refine] Instance R_Library : Library R := {|
  interp1d := R_interp1d;
  svd := R_svd;
  inv := R_inv;
  expm := R_expm
|}.
Proof.
  - intros x y f x_new y_new. unfold R_interp1d.
    destruct (decide _); [|discriminate]. intros [= <-].
    apply mapM_result_length.
  - intros n h u s vh [Hn _] Hsvd. apply choose_spec in Hsvd.
    unfold is_svd in Hsvd. rewrite Hn in Hsvd. tauto.
  - intros n a m [Hn _] Hinv. apply choose_spec in Hinv.
    unfold is_inv in Hinv. rewrite Hn in Hinv. tauto.
  - intros n a m [Hn _] Hexp. apply choose_spec in Hexp.
    unfold is_expm in Hexp. rewrite Hn in Hexp. tauto.
Defined.

(** ** The kernels as the specification states them (section 4.2) *)

Section SpecKernels.
Context {F : Type} `{Scalar F} `{Library F}.

(** Sample [k] of a 1-d array. *)
Definition sample (a : list F) (k : nat) : F := default (of_nat 0) (a !! k).

(** Trapezoidal quadrature of the samples [g 0, g 1, ...] over the grid
    [x]: the sum over the intervals of width times mean height. *)
Definition trapezoidal (g : nat -> F) (x : list F) : F :=
  np_sum ((fun k =>
             ((sample x (S k) - sample x k) * (g (S k) + g k) / of_nat 2)%fl)
            <$> seq 0 (length x - 1)).

(** [num] samples linearly spaced on [[start, stop]]: sample [k] lies [k]
    steps of [(stop - start) / (num - 1)] after [start], and the last one
    is [stop] itself. *)
Definition linearly_spaced (start stop : F) (num : nat) (a : list F) : Prop :=
  length a = num /\
  (num = 1 -> a = [start]) /\
  (2 <= num -> a !! (num - 1) = Some stop) /\
  (forall k, S k < num ->
     a !! k = Some (of_nat k * ((stop - start) / of_nat (num - 1)) + start)%fl).

(** [K(t)] and [L(t)]: the quadrature of [(2/pi) rd(w) cos(w t)] and of
    [(2/pi) rd(w) sin(w t)]. *)
Definition spec_K (rd irf_w : list F) (t : F) : F :=
  trapezoidal
    (fun k => (of_nat 2 / fpi * sample rd k * fcos (sample irf_w k * t))%fl) irf_w.
Definition spec_L (rd irf_w : list F) (t : F) : F :=
  trapezoidal
    (fun k => (of_nat 2 / fpi * sample rd k * fsin (sample irf_w k * t))%fl) irf_w.

(** [f(t)]: the quadrature of [(1/pi) (re(w) cos(w t) - im(w) sin(w t))]. *)
Definition spec_f (re im irf_w : list F) (t : F) : F :=
  trapezoidal
    (fun k => ((sample re k * fcos (sample irf_w k * t)
                - sample im k * fsin (sample irf_w k * t)) * (of_nat 1 / fpi))%fl)
    irf_w.

(** The grid and a slice sampled along it, put in ascending order: both
    reversed when the grid comes descending. *)
Definition descending_grid (w : list F) : bool :=
  match w with
  | w0 :: w1 :: _ => fgt w0 w1
  | _ => false
  end.
Definition ascending (w slice : list F) : list F * list F :=
  if descending_grid w then (flipud w, flipud slice) else (w, slice).

(** The piecewise-linear resampling of a slice on the grid [irf_w]. *)
Definition resample (w slice irf_w : list F) : result (list F) :=
  let '(x, y) := ascending w slice in
  f ← interp1d x y; f irf_w.
End SpecKernels.

(** * Reasoning about arrays and loops *)

(** [a[i,j]] and [a[i,j,k]] as partial lookups. *)
Definition lookup2 {A} (a : list (list A)) (i j : nat) : option A :=
  a !! i ≫= fun r => r !! j.
Definition lookup3 {A} (a : list (list (list A))) (i j k : nat) : option A :=
  lookup2 a i j ≫= fun r => r !! k.

Section ArrayLemmas.
Context {A : Type}.

Lemma getitem_OK (a : list A) i x : getitem a i = OK x <-> a !! i = Some x.
Proof. unfold getitem. destruct (a !! i); split; congruence. Qed.

Lemma getitem_Raise (a : list A) i e :
  getitem a i = Raise e -> e = IndexError /\ length a <= i.
Proof.
  unfold getitem. destruct (a !! i) eqn:E; [discriminate|].
  intros [= <-]. split; [reflexivity|]. now apply lookup_ge_None.
Qed.

Lemma setitem_OK (a a' : list A) i x :
  setitem a i x = OK a' <-> i < length a /\ a' = <[i:=x]> a.
Proof.
  unfold setitem. destruct (decide _) as [Hi|Hi]; split.
  - intros [= <-]. split; [exact Hi|reflexivity].
  - intros [_ ->]. reflexivity.
  - discriminate.
  - intros [Hlt _]. contradiction.
Qed.

Lemma setitem_lookup (a a' : list A) i x i' :
  setitem a i x = OK a' ->
  a' !! i' = if decide (i' = i) then Some x else a !! i'.
Proof.
  intros [Hi ->]%setitem_OK. destruct (decide (i' = i)) as [->|Hne].
  - now apply list_lookup_insert_eq.
  - apply list_lookup_insert_ne. congruence.
Qed.

Lemma setitem_length (a a' : list A) i x :
  setitem a i x = OK a' -> length a' = length a.
Proof. intros [_ ->]%setitem_OK. apply length_insert. Qed.
End ArrayLemmas.

Section ArrayLemmas2.
Context {A : Type}.

Lemma getitem2_OK (a : list (list A)) i j x :
  getitem2 a i j = OK x <-> lookup2 a i j = Some x.
Proof.
  unfold getitem2, lookup2, getitem, mbind, result_bind, rbind.
  destruct (a !! i) as [r|]; simpl; [|split; discriminate].
  destruct (r !! j); split; congruence.
Qed.

Lemma setitem2_lookup (a a' : list (list A)) i j x i' j' :
  setitem2 a i j x = OK a' ->
  lookup2 a' i' j' =
    if decide (i' = i /\ j' = j) then Some x else lookup2 a i' j'.
Proof.
  unfold setitem2, mbind, result_bind, rbind.
  destruct (getitem a i) as [r|] eqn:Hr; [|discriminate].
  destruct (setitem r j x) as [r'|] eqn:Hr'; [|discriminate].
  intros Ha'. unfold lookup2.
  rewrite (setitem_lookup _ _ _ _ i' Ha'). apply getitem_OK in Hr.
  destruct (decide (i' = i)) as [->|Hne]; simpl.
  - rewrite (setitem_lookup _ _ _ _ j' Hr'), Hr. simpl.
    destruct (decide (j' = j)) as [->|Hj].
    + rewrite decide_True; [reflexivity|tauto].
    + rewrite decide_False; [reflexivity|tauto].
  - rewrite decide_False; [reflexivity|tauto].
Qed.

Lemma setitem2_shape (a a' : list (list A)) i j x :
  setitem2 a i j x = OK a' -> length a' = length a.
Proof.
  unfold setitem2, mbind, result_bind, rbind.
  destruct (getitem a i) as [r|]; [|discriminate].
  destruct (setitem r j x) as [r'|]; [|discriminate].
  apply setitem_length.
Qed.
End ArrayLemmas2.

Section ArrayLemmas3.
Context {A : Type}.

Lemma setitem3_lookup (a a' : list (list (list A))) i j k x i' j' k' :
  setitem3 a i j k x = OK a' ->
  lookup3 a' i' j' k' =
    if decide (i' = i /\ j' = j /\ k' = k) then Some x else lookup3 a i' j' k'.
Proof.
  unfold setitem3, mbind, result_bind, rbind.
  destruct (getitem2 a i j) as [r|] eqn:Hr; [|discriminate].
  destruct (setitem r k x) as [r'|] eqn:Hr'; [|discriminate].
  intros Ha'. unfold lookup3.
  rewrite (setitem2_lookup _ _ _ _ _ i' j' Ha'). apply getitem2_OK in Hr.
  destruct (decide (i' = i /\ j' = j)) as [[-> ->]|Hne]; simpl.
  - rewrite (setitem_lookup _ _ _ _ k' Hr'), Hr. simpl.
    destruct (decide (k' = k)) as [->|Hk].
    + rewrite decide_True; [reflexivity|tauto].
    + rewrite decide_False; [reflexivity|tauto].
  - rewrite decide_False; [reflexivity|tauto].
Qed.
End ArrayLemmas3.

Section LoopLemmas.
Context {S X K V : Type}.

Lemma try_update_OK (g : S -> result S) (s s' : S) :
  try_update g s = (s', OK tt) <-> g s = OK s'.
Proof.
  unfold try_update. destruct (g s); split; intros [=]; subst; reflexivity.
Qed.

(** A loop whose passes each write the entries [keys x] of the state, the
    entry [k] always with [val k], tabulates [val] on the keys of all its
    passes and leaves the other entries alone. *)
Lemma for_tabulates (rd : S -> K -> option V) (val : K -> V)
    (keys : X -> K -> bool) (body : X -> S -> S * result unit) (xs : list X) :
  (forall x s s', x ∈ xs -> body x s = (s', OK tt) ->
     forall k, rd s' k = if keys x k then Some (val k) else rd s k) ->
  forall s s', for_ xs body s = (s', OK tt) ->
     forall k, rd s' k =
       if existsb (fun x => keys x k) xs then Some (val k) else rd s k.
Proof.
  induction xs as [|x xs IH]; intros Hbody s s'; simpl.
  - intros [= <-] k. reflexivity.
  - destruct (body x s) as [s1 [[]|e]] eqn:Hx; [|discriminate].
    intros Hrest k.
    rewrite (IH (fun y s s' Hy => Hbody y s s' (list_elem_of_further _ _ _ Hy))
               _ _ Hrest k).
    rewrite (Hbody x s s1 (list_elem_of_here _ _) Hx k).
    destruct (keys x k), (existsb _ xs); reflexivity.
Qed.
End LoopLemmas.

(** ** Quadrature *)

Section Quadrature.
Context {F : Type} `{Scalar F}.

Lemma sample_lookup (a : list F) k x : a !! k = Some x -> sample a k = x.
Proof. unfold sample. now intros ->. Qed.

Lemma lookup_tail {A} (a : list A) k : tail a !! k = a !! S k.
Proof. destruct a; reflexivity. Qed.

Lemma lookup_sample (a : list F) k : k < length a -> a !! k = Some (sample a k).
Proof.
  intros Hk. destruct (lookup_lt_is_Some_2 a k Hk) as [x Hx].
  now rewrite (sample_lookup _ _ _ Hx).
Qed.

(** The vectorised [np.trapz] is the trapezoidal rule. *)
Lemma trapz_trapezoidal (y x : list F) :
  length y = length x -> trapz y x = trapezoidal (sample y) x.
Proof.
  intros Hlen. unfold trapz, trapezoidal, diff. f_equal.
  apply list_eq. intros k.
  rewrite !lookup_zip_with, !lookup_tail, list_lookup_fmap.
  destruct (decide (S k < length x)) as [Hk|Hk].
  - rewrite (lookup_sample x k), (lookup_sample x (S k)) by lia.
    rewrite (lookup_sample y k), (lookup_sample y (S k)) by lia.
    rewrite (proj2 (lookup_seq 0 (length x - 1) k k)) by (split; lia).
    reflexivity.
  - rewrite (proj2 (lookup_ge_None x (S k))) by lia.
    rewrite (proj2 (lookup_ge_None (seq 0 (length x - 1)) k))
      by (rewrite length_seq; lia).
    destruct (x !! k); reflexivity.
Qed.

Lemma trapezoidal_ext (g g' : nat -> F) (x : list F) :
  (forall k, k < length x -> g k = g' k) -> trapezoidal g x = trapezoidal g' x.
Proof.
  intros Hg. unfold trapezoidal. f_equal. apply list_fmap_ext.
  intros i k [-> Hi]%lookup_seq. rewrite !Hg by lia. reflexivity.
Qed.

Lemma radiation_integrand_length trig (rd irf_w : list F) t :
  length rd = length irf_w ->
  length (radiation_integrand trig rd irf_w t) = length irf_w.
Proof.
  intros Hlen. unfold radiation_integrand, vmul.
  rewrite length_zip_with, !length_fmap. lia.
Qed.

Lemma radiation_integrand_sample trig (rd irf_w : list F) t k :
  length rd = length irf_w -> k < length irf_w ->
  sample (radiation_integrand trig rd irf_w t) k =
  (of_nat 2 / fpi * sample rd k * trig (sample irf_w k * t))%fl.
Proof.
  intros Hlen Hk. apply sample_lookup. unfold radiation_integrand, vmul.
  rewrite lookup_zip_with, !list_lookup_fmap.
  rewrite (lookup_sample rd k), (lookup_sample irf_w k) by lia. reflexivity.
Qed.

Lemma excitation_integrand_length (re im irf_w : list F) t :
  length re = length irf_w -> length im = length irf_w ->
  length (excitation_integrand re im irf_w t) = length irf_w.
Proof.
  intros Hre Him. unfold excitation_integrand, vsub, vmul.
  rewrite length_fmap, !length_zip_with, !length_fmap. lia.
Qed.

Lemma excitation_integrand_sample (re im irf_w : list F) t k :
  length re = length irf_w -> length im = length irf_w -> k < length irf_w ->
  sample (excitation_integrand re im irf_w t) k =
  ((sample re k * fcos (sample irf_w k * t)
    - sample im k * fsin (sample irf_w k * t)) * (of_nat 1 / fpi))%fl.
Proof.
  intros Hre Him Hk. apply sample_lookup. unfold excitation_integrand, vsub, vmul.
  rewrite list_lookup_fmap, !lookup_zip_with, !list_lookup_fmap.
  rewrite (lookup_sample re k), (lookup_sample im k), (lookup_sample irf_w k) by lia.
  reflexivity.
Qed.

(** [np.linspace] gives [num] samples, the last of which is [stop]. *)
Lemma linspace_length (start stop : F) num : length (linspace start stop num) = num.
Proof.
  destruct num as [|[|n]]; simpl; try reflexivity.
  rewrite length_app, length_fmap, length_seq. simpl. lia.
Qed.

Lemma linspace_last (start stop : F) num :
  2 <= num -> linspace start stop num !! (num - 1) = Some stop.
Proof.
  intros Hn. destruct num as [|[|n]]; try lia.
  unfold linspace. rewrite lookup_app_r; rewrite length_fmap, length_seq; [|lia].
  replace (S (S n) - 1 - S n) with 0 by lia. reflexivity.
Qed.

Lemma linspace_lookup (start stop : F) num k :
  S k < num ->
  linspace start stop num !! k =
  Some (of_nat k * ((stop - start) / of_nat (num - 1)) + start)%fl.
Proof.
  intros Hk. destruct num as [|[|n]]; try lia.
  unfold linspace. rewrite lookup_app_l by (rewrite length_fmap, length_seq; lia).
  rewrite list_lookup_fmap.
  rewrite (proj2 (lookup_seq 0 (S n) k k)) by (split; lia).
  simpl. repeat f_equal.
Qed.

Lemma linspace_linearly_spaced (start stop : F) num :
  linearly_spaced start stop num (linspace start stop num).
Proof.
  split; [apply linspace_length|]. split; [now intros ->|].
  split; [apply linspace_last|]. intros k. apply linspace_lookup.
Qed.
End Quadrature.

Section MoreLoopLemmas.
Context {S X : Type}.

Lemma for_OK_each (body : X -> S -> S * result unit) (xs : list X) (s s' : S) :
  for_ xs body s = (s', OK tt) ->
  forall x, x ∈ xs -> exists s1 s2, body x s1 = (s2, OK tt).
Proof.
  revert s. induction xs as [|y xs IH]; intros s Hfor x Hx.
  - inversion Hx.
  - simpl in Hfor. destruct (body y s) as [s1 [[]|e]] eqn:Hy; [|discriminate].
    apply elem_of_cons in Hx as [->|Hx]; [eauto|]. eapply IH; eauto.
Qed.

Lemma existsb_intro (g : X -> bool) (xs : list X) (x : X) :
  x ∈ xs -> g x = true -> existsb g xs = true.
Proof.
  intros Hx Hg. apply existsb_exists. exists x. split; [|exact Hg].
  now apply list_elem_of_In.
Qed.
End MoreLoopLemmas.

Lemma elem_of_xrange (n i : nat) : i ∈ xrange n <-> i < n.
Proof. unfold xrange. rewrite elem_of_seq. lia. Qed.

Lemma elem_of_enumerate {A} (l : list A) (k : nat) (x : A) :
  (k, x) ∈ enumerate l <-> l !! k = Some x.
Proof.
  unfold enumerate. rewrite elem_of_lookup_imap. split.
  - intros (i & y & [= -> ->] & Hy). exact Hy.
  - intros Hx. eauto.
Qed.

(** ** The radiation impulse response *)

Section Radiation.
Context {F : Type} `{Scalar F} `{Library F}.

(** The value line 210 stores for the pair [(i, j)]. *)
Definition interp_radiation_value (self : HydrodynamicData F) (flip : bool)
    (w_tmp irf_w : list F) (i j : nat) : result (list F) :=
  rdTmp ←
    (if flip then flipud <$> getitem2 (rd_all self) i j
     else getitem2 (rd_all self) i j);
  f ← interp1d w_tmp rdTmp;
  f irf_w.

Lemma interp_radiation_ij_value self flip w_tmp irf_w i j rd_interp rd_interp' :
  interp_radiation_ij self flip w_tmp irf_w i j rd_interp = OK rd_interp' ->
  exists v, interp_radiation_value self flip w_tmp irf_w i j = OK v /\
            setitem2 rd_interp i j v = OK rd_interp'.
Proof.
  unfold interp_radiation_ij, interp_radiation_value, mbind, result_bind, rbind.
  destruct (if flip then _ else _) as [rdTmp|]; [|discriminate].
  destruct (interp1d w_tmp rdTmp) as [f|]; [|discriminate].
  destruct (f irf_w) as [v|]; [|discriminate]. eauto.
Qed.

(** The value the interpolation loop leaves at [(i, j)]. *)
Definition interp_radiation_entry (self : HydrodynamicData F) (flip : bool)
    (w_tmp irf_w : list F) (key : nat * nat) : list F :=
  match interp_radiation_value self flip w_tmp irf_w key.1 key.2 with
  | OK v => v
  | Raise _ => []
  end.

Lemma interp_radiation_row self flip w_tmp irf_w s1 i s s' :
  for_ (xrange s1)
    (fun j => try_update (interp_radiation_ij self flip w_tmp irf_w i j)) s
  = (s', OK tt) ->
  forall key : nat * nat,
    lookup2 s' key.1 key.2 =
    if existsb (fun j => bool_decide (key = (i, j))) (xrange s1)
    then Some (interp_radiation_entry self flip w_tmp irf_w key)
    else lookup2 s key.1 key.2.
Proof.
  apply (for_tabulates (fun s (key : nat * nat) => lookup2 s key.1 key.2)).
  intros j a a' _ Hj [i' j']. cbn [fst snd].
  apply try_update_OK, interp_radiation_ij_value in Hj as (v & Hv & Hset).
  rewrite (setitem2_lookup _ _ _ _ _ i' j' Hset).
  unfold interp_radiation_entry. cbn [fst snd].
  destruct (decide (i' = i /\ j' = j)) as [[-> ->]|Hne].
  - rewrite bool_decide_eq_true_2 by reflexivity. now rewrite Hv.
  - rewrite bool_decide_eq_false_2; [reflexivity|]. intros [= -> ->]. tauto.
Qed.

Lemma interp_radiation_OK self flip w_tmp irf_w rd_interp i j :
  interp_radiation self flip w_tmp irf_w = OK rd_interp ->
  i < shape0 (rd_all self) -> j < shape1 (rd_all self) ->
  exists v, interp_radiation_value self flip w_tmp irf_w i j = OK v /\
            lookup2 rd_interp i j = Some v.
Proof.
  unfold interp_radiation. set (s0 := shape0 (rd_all self)).
  set (s1 := shape1 (rd_all self)). set (z := zeros3 s0 s1 (length irf_w)).
  destruct (for_ _ _ z) as [acc [[]|e]] eqn:Hfor; [|discriminate].
  intros [= ->] Hi Hj.
  pose proof (for_tabulates
    (fun s (key : nat * nat) => lookup2 s key.1 key.2)
    (interp_radiation_entry self flip w_tmp irf_w)
    (fun i key => existsb (fun j => bool_decide (key = (i, j))) (xrange s1))
    _ (xrange s0)
    (fun x s s' _ => interp_radiation_row self flip w_tmp irf_w s1 x s s')
    _ _ Hfor (i, j)) as Htab.
  cbn [fst snd] in Htab.
  rewrite (existsb_intro _ _ i) in Htab;
    [|now apply elem_of_xrange
     |apply (existsb_intro _ _ j); [now apply elem_of_xrange|];
      now apply bool_decide_eq_true_2].
  destruct (for_OK_each _ _ _ _ Hfor i) as (a1 & a2 & Hin);
    [now apply elem_of_xrange|].
  destruct (for_OK_each _ _ _ _ Hin j) as (b1 & b2 & Hb);
    [now apply elem_of_xrange|].
  apply try_update_OK, interp_radiation_ij_value in Hb as (v & Hv & _).
  exists v. split; [exact Hv|]. rewrite Htab. unfold interp_radiation_entry.
  cbn [fst snd]. now rewrite Hv.
Qed.

(** The entry the quadrature loop leaves at [(i, j, k)] of [K] ([trig] the
    cosine) and of [L] (the sine). *)
Definition radiation_entry (trig : F -> F) (rd_interp : tensor3 F)
    (irf_t irf_w : list F) (key : nat * nat * nat) : F :=
  trapz (radiation_integrand trig (default [] (lookup2 rd_interp key.1.1 key.1.2))
           irf_w (sample irf_t key.2)) irf_w.

Definition pick (cosine : bool) (KL : tensor3 F * tensor3 F) : tensor3 F :=
  if cosine then KL.1 else KL.2.
Definition trig_of (cosine : bool) : F -> F := if cosine then fcos else fsin.

Definition lookup_key (a : tensor3 F) (key : nat * nat * nat) : option F :=
  lookup3 a key.1.1 key.1.2 key.2.

Lemma radiation_loop_j cosine rd_interp irf_t irf_w s1 k t i s s' :
  irf_t !! k = Some t ->
  for_ (xrange s1) (radiation_step rd_interp irf_w k t i) s = (s', OK tt) ->
  forall key,
    lookup_key (pick cosine s') key =
    if existsb (fun j => bool_decide (key = (i, j, k))) (xrange s1)
    then Some (radiation_entry (trig_of cosine) rd_interp irf_t irf_w key)
    else lookup_key (pick cosine s) key.
Proof.
  intros Ht.
  apply (for_tabulates (fun s key => lookup_key (pick cosine s) key)).
  intros j [K L] [K' L'] _ Hj [[i' j'] k']. unfold lookup_key. cbn [fst snd].
  unfold radiation_step in Hj.
  destruct (getitem2 rd_interp i j) as [rd_ij|] eqn:Hrd; [|discriminate].
  cbv zeta in Hj.
  destruct (setitem3 K i j k _) as [K1|] eqn:HK; [|discriminate].
  destruct (setitem3 L i j k _) as [L1|] eqn:HL; [|discriminate].
  injection Hj as <- <-. apply getitem2_OK in Hrd.
  assert (Hentry : forall trig,
    radiation_entry trig rd_interp irf_t irf_w (i, j, k) =
    trapz (radiation_integrand trig rd_ij irf_w t) irf_w).
  { intros trig. unfold radiation_entry. cbn [fst snd]. rewrite Hrd.
    now rewrite (sample_lookup _ _ _ Ht). }
  destruct cosine; cbn [pick trig_of fst snd].
  - rewrite (setitem3_lookup _ _ _ _ _ _ i' j' k' HK).
    destruct (decide (i' = i /\ j' = j /\ k' = k)) as [(-> & -> & ->)|Hne].
    + rewrite bool_decide_eq_true_2 by reflexivity. now rewrite Hentry.
    + rewrite bool_decide_eq_false_2; [reflexivity|]. intros [= -> -> ->]. tauto.
  - rewrite (setitem3_lookup _ _ _ _ _ _ i' j' k' HL).
    destruct (decide (i' = i /\ j' = j /\ k' = k)) as [(-> & -> & ->)|Hne].
    + rewrite bool_decide_eq_true_2 by reflexivity. now rewrite Hentry.
    + rewrite bool_decide_eq_false_2; [reflexivity|]. intros [= -> -> ->]. tauto.
Qed.

Lemma radiation_loop_i cosine rd_interp irf_t irf_w s0 s1 k t s s' :
  irf_t !! k = Some t ->
  for_ (xrange s0) (fun i =>
    for_ (xrange s1) (radiation_step rd_interp irf_w k t i)) s = (s', OK tt) ->
  forall key,
    lookup_key (pick cosine s') key =
    if existsb (fun i => existsb (fun j => bool_decide (key = (i, j, k)))
                           (xrange s1)) (xrange s0)
    then Some (radiation_entry (trig_of cosine) rd_interp irf_t irf_w key)
    else lookup_key (pick cosine s) key.
Proof.
  intros Ht.
  apply (for_tabulates (fun s key => lookup_key (pick cosine s) key)
           (radiation_entry (trig_of cosine) rd_interp irf_t irf_w)
           (fun i key => existsb (fun j => bool_decide (key = (i, j, k)))
                           (xrange s1))).
  intros i a a' _. now apply radiation_loop_j.
Qed.

Lemma radiation_loop_t cosine rd_interp irf_t irf_w s0 s1 s s' :
  radiation_loop s0 s1 rd_interp irf_t irf_w s = (s', OK tt) ->
  forall key,
    lookup_key (pick cosine s') key =
    if existsb (fun x : nat * F =>
         existsb (fun i => existsb (fun j => bool_decide (key = (i, j, x.1)))
                             (xrange s1)) (xrange s0)) (enumerate irf_t)
    then Some (radiation_entry (trig_of cosine) rd_interp irf_t irf_w key)
    else lookup_key (pick cosine s) key.
Proof.
  unfold radiation_loop.
  apply (for_tabulates (fun s key => lookup_key (pick cosine s) key)
           (radiation_entry (trig_of cosine) rd_interp irf_t irf_w)
           (fun (x : nat * F) key =>
              existsb (fun i => existsb (fun j => bool_decide (key = (i, j, x.1)))
                                  (xrange s1)) (xrange s0))).
  intros [k' t'] a a' Hx%elem_of_enumerate. cbn [fst].
  now apply radiation_loop_i.
Qed.

Lemma radiation_loop_OK cosine s0 s1 rd_interp irf_t irf_w KL KL' i j k :
  radiation_loop s0 s1 rd_interp irf_t irf_w KL = (KL', OK tt) ->
  i < s0 -> j < s1 -> k < length irf_t ->
  lookup_key (pick cosine KL') (i, j, k) =
  Some (radiation_entry (trig_of cosine) rd_interp irf_t irf_w (i, j, k)).
Proof.
  intros Hloop Hi Hj Hk.
  rewrite (radiation_loop_t cosine _ _ _ _ _ _ _ Hloop (i, j, k)).
  destruct (lookup_lt_is_Some_2 irf_t k Hk) as [t Ht].
  rewrite (existsb_intro _ _ (k, t)); [reflexivity|now apply elem_of_enumerate|].
  cbn [fst]. apply (existsb_intro _ _ i); [now apply elem_of_xrange|].
  apply (existsb_intro _ _ j); [now apply elem_of_xrange|].
  now apply bool_decide_eq_true_2.
Qed.

(** The code's normalisation of a descending grid is the specification's
    resampling. *)
Lemma interp_radiation_value_resample (self : HydrodynamicData F)
    (wgrid : list F) w0 w1 irf_w i j :
  getitem wgrid 0 = OK w0 -> getitem wgrid 1 = OK w1 ->
  interp_radiation_value self (fgt w0 w1)
    (if fgt w0 w1 then flipud wgrid else wgrid) irf_w i j =
  (slice ← getitem2 (rd_all self) i j; resample wgrid slice irf_w).
Proof.
  intros Hw0%getitem_OK Hw1%getitem_OK.
  unfold interp_radiation_value, resample, ascending, descending_grid.
  destruct wgrid as [|x [|y l]]; try discriminate.
  simpl in Hw0, Hw1. injection Hw0 as ->. injection Hw1 as ->.
  unfold mbind, result_bind, rbind, fmap, result_fmap, rbind.
  destruct (getitem2 (rd_all self) i j) as [slice|];
    destruct (fgt w0 w1); reflexivity.
Qed.

Lemma resample_length (wgrid slice irf_w rd : list F) :
  resample wgrid slice irf_w = OK rd -> length rd = length irf_w.
Proof.
  unfold resample. destruct (ascending wgrid slice) as [x y].
  unfold mbind, result_bind, rbind.
  destruct (interp1d x y) as [f|] eqn:Hf; [|discriminate].
  intros Hrd. exact (interp1d_length _ _ _ _ _ Hf Hrd).
Qed.

Lemma radiation_entry_spec trig (rd_interp : tensor3 F) irf_t irf_w i j k rd t :
  lookup2 rd_interp i j = Some rd -> length rd = length irf_w ->
  irf_t !! k = Some t ->
  radiation_entry trig rd_interp irf_t irf_w (i, j, k) =
  trapezoidal
    (fun n => (of_nat 2 / fpi * sample rd n * trig (sample irf_w n * t))%fl) irf_w.
Proof.
  intros Hrd Hlen Ht. unfold radiation_entry. cbn [fst snd].
  rewrite Hrd, (sample_lookup _ _ _ Ht). cbn [default].
  rewrite trapz_trapezoidal by now apply radiation_integrand_length.
  apply trapezoidal_ext. intros n Hn. now apply radiation_integrand_sample.
Qed.

(** C4. When [calc_irf_radiation] returns, the time grid is
    [np.linspace(0, t_end, n_t)] ([n_t] samples), the frequency grid is
    [np.linspace(min w, max w, n_w)], and for every [(i, j)] and every
    time sample [t] the entries [K[i,j,t]] and [L[i,j,t]] are the
    trapezoidal quadratures over the frequency grid of
    [(2/pi) rd(w) cos(w t)] and [(2/pi) rd(w) sin(w t)], where [rd] is the
    piecewise-linear resampling of [rd.all[i,j,:]]. *)
Theorem calc_irf_radiation_kernels
    (self self' : HydrodynamicData F) (t_end : F) (n_t n_w : nat) :
  calc_irf_radiation t_end n_t n_w self = (self', OK tt) ->
  exists lo hi K L,
    np_min (w self) = OK lo /\ np_max (w self) = OK hi /\
    let irf_t := linspace (of_nat 0) t_end n_t in
    let irf_w := linspace lo hi n_w in
    rd_irf self' =
      {| rd_irf_t := Some irf_t; rd_irf_w := Some irf_w;
         rd_irf_L := Some L; rd_irf_K := Some K |} /\
    linearly_spaced (of_nat 0) t_end n_t irf_t /\
    linearly_spaced lo hi n_w irf_w /\
    forall i j k t,
      i < shape0 (rd_all self) -> j < shape1 (rd_all self) ->
      irf_t !! k = Some t ->
      exists slice rd,
        getitem2 (rd_all self) i j = OK slice /\
        resample (w self) slice irf_w = OK rd /\
        lookup3 K i j k = Some (spec_K rd irf_w t) /\
        lookup3 L i j k = Some (spec_L rd irf_w t).
Proof.
  unfold calc_irf_radiation, mbind, M_bind, modify, get, lift,
    in_place_rd_irf_KL.
  cbn [rd_irf set_rd_irf_K set_rd_irf_L set_rd_irf_w set_rd_irf_t set_rd_irf
       rd_irf_K rd_irf_L rd_irf_t rd_irf_w w am_inf rd_all].
  destruct (np_min (w self)) as [lo|] eqn:Hlo; [|discriminate].
  destruct (np_max (w self)) as [hi|] eqn:Hhi; [|discriminate].
  destruct (getitem (w self) 0) as [w0|] eqn:Hw0; [|discriminate].
  destruct (getitem (w self) 1) as [w1|] eqn:Hw1; [|discriminate].
  set (irf_t := linspace (of_nat 0) t_end n_t).
  set (irf_w := linspace lo hi n_w).
  destruct (interp_radiation _ _ _ irf_w) as [rd_interp|] eqn:Hinterp;
    [|discriminate].
  destruct (radiation_loop _ _ rd_interp irf_t irf_w _) as [[K L] r] eqn:Hloop.
  intros [= <- ->]. exists lo, hi, K, L.
  split; [reflexivity|]. split; [reflexivity|]. cbv zeta.
  split; [reflexivity|].
  split; [apply linspace_linearly_spaced|].
  split; [apply linspace_linearly_spaced|].
  intros i j k t Hi Hj Ht.
  destruct (interp_radiation_OK _ _ _ _ _ i j Hinterp Hi Hj) as (rd & Hval & Hrd).
  rewrite (interp_radiation_value_resample (set_rd_irf_t irf_t self) (w self)
             w0 w1 irf_w i j Hw0 Hw1) in Hval.
  cbn [rd_all w set_rd_irf_t set_rd_irf] in Hval.
  unfold mbind, result_bind, rbind in Hval.
  destruct (getitem2 (rd_all self) i j) as [slice|]; [|discriminate].
  exists slice, rd. split; [reflexivity|]. split; [exact Hval|].
  pose proof (resample_length _ _ _ _ Hval) as Hlen.
  pose proof (lookup_lt_Some _ _ _ Ht) as Hk.
  split.
  - pose proof (radiation_loop_OK true _ _ _ _ _ _ _ i j k Hloop Hi Hj Hk) as HK.
    unfold lookup_key in HK. cbn [pick fst snd trig_of] in HK. rewrite HK.
    f_equal. now apply radiation_entry_spec.
  - pose proof (radiation_loop_OK false _ _ _ _ _ _ _ i j k Hloop Hi Hj Hk) as HL.
    unfold lookup_key in HL. cbn [pick fst snd trig_of] in HL. rewrite HL.
    f_equal. now apply radiation_entry_spec.
Qed.
End Radiation.

(** ** The excitation impulse response *)

Section Excitation.
Context {F : Type} `{Scalar F} `{Library F}.

(** The slice the code takes for the imaginary channel of [(i, j)]:
    [self.ex.im[i,j,:]] on line 147, but [self.rd.im[i,j,:]] on line 142,
    the branch of a descending grid. *)
Definition imaginary_slice (self : HydrodynamicData F) (flip : bool) (i j : nat)
  : result (list F) :=
  if flip then im ← getattr (rd_im self); getitem2 im i j
  else getitem2 (ex_im self) i j.

(** The values lines 152 and 153 store for the pair [(i, j)]. *)
Definition interp_excitation_re (self : HydrodynamicData F) (flip : bool)
    (w_tmp irf_w : list F) (i j : nat) : result (list F) :=
  slice ← getitem2 (ex_re self) i j;
  f ← interp1d w_tmp (if flip then flipud slice else slice);
  f irf_w.
Definition interp_excitation_im (self : HydrodynamicData F) (flip : bool)
    (w_tmp irf_w : list F) (i j : nat) : result (list F) :=
  slice ← imaginary_slice self flip i j;
  f ← interp1d w_tmp (if flip then flipud slice else slice);
  f irf_w.

Lemma interp_excitation_ij_value self flip w_tmp irf_w i j acc acc' :
  interp_excitation_ij self flip w_tmp irf_w i j acc = OK acc' ->
  exists v_re v_im,
    interp_excitation_re self flip w_tmp irf_w i j = OK v_re /\
    interp_excitation_im self flip w_tmp irf_w i j = OK v_im /\
    setitem2 acc.1 i j v_re = OK acc'.1 /\
    setitem2 acc.2 i j v_im = OK acc'.2.
Proof.
  destruct acc as [re im].
  unfold interp_excitation_ij, interp_excitation_re, interp_excitation_im,
    imaginary_slice, mbind, result_bind, rbind, fmap, result_fmap, rbind.
  destruct (getitem2 (ex_re self) i j) as [re_slice|], flip; try discriminate.
  - destruct (getattr (rd_im self)) as [rdim|]; [|discriminate].
    destruct (getitem2 rdim i j) as [im_slice|]; [|discriminate].
    destruct (interp1d w_tmp (flipud re_slice)) as [f_re|]; [|discriminate].
    destruct (interp1d w_tmp (flipud im_slice)) as [f_im|]; [|discriminate].
    destruct (f_re irf_w) as [v_re|]; [|discriminate].
    destruct (setitem2 re i j v_re) as [re'|] eqn:Hre; [|discriminate].
    destruct (f_im irf_w) as [v_im|]; [|discriminate].
    destruct (setitem2 im i j v_im) as [im'|] eqn:Him; [|discriminate].
    intros [= <-]. exists v_re, v_im. auto.
  - destruct (getitem2 (ex_im self) i j) as [im_slice|]; [|discriminate].
    destruct (interp1d w_tmp re_slice) as [f_re|]; [|discriminate].
    destruct (interp1d w_tmp im_slice) as [f_im|]; [|discriminate].
    destruct (f_re irf_w) as [v_re|]; [|discriminate].
    destruct (setitem2 re i j v_re) as [re'|] eqn:Hre; [|discriminate].
    destruct (f_im irf_w) as [v_im|]; [|discriminate].
    destruct (setitem2 im i j v_im) as [im'|] eqn:Him; [|discriminate].
    intros [= <-]. exists v_re, v_im. auto.
Qed.

(** The entries the interpolation loop leaves at [(i, j)]: of the real
    channel ([real = true]) and of the imaginary one. *)
Definition interp_excitation_entry (self : HydrodynamicData F) (flip : bool)
    (w_tmp irf_w : list F) (real : bool) (key : nat * nat) : list F :=
  match
    (if real then interp_excitation_re else interp_excitation_im)
      self flip w_tmp irf_w key.1 key.2
  with
  | OK v => v
  | Raise _ => []
  end.

Lemma interp_excitation_row real self flip w_tmp irf_w s1 i s s' :
  for_ (xrange s1)
    (fun j => try_update (interp_excitation_ij self flip w_tmp irf_w i j)) s
  = (s', OK tt) ->
  forall key : nat * nat,
    lookup2 (pick real s') key.1 key.2 =
    if existsb (fun j => bool_decide (key = (i, j))) (xrange s1)
    then Some (interp_excitation_entry self flip w_tmp irf_w real key)
    else lookup2 (pick real s) key.1 key.2.
Proof.
  apply (for_tabulates
           (fun s (key : nat * nat) => lookup2 (pick real s) key.1 key.2)).
  intros j a a' _ Hj [i' j']. cbn [fst snd].
  apply try_update_OK, interp_excitation_ij_value in Hj
    as (v_re & v_im & Hre & Him & Hset_re & Hset_im).
  unfold interp_excitation_entry. cbn [fst snd].
  destruct real; cbn [pick].
  - rewrite (setitem2_lookup _ _ _ _ _ i' j' Hset_re).
    destruct (decide (i' = i /\ j' = j)) as [[-> ->]|Hne].
    + rewrite bool_decide_eq_true_2 by reflexivity. now rewrite Hre.
    + rewrite bool_decide_eq_false_2; [reflexivity|]. intros [= -> ->]. tauto.
  - rewrite (setitem2_lookup _ _ _ _ _ i' j' Hset_im).
    destruct (decide (i' = i /\ j' = j)) as [[-> ->]|Hne].
    + rewrite bool_decide_eq_true_2 by reflexivity. now rewrite Him.
    + rewrite bool_decide_eq_false_2; [reflexivity|]. intros [= -> ->]. tauto.
Qed.

Lemma interp_excitation_rows real self flip w_tmp irf_w s0 s1 s s' :
  for_ (xrange s0) (fun i =>
    for_ (xrange s1)
      (fun j => try_update (interp_excitation_ij self flip w_tmp irf_w i j))) s
  = (s', OK tt) ->
  forall key : nat * nat,
    lookup2 (pick real s') key.1 key.2 =
    if existsb (fun i => existsb (fun j => bool_decide (key = (i, j)))
                           (xrange s1)) (xrange s0)
    then Some (interp_excitation_entry self flip w_tmp irf_w real key)
    else lookup2 (pick real s) key.1 key.2.
Proof.
  apply (for_tabulates
           (fun s (key : nat * nat) => lookup2 (pick real s) key.1 key.2)
           (interp_excitation_entry self flip w_tmp irf_w real)
           (fun i key => existsb (fun j => bool_decide (key = (i, j)))
                           (xrange s1))).
  intros i a a' _. apply interp_excitation_row.
Qed.

Lemma interp_excitation_OK self flip w_tmp irf_w interp i j :
  interp_excitation self flip w_tmp irf_w = OK interp ->
  i < shape0 (ex_mag self) -> j < shape1 (ex_mag self) ->
  exists v_re v_im,
    interp_excitation_re self flip w_tmp irf_w i j = OK v_re /\
    interp_excitation_im self flip w_tmp irf_w i j = OK v_im /\
    lookup2 interp.1 i j = Some v_re /\ lookup2 interp.2 i j = Some v_im.
Proof.
  unfold interp_excitation. set (s0 := shape0 (ex_mag self)).
  set (s1 := shape1 (ex_mag self)). set (z := zeros3 s0 s1 (length irf_w)).
  destruct (for_ _ _ (z, z)) as [acc [[]|e]] eqn:Hfor; [|discriminate].
  intros [= ->] Hi Hj.
  assert (Hkey : existsb (fun i' => existsb
            (fun j' => bool_decide ((i, j) = (i', j'))) (xrange s1)) (xrange s0)
          = true).
  { apply (existsb_intro _ _ i); [now apply elem_of_xrange|].
    apply (existsb_intro _ _ j); [now apply elem_of_xrange|].
    now apply bool_decide_eq_true_2. }
  pose proof (interp_excitation_rows true _ _ _ _ _ _ _ _ Hfor (i, j)) as Hre.
  pose proof (interp_excitation_rows false _ _ _ _ _ _ _ _ Hfor (i, j)) as Him.
  rewrite Hkey in Hre, Him. cbn [fst snd pick] in Hre, Him.
  destruct (for_OK_each _ _ _ _ Hfor i) as (a1 & a2 & Hin);
    [now apply elem_of_xrange|].
  destruct (for_OK_each _ _ _ _ Hin j) as (b1 & b2 & Hb);
    [now apply elem_of_xrange|].
  apply try_update_OK, interp_excitation_ij_value in Hb
    as (v_re & v_im & Hvre & Hvim & _).
  exists v_re, v_im. unfold interp_excitation_entry in Hre, Him.
  cbn [fst snd] in Hre, Him. rewrite Hvre in Hre. rewrite Hvim in Him. auto.
Qed.

(** The entry the quadrature loop leaves at [(i, j, k)] of [f]. *)
Definition excitation_entry (ex_re_interp ex_im_interp : tensor3 F)
    (irf_t irf_w : list F) (key : nat * nat * nat) : F :=
  trapz (excitation_integrand
           (default [] (lookup2 ex_re_interp key.1.1 key.1.2))
           (default [] (lookup2 ex_im_interp key.1.1 key.1.2))
           irf_w (sample irf_t key.2)) irf_w.

Lemma excitation_loop_j re_i im_i irf_t irf_w s1 k t i s s' :
  irf_t !! k = Some t ->
  for_ (xrange s1)
    (fun j => try_update (excitation_step re_i im_i irf_w k t i j)) s
  = (s', OK tt) ->
  forall key,
    lookup_key s' key =
    if existsb (fun j => bool_decide (key = (i, j, k))) (xrange s1)
    then Some (excitation_entry re_i im_i irf_t irf_w key)
    else lookup_key s key.
Proof.
  intros Ht. apply (for_tabulates (fun s key => lookup_key s key)).
  intros j a a' _ Hj%try_update_OK [[i' j'] k']. unfold lookup_key. cbn [fst snd].
  unfold excitation_step, mbind, result_bind, rbind in Hj.
  destruct (getitem2 re_i i j) as [re_ij|] eqn:Hre; [|discriminate].
  destruct (getitem2 im_i i j) as [im_ij|] eqn:Him; [|discriminate].
  apply getitem2_OK in Hre, Him.
  rewrite (setitem3_lookup _ _ _ _ _ _ i' j' k' Hj).
  destruct (decide (i' = i /\ j' = j /\ k' = k)) as [(-> & -> & ->)|Hne].
  - rewrite bool_decide_eq_true_2 by reflexivity. unfold excitation_entry.
    cbn [fst snd]. now rewrite Hre, Him, (sample_lookup _ _ _ Ht).
  - rewrite bool_decide_eq_false_2; [reflexivity|]. intros [= -> -> ->]. tauto.
Qed.

Lemma excitation_loop_i re_i im_i irf_t irf_w s0 s1 k t s s' :
  irf_t !! k = Some t ->
  for_ (xrange s0) (fun i =>
    for_ (xrange s1)
      (fun j => try_update (excitation_step re_i im_i irf_w k t i j))) s
  = (s', OK tt) ->
  forall key,
    lookup_key s' key =
    if existsb (fun i => existsb (fun j => bool_decide (key = (i, j, k)))
                           (xrange s1)) (xrange s0)
    then Some (excitation_entry re_i im_i irf_t irf_w key)
    else lookup_key s key.
Proof.
  intros Ht.
  apply (for_tabulates (fun s key => lookup_key s key)
           (excitation_entry re_i im_i irf_t irf_w)
           (fun i key => existsb (fun j => bool_decide (key = (i, j, k)))
                           (xrange s1))).
  intros i a a' _. now apply excitation_loop_j.
Qed.

Lemma excitation_loop_OK s0 s1 re_i im_i irf_t irf_w f f' i j k :
  excitation_loop s0 s1 re_i im_i irf_t irf_w f = (f', OK tt) ->
  i < s0 -> j < s1 -> k < length irf_t ->
  lookup3 f' i j k = Some (excitation_entry re_i im_i irf_t irf_w (i, j, k)).
Proof.
  intros Hloop Hi Hj Hk. unfold excitation_loop in Hloop.
  change (lookup3 f' i j k) with (lookup_key f' (i, j, k)).
  revert Hloop. intros Hloop.
  pose proof (for_tabulates (fun s key => lookup_key s key)
           (excitation_entry re_i im_i irf_t irf_w)
           (fun (x : nat * F) key =>
              existsb (fun i => existsb (fun j => bool_decide (key = (i, j, x.1)))
                                  (xrange s1)) (xrange s0))
           (fun '(t_ind, t) =>
              for_ (xrange s0) (fun i =>
                for_ (xrange s1) (fun j =>
                  try_update (excitation_step re_i im_i irf_w t_ind t i j))))
           (enumerate irf_t)) as Htab.
  rewrite (Htab
    ltac:(intros [k' t'] a a' Hx%elem_of_enumerate; cbn [fst];
          now apply excitation_loop_i) _ _ Hloop (i, j, k)).
  destruct (lookup_lt_is_Some_2 irf_t k Hk) as [t Ht].
  rewrite (existsb_intro _ _ (k, t)); [reflexivity|now apply elem_of_enumerate|].
  cbn [fst]. apply (existsb_intro _ _ i); [now apply elem_of_xrange|].
  apply (existsb_intro _ _ j); [now apply elem_of_xrange|].
  now apply bool_decide_eq_true_2.
Qed.

Lemma descending_grid_flip (wgrid : list F) w0 w1 :
  getitem wgrid 0 = OK w0 -> getitem wgrid 1 = OK w1 ->
  descending_grid wgrid = fgt w0 w1.
Proof.
  intros Hw0%getitem_OK Hw1%getitem_OK. destruct wgrid as [|x [|y l]]; try discriminate.
  simpl in Hw0, Hw1. injection Hw0 as ->. injection Hw1 as ->. reflexivity.
Qed.

Lemma interp_excitation_resample (wgrid slice irf_w : list F) :
  (f ← interp1d (if descending_grid wgrid then flipud wgrid else wgrid)
         (if descending_grid wgrid then flipud slice else slice);
   f irf_w) = resample wgrid slice irf_w.
Proof. unfold resample, ascending. destruct (descending_grid wgrid); reflexivity. Qed.

Lemma excitation_entry_spec (re_i im_i : tensor3 F) irf_t irf_w i j k re im t :
  lookup2 re_i i j = Some re -> lookup2 im_i i j = Some im ->
  length re = length irf_w -> length im = length irf_w ->
  irf_t !! k = Some t ->
  excitation_entry re_i im_i irf_t irf_w (i, j, k) = spec_f re im irf_w t.
Proof.
  intros Hre Him Hlre Hlim Ht. unfold excitation_entry, spec_f. cbn [fst snd].
  rewrite Hre, Him, (sample_lookup _ _ _ Ht). cbn [default].
  rewrite trapz_trapezoidal by now apply excitation_integrand_length.
  apply trapezoidal_ext. intros n Hn. now apply excitation_integrand_sample.
Qed.

(** What [calc_irf_excitation] computes when it returns: the time grid is
    [np.linspace(-t_length, t_length, n_t)], and [f[i,j,t]] is the
    trapezoidal quadrature of [(1/pi) (re(w) cos(w t) - im(w) sin(w t))]
    with [re] the resampling of [ex.re[i,j,:]] and [im] the resampling of
    the slice [imaginary_slice] takes: of [ex.im[i,j,:]] on an ascending
    grid, of [rd.im[i,j,:]] on a descending one. *)
Lemma calc_irf_excitation_kernel
    (self self' : HydrodynamicData F) (t_length : F) (n_t n_w : nat) :
  calc_irf_excitation t_length n_t n_w self = (self', OK tt) ->
  exists lo hi f,
    np_min (w self) = OK lo /\ np_max (w self) = OK hi /\
    let irf_t := linspace (- t_length)%fl t_length n_t in
    let irf_w := linspace lo hi n_w in
    ex_irf self' =
      {| ex_irf_t := Some irf_t; ex_irf_w := Some irf_w; ex_irf_f := Some f |} /\
    linearly_spaced (- t_length)%fl t_length n_t irf_t /\
    linearly_spaced lo hi n_w irf_w /\
    forall i j k t,
      i < shape0 (ex_mag self) -> j < shape1 (ex_mag self) ->
      irf_t !! k = Some t ->
      exists re_slice im_slice re im,
        getitem2 (ex_re self) i j = OK re_slice /\
        imaginary_slice self (descending_grid (w self)) i j = OK im_slice /\
        resample (w self) re_slice irf_w = OK re /\
        resample (w self) im_slice irf_w = OK im /\
        lookup3 f i j k = Some (spec_f re im irf_w t).
Proof.
  unfold calc_irf_excitation, mbind, M_bind, modify, get, lift,
    in_place_ex_irf_f.
  cbn [ex_irf set_ex_irf_f set_ex_irf_w set_ex_irf_t set_ex_irf
       ex_irf_f ex_irf_t ex_irf_w w ex_mag].
  destruct (np_min (w self)) as [lo|] eqn:Hlo; [|discriminate].
  destruct (np_max (w self)) as [hi|] eqn:Hhi; [|discriminate].
  destruct (getitem (w self) 0) as [w0|] eqn:Hw0; [|discriminate].
  destruct (getitem (w self) 1) as [w1|] eqn:Hw1; [|discriminate].
  set (irf_t := linspace (- t_length)%fl t_length n_t).
  set (irf_w := linspace lo hi n_w).
  destruct (interp_excitation _ _ _ irf_w) as [interp|] eqn:Hinterp;
    [|discriminate].
  destruct (excitation_loop _ _ _ _ irf_t irf_w _) as [f r] eqn:Hloop.
  intros [= <- ->]. exists lo, hi, f.
  split; [reflexivity|]. split; [reflexivity|]. cbv zeta.
  split; [reflexivity|].
  split; [apply linspace_linearly_spaced|].
  split; [apply linspace_linearly_spaced|].
  intros i j k t Hi Hj Ht.
  destruct (interp_excitation_OK _ _ _ _ _ i j Hinterp Hi Hj)
    as (re & im & Hvre & Hvim & Hre & Him).
  rewrite (descending_grid_flip _ _ _ Hw0 Hw1).
  unfold interp_excitation_re, interp_excitation_im in Hvre, Hvim.
  cbn [ex_re set_ex_irf_t set_ex_irf] in Hvre.
  assert (Hslice : imaginary_slice (set_ex_irf_t irf_t self) (fgt w0 w1) i j =
                   imaginary_slice self (fgt w0 w1) i j) by reflexivity.
  rewrite Hslice in Hvim. clear Hslice.
  unfold mbind at 1, result_bind, rbind in Hvre.
  unfold mbind at 1, result_bind, rbind in Hvim.
  destruct (getitem2 (ex_re self) i j) as [re_slice|]; [|discriminate].
  destruct (imaginary_slice self (fgt w0 w1) i j) as [im_slice|]; [|discriminate].
  rewrite <- (descending_grid_flip _ _ _ Hw0 Hw1) in Hvre, Hvim.
  rewrite interp_excitation_resample in Hvre, Hvim.
  exists re_slice, im_slice, re, im.
  repeat (split; [reflexivity || assumption|]).
  pose proof (lookup_lt_Some _ _ _ Ht) as Hk.
  rewrite (excitation_loop_OK _ _ _ _ _ _ _ _ i j k Hloop Hi Hj Hk).
  f_equal. apply excitation_entry_spec; try assumption.
  - exact (resample_length _ _ _ _ Hvre).
  - exact (resample_length _ _ _ _ Hvim).
Qed.

(** X17. On a grid that does not come descending (the branch of lines
    146-147) [calc_irf_excitation], when it returns, leaves the time grid
    [np.linspace(-t_length, t_length, n_t)] and in [f[i,j,t]] the
    trapezoidal quadrature of [(re(w) cos(w t) - im(w) sin(w t)) / pi], with
    [re] and [im] the interpolants of [ex.re[i,j,:]] and [ex.im[i,j,:]]. *)
Lemma calc_irf_excitation_kernel_ascending
    (self self' : HydrodynamicData F) (t_length : F) (n_t n_w : nat) :
  descending_grid (w self) = false ->
  calc_irf_excitation t_length n_t n_w self = (self', OK tt) ->
  exists lo hi f,
    np_min (w self) = OK lo /\ np_max (w self) = OK hi /\
    let irf_t := linspace (- t_length)%fl t_length n_t in
    let irf_w := linspace lo hi n_w in
    ex_irf self' =
      {| ex_irf_t := Some irf_t; ex_irf_w := Some irf_w; ex_irf_f := Some f |} /\
    linearly_spaced (- t_length)%fl t_length n_t irf_t /\
    linearly_spaced lo hi n_w irf_w /\
    forall i j k t,
      i < shape0 (ex_mag self) -> j < shape1 (ex_mag self) ->
      irf_t !! k = Some t ->
      exists re_slice im_slice re im,
        getitem2 (ex_re self) i j = OK re_slice /\
        getitem2 (ex_im self) i j = OK im_slice /\
        resample (w self) re_slice irf_w = OK re /\
        resample (w self) im_slice irf_w = OK im /\
        lookup3 f i j k = Some (spec_f re im irf_w t).
Proof.
  intros Hasc Hrun.
  destruct (calc_irf_excitation_kernel _ _ _ _ _ Hrun)
    as (lo & hi & f & Hlo & Hhi & Hirf & Ht & Hw & Hf).
  exists lo, hi, f. repeat (split; [assumption|]).
  intros i j k t Hi Hj Hk. rewrite Hasc in Hf. exact (Hf i j k t Hi Hj Hk).
Qed.
End Excitation.

(** ** Descending grids *)

Section DescendingGrid.
Context {F : Type} `{Scalar F} `{Library F}.

(** Every sample of the grid is greater than the next one. *)
Definition strictly_descending (wgrid : list F) : Prop :=
  forall k x y, wgrid !! k = Some x -> wgrid !! S k = Some y -> fgt x y = true.

(** Every slice [a[i,j,:]] reversed. *)
Definition flip_slices (a : tensor3 F) : tensor3 F :=
  (fun row : list (list F) => flipud <$> row) <$> a.

(** The equivalent store of a store: the grid and every slice sampled
    along it reversed. *)
Definition ascending_equivalent (self : HydrodynamicData F) : HydrodynamicData F :=
  {| w := flipud (w self); am_inf := am_inf self;
     rd_all := flip_slices (rd_all self);
     rd_im := flip_slices <$> rd_im self;
     ex_re := flip_slices (ex_re self); ex_im := flip_slices (ex_im self);
     ex_mag := flip_slices (ex_mag self);
     ex_irf := ex_irf self; rd_irf := rd_irf self; rd_ss := rd_ss self |}.

Lemma getitem2_flip_slices (a : tensor3 F) i j :
  getitem2 (flip_slices a) i j = flipud <$> getitem2 a i j.
Proof.
  unfold getitem2, getitem, flip_slices, mbind, result_bind, rbind, fmap at 3,
    result_fmap, rbind.
  rewrite list_lookup_fmap. destruct (a !! i) as [row|]; [|reflexivity]. simpl.
  rewrite list_lookup_fmap. destruct (row !! j); reflexivity.
Qed.

Lemma shape0_flip_slices (a : tensor3 F) : shape0 (flip_slices a) = shape0 a.
Proof. apply length_fmap. Qed.

Lemma shape1_flip_slices (a : tensor3 F) : shape1 (flip_slices a) = shape1 a.
Proof. destruct a; [reflexivity|apply length_fmap]. Qed.

Lemma for_ext {S X} (xs : list X) (body body' : X -> S -> S * result unit) s :
  (forall x s, body x s = body' x s) -> for_ xs body s = for_ xs body' s.
Proof.
  intros Hbody. revert s. induction xs as [|x xs IH]; intros s; [reflexivity|].
  simpl. rewrite Hbody. destruct (body' x s) as [s' [[]|e]]; [apply IH|reflexivity].
Qed.

(** Interpolating the reversed slices of a store is interpolating the
    slices of its equivalent. *)
Lemma interp_radiation_flip (self self' : HydrodynamicData F) w_tmp irf_w :
  rd_all self' = flip_slices (rd_all self) ->
  interp_radiation self true w_tmp irf_w = interp_radiation self' false w_tmp irf_w.
Proof.
  intros Hrd. unfold interp_radiation.
  rewrite Hrd, shape0_flip_slices, shape1_flip_slices.
  erewrite for_ext; [reflexivity|]. intros i s.
  apply for_ext. intros j s'. unfold try_update, interp_radiation_ij.
  now rewrite Hrd, getitem2_flip_slices.
Qed.

Section Reductions.
Variable f : F -> F -> F.
Hypothesis f_comm : forall x y, f x y = f y x.
Hypothesis f_assoc : forall x y z, f x (f y z) = f (f x y) z.

Lemma foldl_seed x z (a : list F) : foldl f (f x z) a = f x (foldl f z a).
Proof.
  revert z. induction a as [|y a IH]; intros z; [reflexivity|].
  simpl. now rewrite <- f_assoc, IH.
Qed.

Lemma foldl_reverse (l : list F) :
  match reverse l with [] => None | y :: b => Some (foldl f y b) end
  = match l with [] => None | x :: a => Some (foldl f x a) end.
Proof.
  induction l as [|x a IH]; [reflexivity|]. rewrite reverse_cons.
  destruct a as [|z a]; [reflexivity|].
  destruct (reverse (z :: a)) as [|y b]; [discriminate|].
  injection IH as IH. simpl. rewrite foldl_app. simpl.
  now rewrite IH, foldl_seed, f_comm.
Qed.
End Reductions.

Section Laws.
Hypothesis fgt_asym : forall x y : F, fgt x y = true -> fgt y x = false.
Hypothesis fmin_comm : forall x y : F, fmin x y = fmin y x.
Hypothesis fmin_assoc : forall x y z : F, fmin x (fmin y z) = fmin (fmin x y) z.
Hypothesis fmax_comm : forall x y : F, fmax x y = fmax y x.
Hypothesis fmax_assoc : forall x y z : F, fmax x (fmax y z) = fmax (fmax x y) z.

Lemma np_min_flipud (a : list F) : np_min (flipud a) = np_min a.
Proof.
  pose proof (foldl_reverse fmin fmin_comm fmin_assoc a) as Hrev.
  unfold np_min, flipud. destruct (reverse a), a; congruence.
Qed.

Lemma np_max_flipud (a : list F) : np_max (flipud a) = np_max a.
Proof.
  pose proof (foldl_reverse fmax fmax_comm fmax_assoc a) as Hrev.
  unfold np_max, flipud. destruct (reverse a), a; congruence.
Qed.

(** The first two samples of a strictly descending grid and of its
    reversal. *)
Lemma strictly_descending_ends (wgrid : list F) :
  2 <= length wgrid -> strictly_descending wgrid ->
  exists w0 w1 v0 v1,
    getitem wgrid 0 = OK w0 /\ getitem wgrid 1 = OK w1 /\ fgt w0 w1 = true /\
    getitem (flipud wgrid) 0 = OK v0 /\ getitem (flipud wgrid) 1 = OK v1 /\
    fgt v0 v1 = false.
Proof.
  intros Hlen Hdesc.
  destruct (lookup_lt_is_Some_2 wgrid 0) as [w0 Hw0]; [lia|].
  destruct (lookup_lt_is_Some_2 wgrid 1) as [w1 Hw1]; [lia|].
  destruct (lookup_lt_is_Some_2 wgrid (length wgrid - 2)) as [v1 Hv1]; [lia|].
  destruct (lookup_lt_is_Some_2 wgrid (length wgrid - 1)) as [v0 Hv0]; [lia|].
  exists w0, w1, v0, v1. unfold getitem, flipud.
  rewrite Hw0, Hw1, !reverse_lookup by lia.
  replace (length wgrid - 1) with (S (length wgrid - 2)) in * by lia.
  simpl. rewrite Hv0, Hv1. repeat split; eauto.
Qed.

(** The radiation half of the normalization: on a strictly descending
    grid [calc_irf_radiation] ends as it does on the equivalent store, and
    leaves the same [rd.irf]. *)
Lemma calc_irf_radiation_descending (self : HydrodynamicData F) t_end n_t n_w :
  2 <= length (w self) -> strictly_descending (w self) ->
  (calc_irf_radiation t_end n_t n_w self).2
  = (calc_irf_radiation t_end n_t n_w (ascending_equivalent self)).2 /\
  rd_irf (calc_irf_radiation t_end n_t n_w self).1
  = rd_irf (calc_irf_radiation t_end n_t n_w (ascending_equivalent self)).1.
Proof.
  intros Hlen Hdesc.
  destruct (strictly_descending_ends _ Hlen Hdesc)
    as (w0 & w1 & v0 & v1 & Hw0 & Hw1 & Hw & Hv0 & Hv1 & Hv).
  unfold calc_irf_radiation, mbind, M_bind, modify, get, lift,
    in_place_rd_irf_KL.
  cbn [rd_irf set_rd_irf_K set_rd_irf_L set_rd_irf_w set_rd_irf_t set_rd_irf
       rd_irf_K rd_irf_L rd_irf_t rd_irf_w w am_inf rd_all
       ascending_equivalent].
  rewrite np_min_flipud, np_max_flipud, Hw0, Hw1, Hv0, Hv1, Hw, Hv.
  rewrite shape0_flip_slices, shape1_flip_slices.
  destruct (np_min (w self)) as [lo|]; [|split; reflexivity].
  destruct (np_max (w self)) as [hi|]; [|split; reflexivity].
  rewrite (interp_radiation_flip
             (set_rd_irf_t (linspace (of_nat 0) t_end n_t) self)
             (set_rd_irf_t (linspace (of_nat 0) t_end n_t)
                (ascending_equivalent self))) by reflexivity.
  cbn [ascending_equivalent set_rd_irf_t set_rd_irf w am_inf rd_all rd_irf].
  destruct (interp_radiation _ _ _ _) as [rd_interp|]; [|split; reflexivity].
  destruct (radiation_loop _ _ _ _ _ _) as [[K L] r]. split; reflexivity.
Qed.
End Laws.

(** X18. On a descending grid the first slice makes
    [calc_irf_excitation] read [self.rd.im] (line 142), and without that
    attribute the method raises [AttributeError]. *)
Lemma calc_irf_excitation_descending_raises
    (self : HydrodynamicData F) t_length n_t n_w re_slice :
  descending_grid (w self) = true -> rd_im self = None ->
  0 < shape0 (ex_mag self) -> 0 < shape1 (ex_mag self) ->
  getitem2 (ex_re self) 0 0 = OK re_slice ->
  (calc_irf_excitation t_length n_t n_w self).2 = Raise AttributeError.
Proof.
  intros Hdesc Him Hs0 Hs1 Hre.
  unfold calc_irf_excitation, mbind, M_bind, modify, get, lift.
  cbn [ex_irf set_ex_irf_f set_ex_irf_w set_ex_irf_t set_ex_irf
       ex_irf_f ex_irf_t ex_irf_w w ex_mag].
  destruct (w self) as [|w0 [|w1 l]] eqn:Hgrid; try discriminate.
  simpl in Hdesc. cbn [np_min np_max getitem lookup list_lookup]. simpl.
  rewrite Hdesc. unfold interp_excitation.
  cbn [ex_mag set_ex_irf_f set_ex_irf_w set_ex_irf_t set_ex_irf].
  destruct (shape0 (ex_mag self)) as [|s0]; [lia|].
  destruct (shape1 (ex_mag self)) as [|s1]; [lia|].
  unfold xrange. simpl seq. cbn [for_].
  unfold try_update at 1, interp_excitation_ij at 1.
  cbn [ex_re rd_im set_ex_irf_f set_ex_irf_w set_ex_irf_t set_ex_irf].
  rewrite Hre, Him. reflexivity.
Qed.
End DescendingGrid.

(** ** Shapes *)

Section Shapes.
Context {F : Type} `{Scalar F}.

Lemma mapM_result_Forall2 {A B} (g : A -> result B) (xs : list A) (ys : list B) :
  mapM g xs = OK ys -> Forall2 (fun x y => g x = OK y) xs ys.
Proof.
  revert ys. induction xs as [|x xs IH]; intros ys; simpl.
  - intros [= <-]. constructor.
  - destruct (g x) as [y|e] eqn:Hy; simpl; [|discriminate].
    destruct (mapM g xs) as [ys'|e]; simpl; [|discriminate].
    intros [= <-]. constructor; [exact Hy|]. now apply IH.
Qed.

Lemma mapM_result_total {A B} (g : A -> B) (xs : list A) :
  mapM (fun x => OK (g x)) xs = OK (g <$> xs).
Proof.
  induction xs as [|x xs IH]; simpl; [reflexivity|]. rewrite IH. reflexivity.
Qed.

Lemma has_shape_shape1 n m (a : matrix F) :
  has_shape n m a -> 1 <= n -> shape1 a = m.
Proof.
  intros [Hn Hm] Hpos. destruct a as [|r a]; simpl in *; [lia|].
  now inversion Hm.
Qed.

Lemma has_shape_lookup n m (a : matrix F) i r :
  has_shape n m a -> a !! i = Some r -> length r = m.
Proof.
  intros [_ Hm] Hr. rewrite Forall_forall in Hm. apply Hm.
  eapply list_elem_of_lookup_2. exact Hr.
Qed.

Lemma has_shape_mmap n m (g : F -> F) (a : matrix F) :
  has_shape n m a -> has_shape n m (mmap g a).
Proof.
  intros [Hn Hm]. split; unfold mmap; [now rewrite length_fmap|].
  apply Forall_fmap. eapply Forall_impl; [exact Hm|].
  intros r Hr. simpl. now rewrite length_fmap.
Qed.

Lemma has_shape_eye n : has_shape n n (eye n).
Proof.
  split; unfold eye; [now rewrite length_fmap, length_seq|].
  apply Forall_fmap, Forall_forall. intros i _. simpl.
  now rewrite length_fmap, length_seq.
Qed.

Lemma has_shape_zeros2 n m : has_shape n m (zeros2 n m).
Proof.
  split; unfold zeros2; [apply length_replicate|].
  apply Forall_replicate. apply length_replicate.
Qed.

Lemma has_shape_hankel (c : list F) : has_shape (length c) (length c) (hankel c).
Proof.
  split; unfold hankel; [now rewrite length_fmap, length_seq|].
  apply Forall_fmap, Forall_forall. intros i Hi%elem_of_seq. simpl.
  unfold zeros. rewrite length_app, length_drop, length_replicate. lia.
Qed.

Lemma has_shape_transpose n m (a : matrix F) :
  has_shape n m a -> 1 <= n -> has_shape m n (transpose a).
Proof.
  intros Ha Hpos. unfold transpose. rewrite (has_shape_shape1 _ _ _ Ha Hpos).
  destruct Ha as [Hn _]. split; [now rewrite length_fmap, length_seq|].
  apply Forall_fmap, Forall_forall. intros j _. simpl. unfold col.
  now rewrite length_fmap.
Qed.

Lemma has_shape_slice2 n m (a : matrix F) r0 r1 c :
  has_shape n m a -> has_shape (min r1 n - r0) (min c m) (slice2 a r0 r1 c).
Proof.
  intros [Hn Hm]. unfold slice2. split.
  - rewrite length_fmap, length_drop, length_take. lia.
  - apply Forall_fmap. apply Forall_drop, Forall_take.
    eapply Forall_impl; [exact Hm|]. intros r Hr. unfold compose.
    rewrite length_take, Hr. reflexivity.
Qed.

Lemma has_shape_matmul n (a b : matrix F) :
  length a = n -> has_shape n (shape1 b) (matmul a b).
Proof.
  intros Hn. unfold matmul. split; [now rewrite length_fmap|].
  apply Forall_fmap, Forall_forall. intros r _. simpl.
  now rewrite length_fmap, length_seq.
Qed.

Lemma dot_shape (a b c : matrix F) :
  dot a b = OK c -> shape1 a = shape0 b /\ has_shape (length a) (shape1 b) c.
Proof.
  unfold dot. destruct (decide _) as [Heq|]; [|discriminate].
  intros [= <-]. split; [exact Heq|]. now apply has_shape_matmul.
Qed.

Lemma reshape_col_shape (v : list F) n c :
  reshape_col v n = OK c -> length v = n /\ has_shape n 1 c.
Proof.
  unfold reshape_col. destruct (decide _) as [Heq|]; [|discriminate].
  intros [= <-]. split; [exact Heq|]. split; [now rewrite length_fmap|].
  apply Forall_fmap, Forall_forall. intros x _. reflexivity.
Qed.

Lemma reshape_row_shape (v : list F) n c :
  reshape_row v n = OK c -> length v = n /\ has_shape 1 n c.
Proof.
  unfold reshape_row. destruct (decide _) as [Heq|]; [|discriminate].
  intros [= <-]. split; [exact Heq|]. split; [reflexivity|].
  constructor; [exact Heq|constructor].
Qed.

(** Broadcasting arrays of one shape pairs their entries up. *)
Lemma broadcast1_same (g : F -> F -> F) (a b : list F) :
  length a = length b -> broadcast1 g a b = OK (zip_with g a b).
Proof.
  intros Hlen. unfold broadcast1, broadcast. rewrite decide_True by exact Hlen.
  rewrite (mapM_result_total (fun p => g p.1 p.2)). f_equal.
  clear Hlen. revert b. induction a as [|x a IH]; intros [|y b]; simpl; f_equal.
  apply IH.
Qed.

Lemma broadcast2_shape (g : F -> F -> F) n m (a b c : matrix F) :
  has_shape n m a -> has_shape n m b -> broadcast2 g a b = OK c ->
  has_shape n m c.
Proof.
  intros [Han Ham] [Hbn Hbm]. unfold broadcast2, broadcast.
  rewrite decide_True by congruence. intros Hc.
  pose proof (mapM_result_length _ _ _ Hc) as Hlen.
  apply mapM_result_Forall2 in Hc. split.
  - rewrite Hlen, length_zip. lia.
  - apply Forall_forall. intros r Hr.
    apply list_elem_of_lookup in Hr as [i Hi].
    destruct (Forall2_lookup_r _ _ _ _ _ Hc Hi) as ([ra rb] & Hp & Hg).
    apply lookup_zip_with_Some in Hp as (x & y & Heq & Hx & Hy).
    injection Heq as -> ->.
    cbn [fst snd] in Hg.
    assert (Hla : length x = m).
    { rewrite Forall_forall in Ham. apply Ham.
      eapply list_elem_of_lookup_2; eauto. }
    assert (Hlb : length y = m).
    { rewrite Forall_forall in Hbm. apply Hbm.
      eapply list_elem_of_lookup_2; eauto. }
    rewrite broadcast1_same in Hg by congruence. injection Hg as <-.
    rewrite length_zip_with. lia.
Qed.
End Shapes.

Section RealizationShapes.
Context {F : Type} `{Scalar F} `{Library F}.

(** A discrete realization of order [ss] needs [ss] singular values, and
    the Hankel matrix of a kernel of [n + 1] samples has [n]. *)
Lemma discrete_realization_order (K_ij : list F) dt numFreq ss abcd :
  discrete_realization K_ij dt numFreq ss = OK abcd -> ss <= length K_ij - 1.
Proof.
  unfold discrete_realization, mbind, result_bind, rbind.
  destruct (svd _) as [[[u svh] v]|] eqn:Hsvd; [|discriminate].
  destruct (reshape_col (take ss svh) ss) as [sq|] eqn:Hsq; [|discriminate].
  intros _. apply reshape_col_shape in Hsq as [Hlen _].
  destruct (svd_shape _ _ _ _ _ (has_shape_hankel _) Hsvd) as (_ & Hs & _).
  rewrite length_take, Hs, length_drop, length_fmap in Hlen. lia.
Qed.

Lemma discrete_realization_shape (K_ij : list F) dt numFreq ss a b c d :
  3 <= numFreq -> 1 <= ss ->
  discrete_realization K_ij dt numFreq ss = OK (a, b, c, d) ->
  has_shape ss ss a /\ has_shape ss 1 b /\ has_shape 1 ss c.
Proof.
  intros Hfreq Hss Hreal.
  pose proof (discrete_realization_order _ _ _ _ _ Hreal) as Hord.
  revert Hreal. unfold discrete_realization, mbind, result_bind, rbind.
  set (n := length K_ij - 1) in *.
  destruct (svd _) as [[[u svh] v]|] eqn:Hsvd; [|discriminate].
  assert (Hh : has_shape n n (hankel (drop 1 (fmul dt <$> K_ij)))).
  { pose proof (has_shape_hankel (drop 1 (fmul dt <$> K_ij))) as Hh.
    rewrite length_drop, length_fmap in Hh. exact Hh. }
  destruct (svd_shape _ _ _ _ _ Hh Hsvd) as (Hu & Hs & Hv).
  destruct (reshape_col (take ss svh) ss) as [sq|] eqn:Hsq; [|discriminate].
  apply reshape_col_shape in Hsq as [_ Hsq].
  pose proof (has_shape_mmap _ _ fsqrt _ Hsq) as Hsqs.
  set (sqs := mmap fsqrt sq) in *.
  pose proof (has_shape_mmap _ _ (fun x => (of_nat 1 / x)%fl) _ Hsqs) as Hinvss.
  pose proof (has_shape_transpose _ _ _ Hsqs Hss) as HsqsT.
  pose proof (has_shape_slice2 _ _ _ 0 (numFreq - 2) ss Hu) as Hu1.
  pose proof (has_shape_slice2 _ _ _ 1 (numFreq - 1) ss Hu) as Hu2.
  pose proof (has_shape_slice2 _ _ _ 0 (numFreq - 2) ss
                (has_shape_transpose _ _ _ Hv ltac:(lia))) as Hv1.
  replace (min ss n) with ss in Hu1, Hu2, Hv1 by lia.
  set (u1 := slice2 u 0 (numFreq - 2) ss) in *.
  set (u2 := slice2 u 1 (numFreq - 1) ss) in *.
  set (v1 := slice2 (transpose v) 0 (numFreq - 2) ss) in *.
  destruct (dot (transpose u1) u2) as [ubar|] eqn:Hubar; [|discriminate].
  apply dot_shape in Hubar as [Hinner Hubar].
  pose proof (has_shape_transpose _ _ _ Hu1 ltac:(lia)) as Hu1T.
  rewrite (has_shape_shape1 _ _ _ Hu1T Hss) in Hinner.
  rewrite (proj1 Hu1T) in Hubar.
  rewrite (has_shape_shape1 _ _ _ Hu2) in Hubar
    by (destruct Hu2 as [Hu2 _]; unfold shape0 in Hinner; lia).
  destruct (dot _ (transpose sqs)) as [scale|] eqn:Hscale; [|discriminate].
  apply dot_shape in Hscale as [_ Hscale].
  rewrite (proj1 Hinvss), (has_shape_shape1 _ _ _ HsqsT) in Hscale by lia.
  destruct (broadcast2 fmul ubar scale) as [a'|] eqn:Ha; [|discriminate].
  apply (broadcast2_shape _ _ _ _ _ _ Hubar Hscale) in Ha.
  destruct (getitem v1 0) as [v1_0|] eqn:Hv10; [|discriminate].
  destruct (reshape_col v1_0 ss) as [v1c|] eqn:Hv1c; [|discriminate].
  apply reshape_col_shape in Hv1c as [_ Hv1c].
  destruct (broadcast2 fmul v1c sqs) as [b'|] eqn:Hb; [|discriminate].
  apply (broadcast2_shape _ _ _ _ _ _ Hv1c Hsqs) in Hb.
  destruct (getitem u1 0) as [u1_0|] eqn:Hu10; [|discriminate].
  destruct (reshape_row u1_0 ss) as [u1r|] eqn:Hu1r; [|discriminate].
  apply reshape_row_shape in Hu1r as [_ Hu1r].
  destruct (broadcast2 fmul u1r (transpose sqs)) as [c'|] eqn:Hc; [|discriminate].
  apply (broadcast2_shape _ _ _ _ _ _ Hu1r HsqsT) in Hc.
  destruct (getitem (fmul dt <$> K_ij) 0) as [d'|]; [|discriminate].
  intros ?; simplify_eq. auto.
Qed.

Lemma bilinear_shape dt ss (a b c : matrix F) d ac bc cc dc :
  1 <= ss -> has_shape ss ss a -> has_shape ss 1 b -> has_shape 1 ss c ->
  bilinear dt ss a b c d = OK (ac, bc, cc, dc) ->
  has_shape ss ss ac /\ has_shape ss 1 bc /\ has_shape 1 ss cc /\
  has_shape 1 1 dc.
Proof.
  intros Hss Ha Hb Hc. unfold bilinear, mbind, result_bind, rbind.
  destruct (broadcast2 fsub _ _) as [m|] eqn:Hm; [|discriminate].
  apply (broadcast2_shape _ ss ss) in Hm;
    [|apply has_shape_mmap, has_shape_eye|now apply has_shape_mmap].
  destruct (inv m) as [iidd|] eqn:Hinv; [|discriminate].
  pose proof (inv_shape _ _ _ Hm Hinv) as Hiidd.
  destruct (broadcast2 fsub _ _) as [n|] eqn:Hn; [|discriminate].
  apply (broadcast2_shape _ ss ss) in Hn;
    [|now apply has_shape_mmap|apply has_shape_mmap, has_shape_eye].
  destruct (dot n iidd) as [ac'|] eqn:Hac; [|discriminate].
  apply dot_shape in Hac as [_ Hac].
  rewrite (proj1 Hn), (has_shape_shape1 _ _ _ Hiidd Hss) in Hac.
  destruct (dot iidd b) as [ib|] eqn:Hib; [|discriminate].
  apply dot_shape in Hib as [_ Hib].
  rewrite (proj1 Hiidd), (has_shape_shape1 _ _ _ Hb Hss) in Hib.
  destruct (dot c iidd) as [cc'|] eqn:Hcc; [|discriminate].
  apply dot_shape in Hcc as [_ Hcc].
  rewrite (proj1 Hc), (has_shape_shape1 _ _ _ Hiidd Hss) in Hcc.
  destruct (dot cc' b) as [cib|] eqn:Hcib; [|discriminate].
  apply dot_shape in Hcib as [_ Hcib].
  rewrite (proj1 Hcc), (has_shape_shape1 _ _ _ Hb Hss) in Hcib.
  intros ?; simplify_eq.
  split; [exact Hac|]. split; [now apply has_shape_mmap|].
  split; [exact Hcc|]. now apply has_shape_mmap.
Qed.

Lemma impulse_response_length (ac bc cc : matrix F) dt numFreq k :
  impulse_response ac bc cc dt numFreq = OK k -> length k = numFreq.
Proof.
  intros Hk%mapM_result_length. unfold xrange in Hk. now rewrite length_seq in Hk.
Qed.

(** One pass of the search: the order it can reach and the shapes of what
    it returns. *)
Lemma realization_at_order (K_ij : list F) dt numFreq r2bt ss r :
  realization_at K_ij dt numFreq r2bt ss = OK r -> ss <= length K_ij - 1.
Proof.
  unfold realization_at, mbind, result_bind, rbind.
  destruct (discrete_realization _ _ _ _) as [abcd|] eqn:Hd; [|discriminate].
  intros _. exact (discrete_realization_order _ _ _ _ _ Hd).
Qed.

Lemma realization_at_shape (K_ij : list F) dt numFreq r2bt ss r :
  3 <= numFreq -> 1 <= ss ->
  realization_at K_ij dt numFreq r2bt ss = OK r ->
  has_shape ss ss (ac r) /\ has_shape ss 1 (bc r) /\ has_shape 1 ss (cc r) /\
  has_shape 1 1 (dc r) /\ length (k_ss_est r) = numFreq.
Proof.
  intros Hfreq Hss. unfold realization_at, mbind, result_bind, rbind.
  destruct (discrete_realization _ _ _ _) as [[[[a b] c] d]|] eqn:Hd;
    [|discriminate].
  destruct (discrete_realization_shape _ _ _ _ _ _ _ _ Hfreq Hss Hd)
    as (Ha & Hb & Hc).
  destruct (bilinear _ _ _ _ _ _) as [[[[ac' bc'] cc'] dc']|] eqn:Hbil;
    [|discriminate].
  destruct (bilinear_shape _ _ _ _ _ _ _ _ _ _ Hss Ha Hb Hc Hbil)
    as (Hac & Hbc & Hcc & Hdc).
  destruct (impulse_response _ _ _ _ _) as [k|] eqn:Hk; [|discriminate].
  destruct (fit_quality _ _ _) as [q|]; [|discriminate].
  intros [= <-]. cbn [ac bc cc dc k_ss_est].
  split; [exact Hac|]. split; [exact Hbc|]. split; [exact Hcc|].
  split; [exact Hdc|]. exact (impulse_response_length _ _ _ _ _ _ Hk).
Qed.
(** The fit quality of a pass is [1 - (||K - k_ss_est|| / r2bt)^2]. *)
Lemma realization_at_R2T (K_ij : list F) dt numFreq r2bt ss r :
  realization_at K_ij dt numFreq r2bt ss = OK r ->
  exists err, broadcast1 fsub K_ij (k_ss_est r) = OK err /\
    R2T r = (of_nat 1 - (norm err / r2bt) * (norm err / r2bt))%fl.
Proof.
  unfold realization_at, mbind, result_bind, rbind.
  destruct (discrete_realization _ _ _ _) as [[[[a b] c] d]|]; [|discriminate].
  destruct (bilinear _ _ _ _ _ _) as [[[[ac' bc'] cc'] dc']|]; [|discriminate].
  destruct (impulse_response _ _ _ _ _) as [k|]; [|discriminate].
  unfold fit_quality, mbind, result_bind, rbind.
  destruct (broadcast1 fsub K_ij k) as [err|] eqn:Herr; [|discriminate].
  intros [= <-]. exists err. split; [exact Herr|reflexivity].
Qed.
End RealizationShapes.

(** ** The order search *)

Section OrderSearch.
Context {F : Type} `{Scalar F} `{Library F}.
Variables (K_ij : list F) (dt : F) (numFreq : nat) (r2bt : F)
  (max_order : nat) (r2_thresh : F).

Local Abbreviation pass := (realization_at K_ij dt numFreq r2bt).
Local Abbreviation search fuel :=
  (order_search fuel K_ij dt numFreq r2bt max_order r2_thresh).

(** The order [k] was tried and the loop went on: its fit missed the
    threshold and it was not the maximal order. *)
Definition passed_over (k : nat) : Prop :=
  exists r, pass k = OK r /\ fge (R2T r) r2_thresh = false /\ k <> max_order.

(** How the search started at [ss0] ended at [ss]. *)
Definition stops_at (ss : nat) (out : result (realization F * nat * nat)) : Prop :=
  match out with
  | Raise e => pass ss = Raise e
  | OK (r, status, order) =>
      order = ss /\ pass ss = OK r /\
      (status = 1 /\ fge (R2T r) r2_thresh = true \/
       status = 2 /\ fge (R2T r) r2_thresh = false /\ ss = max_order)
  end.

Lemma order_search_spec fuel ss0 out :
  search fuel ss0 = Some out ->
  exists ss, ss0 <= ss < ss0 + fuel /\
    (forall k, ss0 <= k < ss -> passed_over k) /\ stops_at ss out.
Proof.
  revert ss0. induction fuel as [|fuel IH]; intros ss0; simpl; [discriminate|].
  destruct (pass ss0) as [r|e] eqn:Hpass.
  - destruct (fge (R2T r) r2_thresh) eqn:Hfit.
    + intros [= <-]. exists ss0. split; [lia|]. split; [intros k; lia|].
      simpl. auto.
    + destruct (decide (ss0 = max_order)) as [Hmax|Hmax].
      * intros [= <-]. exists ss0. split; [lia|]. split; [intros k; lia|].
        simpl. auto 6.
      * intros Hrest. destruct (IH _ Hrest) as (ss & Hss & Hbefore & Hstop).
        exists ss. split; [lia|]. split; [|exact Hstop].
        intros k Hk. destruct (decide (k = ss0)) as [->|Hne].
        -- exists r. auto.
        -- apply Hbefore. lia.
  - intros [= <-]. exists ss0. split; [lia|]. split; [intros k; lia|].
    exact Hpass.
Qed.

(** The loop ends once the maximal order lies ahead and the fuel reaches
    it. *)
Lemma order_search_reaches_max_order fuel ss0 :
  ss0 <= max_order -> max_order - ss0 < fuel -> is_Some (search fuel ss0).
Proof.
  revert ss0. induction fuel as [|fuel IH]; intros ss0 Hle Hfuel; [lia|].
  simpl. destruct (pass ss0) as [r|e]; [|eauto].
  destruct (fge (R2T r) r2_thresh); [eauto|].
  destruct (decide (ss0 = max_order)); [eauto|]. apply IH; lia.
Qed.

(** It also ends once the order outgrows the singular values of the
    Hankel matrix, where the pass raises. *)
Lemma order_search_reaches_rank fuel ss0 :
  length K_ij - 1 + 1 - ss0 < fuel -> is_Some (search fuel ss0).
Proof.
  revert ss0. induction fuel as [|fuel IH]; intros ss0 Hfuel; [lia|].
  simpl. destruct (pass ss0) as [r|e] eqn:Hpass; [|eauto].
  apply realization_at_order in Hpass.
  destruct (fge (R2T r) r2_thresh); [eauto|].
  destruct (decide (ss0 = max_order)); [eauto|]. apply IH; lia.
Qed.

(** An order the search passed over lies within the rank. *)
Lemma passed_over_rank k : passed_over k -> k <= length K_ij - 1.
Proof. intros (r & Hpass & _). exact (realization_at_order _ _ _ _ _ _ Hpass). Qed.

(** With no maximal order ahead and no order reaching the threshold,
    the loop is left by the exception of the first order that exceeds the
    number of singular values. *)
Lemma order_search_leaves_by_exception fuel :
  max_order < 2 -> 1 <= fuel -> length K_ij - 1 <= fuel ->
  (forall k r, pass k = OK r -> fge (R2T r) r2_thresh = false) ->
  exists e, search fuel 2 = Some (Raise e).
Proof.
  intros Hmax Hfuel Hrank Hmiss.
  destruct (order_search_reaches_rank fuel 2) as [out Hout]; [lia|].
  pose proof Hout as Hspec.
  apply order_search_spec in Hspec as (ss & Hss & Hbefore & Hstop).
  destruct out as [[[r status] order]|e]; [|eauto].
  destruct Hstop as (_ & Hpass & [[_ Hfit]|(_ & _ & Hmo)]); [|lia].
  rewrite (Hmiss _ _ Hpass) in Hfit. discriminate.
Qed.

(** The orders are tried one by one: once the orders from [ss0] up to
    [ss] have been passed over, the search is at the order [ss], one pass
    spent on each. *)
Lemma order_search_passed_over fuel ss0 ss :
  ss0 <= ss -> ss - ss0 <= fuel ->
  (forall k, ss0 <= k < ss -> passed_over k) ->
  search fuel ss0 = search (fuel - (ss - ss0)) ss.
Proof.
  revert ss0. induction fuel as [|fuel IH]; intros ss0 Hle Hfuel Hbefore.
  - assert (ss = ss0) as -> by lia. reflexivity.
  - destruct (decide (ss0 = ss)) as [->|Hne].
    { now replace (S fuel - (ss - ss)) with (S fuel) by lia. }
    destruct (Hbefore ss0) as (r & Hpass & Hfit & Hmax); [lia|].
    cbn [order_search]. rewrite Hpass, Hfit, decide_False by exact Hmax.
    rewrite (IH (ss0 + 1)); [f_equal; lia|lia|lia|].
    intros k Hk. apply Hbefore. lia.
Qed.

(** The search ends at the first order that is not passed over, with what
    that order decides. *)
Lemma order_search_stops fuel ss0 ss out :
  ss0 <= ss -> ss - ss0 < fuel ->
  (forall k, ss0 <= k < ss -> passed_over k) ->
  stops_at ss out -> search fuel ss0 = Some out.
Proof.
  intros Hle Hfuel Hbefore Hstop.
  rewrite (order_search_passed_over fuel ss0 ss) by (assumption || lia).
  destruct (fuel - (ss - ss0)) as [|fuel'] eqn:Hrest; [lia|].
  cbn [order_search]. destruct out as [[[r status] order]|e]; simpl in Hstop.
  - destruct Hstop as (-> & -> & [[-> ->]|(-> & -> & Hmax)]); [reflexivity|].
    now rewrite decide_True.
  - now rewrite Hstop.
Qed.

(** Whatever the search returns, it stopped at an order that is at least
    any order up to which the orders were passed over. *)
Lemma order_search_not_before fuel ss r status order :
  (forall k, 2 <= k < ss -> passed_over k) ->
  search fuel 2 = Some (OK (r, status, order)) -> ss <= order.
Proof.
  intros Hbefore (ss' & Hss & _ & -> & Hpass & Hstop)%order_search_spec.
  destruct (decide (ss <= ss')) as [|Hlt]; [assumption|].
  destruct (Hbefore ss') as (r' & Hpass' & Hfit & Hmax); [lia|].
  rewrite Hpass in Hpass'. injection Hpass' as <-.
  destruct Hstop as [[_ Hyes]|(_ & _ & Heq)]; congruence.
Qed.

(** With the maximal order above the number of singular values, or below
    2, and no order reaching the threshold, the search is left by the
    exception of a pass: it stops with neither status. *)
Lemma order_search_raises_beyond_rank fuel :
  length K_ij - 1 < max_order \/ max_order < 2 ->
  1 <= fuel -> length K_ij - 1 <= fuel ->
  (forall k r, pass k = OK r -> fge (R2T r) r2_thresh = false) ->
  exists e, search fuel 2 = Some (Raise e).
Proof.
  intros Hmax Hfuel Hrank Hmiss.
  destruct (order_search_reaches_rank fuel 2) as [out Hout]; [lia|].
  pose proof Hout as Hspec.
  apply order_search_spec in Hspec as (ss & Hss & Hbefore & Hstop).
  destruct out as [[[r status] order]|e]; [|eauto].
  destruct Hstop as (_ & Hpass & [[_ Hfit]|(_ & _ & Hmo)]).
  - rewrite (Hmiss _ _ Hpass) in Hfit. discriminate.
  - apply realization_at_order in Hpass. lia.
Qed.

End OrderSearch.

(** ** What a pair holds in the store *)

(** The entries of the eight containers at one pair [(i, j)]. *)
Record pair_entries (F : Type) : Type := {
  e_A : matrix F;
  e_B : matrix F;
  e_C : matrix F;
  e_D : list F;
  e_irk_bss : list F;
  e_rad_conv : F;
  e_r2t : F;
  e_it : F
}.
Arguments e_A {F} _.
Arguments e_B {F} _.
Arguments e_C {F} _.
Arguments e_D {F} _.
Arguments e_irk_bss {F} _.
Arguments e_rad_conv {F} _.
Arguments e_r2t {F} _.
Arguments e_it {F} _.

Ltac ss_simpl :=
  cbn [ss_A ss_B ss_C ss_D ss_irk_bss ss_rad_conv ss_r2t ss_it
       set_ss_A set_ss_B set_ss_C set_ss_D set_ss_irk_bss set_ss_rad_conv
       set_ss_r2t set_ss_it] in *.

Section PairEntries.
Context {F : Type} `{Scalar F} `{Library F}.

Definition entries_at (s : StateSpaceRealization F) (i j : nat)
  : option (pair_entries F) :=
  A ← lookup2 (ss_A s) i j;
  B ← lookup2 (ss_B s) i j;
  C ← lookup2 (ss_C s) i j;
  D ← lookup2 (ss_D s) i j;
  irk ← lookup2 (ss_irk_bss s) i j;
  conv ← lookup2 (ss_rad_conv s) i j;
  r2t ← lookup2 (ss_r2t s) i j;
  it ← lookup2 (ss_it s) i j;
  Some {| e_A := A; e_B := B; e_C := C; e_D := D; e_irk_bss := irk;
          e_rad_conv := conv; e_r2t := r2t; e_it := it |}.

(** The entries of a pair nothing was written to. *)
Definition zero_entries (numFreq max_order : nat) : pair_entries F :=
  {| e_A := zeros2 max_order max_order; e_B := zeros2 max_order 1;
     e_C := zeros2 1 max_order; e_D := zeros 1; e_irk_bss := zeros numFreq;
     e_rad_conv := of_nat 0; e_r2t := of_nat 0; e_it := of_nat 0 |}.

(** Lines 328-335 on the entries of the pair. *)
Definition write_entries (r : realization F) (status ss : nat)
    (old : pair_entries F) : result (pair_entries F) :=
  A ← write_A r (e_A old);
  B ← write_B r (e_B old);
  C ← write_C r (e_C old);
  D ← write_D r (e_D old);
  OK {| e_A := A; e_B := B; e_C := C; e_D := D; e_irk_bss := k_ss_est r;
        e_rad_conv := of_nat status; e_r2t := R2T r; e_it := of_nat ss |}.

Lemma update2_lookup {A} (a a' : list (list A)) i j g :
  update2 a i j g = OK a' ->
  exists x x', lookup2 a i j = Some x /\ g x = OK x' /\
    forall i' j', lookup2 a' i' j' =
      if decide (i' = i /\ j' = j) then Some x' else lookup2 a i' j'.
Proof.
  unfold update2, mbind, result_bind, rbind.
  destruct (getitem2 a i j) as [x|] eqn:Hx; [|discriminate].
  destruct (g x) as [x'|] eqn:Hg; [|discriminate].
  intros Hset. exists x, x'. apply getitem2_OK in Hx.
  split; [exact Hx|]. split; [exact Hg|].
  intros i' j'. exact (setitem2_lookup _ _ _ _ _ i' j' Hset).
Qed.

Lemma setitem2_is_Some {A} (a a' : list (list A)) i j x :
  setitem2 a i j x = OK a' -> is_Some (lookup2 a i j).
Proof.
  unfold setitem2, mbind, result_bind, rbind, lookup2.
  destruct (getitem a i) as [r|] eqn:Hr; [|discriminate].
  apply getitem_OK in Hr. rewrite Hr. simpl.
  destruct (setitem r j x) as [r'|] eqn:Hr'; [|discriminate].
  apply setitem_OK in Hr' as [Hj _]. intros _.
  now apply lookup_lt_is_Some_2.
Qed.

(** The eight assignments change the entries of [(i, j)] as
    [write_entries] says, and the entries of no other pair. *)
Lemma record_pair_entries i j r status ss (s s' : StateSpaceRealization F) :
  for_ (record_pair i j r status ss) try_update s = (s', OK tt) ->
  exists old new,
    entries_at s i j = Some old /\
    write_entries r status ss old = OK new /\
    entries_at s' i j = Some new /\
    forall i' j', ~ (i' = i /\ j' = j) -> entries_at s' i' j' = entries_at s i' j'.
Proof.
  unfold record_pair, for_, try_update, mbind, result_bind, rbind.
  destruct (update2 (ss_A s) i j _) as [A'|] eqn:HA; [|discriminate]. ss_simpl.
  destruct (update2 (ss_B s) i j _) as [B'|] eqn:HB; [|discriminate]. ss_simpl.
  destruct (update2 (ss_C s) i j _) as [C'|] eqn:HC; [|discriminate]. ss_simpl.
  destruct (update2 (ss_D s) i j _) as [D'|] eqn:HD; [|discriminate]. ss_simpl.
  destruct (setitem2 (ss_irk_bss s) i j _) as [irk'|] eqn:Hirk; [|discriminate].
  ss_simpl.
  destruct (setitem2 (ss_rad_conv s) i j _) as [conv'|] eqn:Hconv; [|discriminate].
  ss_simpl.
  destruct (setitem2 (ss_r2t s) i j _) as [r2t'|] eqn:Hr2t; [|discriminate].
  ss_simpl.
  destruct (setitem2 (ss_it s) i j _) as [it'|] eqn:Hit; [|discriminate].
  intros [= <-].
  apply update2_lookup in HA as (A0 & A1 & HA0 & HA1 & HA).
  apply update2_lookup in HB as (B0 & B1 & HB0 & HB1 & HB).
  apply update2_lookup in HC as (C0 & C1 & HC0 & HC1 & HC).
  apply update2_lookup in HD as (D0 & D1 & HD0 & HD1 & HD).
  destruct (setitem2_is_Some _ _ _ _ _ Hirk) as [irk0 Hirk0].
  destruct (setitem2_is_Some _ _ _ _ _ Hconv) as [conv0 Hconv0].
  destruct (setitem2_is_Some _ _ _ _ _ Hr2t) as [r2t0 Hr2t0].
  destruct (setitem2_is_Some _ _ _ _ _ Hit) as [it0 Hit0].
  exists {| e_A := A0; e_B := B0; e_C := C0; e_D := D0; e_irk_bss := irk0;
            e_rad_conv := conv0; e_r2t := r2t0; e_it := it0 |}.
  exists {| e_A := A1; e_B := B1; e_C := C1; e_D := D1; e_irk_bss := k_ss_est r;
            e_rad_conv := of_nat status; e_r2t := R2T r; e_it := of_nat ss |}.
  split; [|split; [|split]].
  - unfold entries_at. rewrite HA0, HB0, HC0, HD0, Hirk0, Hconv0, Hr2t0, Hit0.
    reflexivity.
  - unfold write_entries, mbind, result_bind, rbind. cbn [e_A e_B e_C e_D].
    rewrite HA1, HB1, HC1, HD1. reflexivity.
  - unfold entries_at. ss_simpl.
    rewrite HA, HB, HC, HD.
    rewrite (setitem2_lookup _ _ _ _ _ i j Hirk),
      (setitem2_lookup _ _ _ _ _ i j Hconv),
      (setitem2_lookup _ _ _ _ _ i j Hr2t),
      (setitem2_lookup _ _ _ _ _ i j Hit).
    rewrite !decide_True by tauto. reflexivity.
  - intros i' j' Hne. unfold entries_at. ss_simpl.
    rewrite HA, HB, HC, HD.
    rewrite (setitem2_lookup _ _ _ _ _ i' j' Hirk),
      (setitem2_lookup _ _ _ _ _ i' j' Hconv),
      (setitem2_lookup _ _ _ _ _ i' j' Hr2t),
      (setitem2_lookup _ _ _ _ _ i' j' Hit).
    rewrite !decide_False by exact Hne. reflexivity.
Qed.
End PairEntries.

Lemma lookup_replicate_decide {A} (n : nat) (x : A) (i : nat) :
  replicate n x !! i = if decide (i < n) then Some x else None.
Proof.
  destruct (decide (i < n)) as [Hi|Hi].
  - now apply lookup_replicate_2.
  - apply lookup_replicate_None. lia.
Qed.

Lemma lookup2_replicate {A} (n m : nat) (x : A) (i j : nat) :
  lookup2 (replicate n (replicate m x)) i j =
  if decide (i < n /\ j < m) then Some x else None.
Proof.
  unfold lookup2. rewrite lookup_replicate_decide.
  destruct (decide (i < n)) as [Hi|Hi]; cbn [mbind option_bind].
  - rewrite lookup_replicate_decide. destruct (decide (j < m)).
    + rewrite decide_True by tauto. reflexivity.
    + rewrite decide_False by tauto. reflexivity.
  - rewrite decide_False by tauto. reflexivity.
Qed.

Section ZeroLookups.
Context {F : Type} `{Scalar F}.

Lemma lookup2_zeros2 n m i j :
  lookup2 (zeros2 n m) i j =
  if decide (i < n /\ j < m) then Some (of_nat 0) else None.
Proof. apply lookup2_replicate. Qed.

Lemma lookup2_zeros3 n m k i j :
  lookup2 (zeros3 n m k) i j =
  if decide (i < n /\ j < m) then Some (zeros k) else None.
Proof. apply lookup2_replicate. Qed.

Lemma lookup2_zeros4 n m k l i j :
  lookup2 (zeros4 n m k l) i j =
  if decide (i < n /\ j < m) then Some (zeros2 k l) else None.
Proof. apply lookup2_replicate. Qed.
End ZeroLookups.

(** ** Slice assignment *)

Section Assignment.
Context {F : Type} `{Scalar F}.

Lemma mapM_result_snd {A B} (xs : list A) (ys : list B) :
  length xs = length ys ->
  mapM (fun p : A * B => OK p.2) (zip xs ys) = OK ys.
Proof.
  intros Hlen. rewrite (mapM_result_total (fun p : A * B => p.2)). f_equal.
  apply snd_zip. lia.
Qed.

(** Assigning an array to the slice of its own length: it replaces the
    head of the target when it fits, and an array of two or more entries
    that does not fit raises. *)
Lemma assign1_fits (target v : list F) :
  length v <= length target ->
  assign1 target (length v) v = OK (v ++ drop (length v) target).
Proof.
  intros Hfit. unfold assign1, assign_slice.
  replace (min (length v) (length target)) with (length v) by lia.
  rewrite decide_True by reflexivity. unfold mbind, result_bind, rbind.
  rewrite mapM_result_snd by (rewrite length_take; lia). reflexivity.
Qed.

Lemma assign1_too_long (target v : list F) :
  length target < length v -> 2 <= length v ->
  assign1 target (length v) v = Raise ValueError.
Proof.
  intros Hlong Hv. unfold assign1, assign_slice.
  rewrite decide_False by lia.
  destruct v as [|x [|y v]]; simpl in Hv; try lia; reflexivity.
Qed.

Lemma assign1_exact (target v out : list F) :
  2 <= length v -> assign1 target (length v) v = OK out ->
  length v <= length target /\ out = v ++ drop (length v) target.
Proof.
  intros Hv Hout. destruct (decide (length v <= length target)) as [Hfit|Hfit].
  - rewrite assign1_fits in Hout by exact Hfit. injection Hout as <-. auto.
  - rewrite assign1_too_long in Hout by lia. discriminate.
Qed.

Lemma drop_zeros n k : drop k (zeros n) = zeros (n - k).
Proof. unfold zeros. apply drop_replicate. Qed.

Lemma length_zeros n : length (zeros n) = n.
Proof. apply length_replicate. Qed.

Lemma mapM_rows {A} (g : A -> list F -> result (list F)) (z : A)
    (f : list F -> list F) (v : matrix F) (n : nat) :
  length v = n -> (forall row, row ∈ v -> g z row = OK (f row)) ->
  mapM (fun p : A * list F => g p.1 p.2) (zip (replicate n z) v) = OK (f <$> v).
Proof.
  revert n. induction v as [|row v IH]; intros n Hlen Hg.
  - subst n. reflexivity.
  - destruct n as [|n]; [discriminate|]. simpl.
    rewrite (Hg row) by apply list_elem_of_here. simpl.
    rewrite (IH n); [reflexivity|simpl in Hlen; lia|].
    intros row' Hrow'. apply Hg. now apply list_elem_of_further.
Qed.

(** The same for a square block of order [ss >= 2] assigned to the leading
    block of an all-zero square array. *)
Lemma assign2_zeros (max_order ss : nat) (v out : matrix F) :
  2 <= ss -> has_shape ss ss v ->
  assign2 (zeros2 max_order max_order) ss ss v = OK out ->
  ss <= max_order /\
  out = ((fun row => row ++ zeros (max_order - ss)) <$> v)
        ++ zeros2 (max_order - ss) max_order.
Proof.
  intros Hss [Hlen Hrows]. unfold assign2, assign_slice, zeros2.
  rewrite length_replicate, Hlen.
  destruct (decide (ss = min ss max_order)) as [Hfit|Hfit].
  - assert (Hle : ss <= max_order) by lia. clear Hfit.
    replace (min ss max_order) with ss by lia.
    rewrite take_replicate, drop_replicate.
    replace (min ss max_order) with ss by lia.
    unfold mbind, result_bind, rbind.
    rewrite (mapM_rows (fun old x => assign1 old ss x) (zeros max_order)
               (fun row => row ++ zeros (max_order - ss)) v ss Hlen).
    + intros [= <-]. auto.
    + intros row Hrow. rewrite Forall_forall in Hrows.
      specialize (Hrows row Hrow). rewrite <- Hrows at 1.
      rewrite assign1_fits by (rewrite length_zeros; lia).
      now rewrite drop_zeros, Hrows.
  - destruct v as [|x [|y v]]; simpl in Hlen; try lia; discriminate.
Qed.
End Assignment.

(** ** The leading block *)

Section LeadingBlock.
Context {F : Type} `{Scalar F} `{Library F}.

(** The containers of a pair are sized to [max_order], and every entry
    outside the leading block of size [order] is zero. *)
Definition leading_block (max_order order : nat) (e : pair_entries F) : Prop :=
  order <= max_order /\
  has_shape max_order max_order (e_A e) /\
  has_shape max_order 1 (e_B e) /\
  has_shape 1 max_order (e_C e) /\
  (forall r c x, lookup2 (e_A e) r c = Some x -> order <= r \/ order <= c ->
     x = of_nat 0) /\
  (forall r c x, lookup2 (e_B e) r c = Some x -> order <= r -> x = of_nat 0) /\
  (forall r c x, lookup2 (e_C e) r c = Some x -> order <= c -> x = of_nat 0).

Lemma lookup_zeros n k x : zeros n !! k = Some x -> x = of_nat 0.
Proof. unfold zeros. now intros [-> _]%lookup_replicate. Qed.

Lemma lookup2_zeros2_Some n m r c x :
  lookup2 (zeros2 n m) r c = Some x -> x = of_nat 0.
Proof.
  rewrite lookup2_zeros2. destruct (decide _); [|discriminate]. congruence.
Qed.

Lemma zero_entries_block numFreq max_order :
  leading_block max_order 0 (zero_entries numFreq max_order).
Proof.
  unfold leading_block, zero_entries. cbn [e_A e_B e_C].
  split; [lia|]. repeat split; try apply has_shape_zeros2;
    intros r c x Hx _; exact (lookup2_zeros2_Some _ _ _ _ _ Hx).
Qed.

Lemma write_A_block max_order ss (r : realization F) A :
  2 <= ss -> has_shape ss ss (ac r) ->
  write_A r (zeros2 max_order max_order) = OK A ->
  ss <= max_order /\ has_shape max_order max_order A /\
  forall i j x, lookup2 A i j = Some x -> ss <= i \/ ss <= j -> x = of_nat 0.
Proof.
  intros Hss Hac. unfold write_A, shape0. rewrite (proj1 Hac).
  intros [Hle ->]%assign2_zeros; [|exact Hss|exact Hac].
  destruct Hac as [Hlen Hrows]. split; [exact Hle|]. split.
  - split.
    + rewrite length_app, length_fmap. unfold zeros2.
      rewrite length_replicate. lia.
    + apply Forall_app. split.
      * apply Forall_fmap. eapply Forall_impl; [exact Hrows|].
        intros row Hrow. unfold compose. cbv beta in Hrow.
        rewrite length_app, length_zeros. lia.
      * apply has_shape_zeros2.
  - intros i j x. unfold lookup2.
    destruct (decide (i < ss)) as [Hi|Hi].
    + rewrite lookup_app_l by (rewrite length_fmap; lia).
      rewrite list_lookup_fmap.
      destruct (ac r !! i) as [row|] eqn:Hrow; [|discriminate].
      cbn [fmap option_fmap option_map mbind option_bind].
      assert (Hrl : length row = ss).
      { rewrite Forall_forall in Hrows. apply Hrows.
        eapply list_elem_of_lookup_2; eauto. }
      intros Hx [Hge|Hge]; [lia|].
      rewrite lookup_app_r in Hx by lia. exact (lookup_zeros _ _ _ Hx).
    + rewrite lookup_app_r by (rewrite length_fmap; lia).
      intros Hx _. exact (lookup2_zeros2_Some _ _ (i - length ((fun row => row ++ zeros (max_order - ss)) <$> ac r)) j x Hx).
Qed.

Lemma col_zeros2 n : col 0 (zeros2 n 1) = zeros n.
Proof.
  unfold col, zeros2, zeros. rewrite fmap_replicate. reflexivity.
Qed.

Lemma write_B_block max_order ss (r : realization F) B :
  2 <= ss -> has_shape ss 1 (bc r) ->
  write_B r (zeros2 max_order 1) = OK B ->
  ss <= max_order /\ has_shape max_order 1 B /\
  forall i j x, lookup2 B i j = Some x -> ss <= i -> x = of_nat 0.
Proof.
  intros Hss [Hlen Hrows]. unfold write_B, mbind, result_bind, rbind, shape0.
  destruct (mapM _ (bc r)) as [bc_0|] eqn:Hbc0; [|discriminate].
  apply mapM_result_length in Hbc0. rewrite Hlen in Hbc0.
  rewrite col_zeros2, Hlen, <- Hbc0.
  destruct (assign1 _ _ bc_0) as [B_0|] eqn:HB0; [|discriminate].
  apply assign1_exact in HB0 as [Hle ->]; [|lia].
  rewrite length_zeros in Hle. rewrite drop_zeros. intros [= <-].
  set (B_0 := bc_0 ++ zeros (max_order - length bc_0)).
  assert (HB0l : length B_0 = max_order).
  { unfold B_0. rewrite length_app, length_zeros. lia. }
  assert (Hrow : forall i row,
    zip_with (fun (row : list F) x => <[0:=x]> row) (zeros2 max_order 1) B_0 !! i
    = Some row -> exists x, B_0 !! i = Some x /\ row = [x]).
  { intros i row Hi. apply lookup_zip_with_Some in Hi as (z & x & -> & Hz & Hx).
    exists x. split; [exact Hx|]. unfold zeros2 in Hz.
    apply lookup_replicate in Hz as [-> _]. reflexivity. }
  split; [lia|]. split.
  - split.
    + rewrite length_zip_with. unfold zeros2. rewrite length_replicate. lia.
    + apply Forall_forall. intros row [i Hi]%list_elem_of_lookup.
      destruct (Hrow i row Hi) as (x & _ & ->). reflexivity.
  - intros i j x. unfold lookup2.
    destruct (zip_with _ _ _ !! i) as [row|] eqn:Hi; [|discriminate].
    destruct (Hrow i row Hi) as (y & Hy & ->).
    cbn [mbind option_bind]. intros Hx Hge.
    destruct j; [|discriminate]. injection Hx as <-.
    unfold B_0 in Hy. rewrite lookup_app_r in Hy by lia.
    exact (lookup_zeros _ _ _ Hy).
Qed.

Lemma write_C_block max_order ss (r : realization F) C :
  2 <= ss -> has_shape 1 ss (cc r) ->
  write_C r (zeros2 1 max_order) = OK C ->
  ss <= max_order /\ has_shape 1 max_order C /\
  forall i j x, lookup2 C i j = Some x -> ss <= j -> x = of_nat 0.
Proof.
  intros Hss [Hlen Hrows]. unfold write_C, mbind, result_bind, rbind.
  destruct (cc r) as [|row [|row' rest]]; try discriminate.
  apply Forall_cons in Hrows as [Hrl _]. cbn [getitem lookup list_lookup shape1].
  unfold zeros2. cbn [replicate getitem lookup list_lookup].
  rewrite Hrl, <- Hrl.
  destruct (assign1 _ _ row) as [C_0|] eqn:HC0; [|discriminate].
  apply assign1_exact in HC0 as [Hle ->]; [|lia].
  rewrite length_zeros in Hle. rewrite drop_zeros. intros [= <-].
  cbn [insert list_insert]. split; [lia|]. split.
  - split; [reflexivity|]. constructor; [|constructor].
    rewrite length_app, length_zeros. lia.
  - intros i j x. unfold lookup2. destruct i; [|discriminate].
    cbn [lookup list_lookup mbind option_bind]. intros Hx Hge.
    rewrite lookup_app_r in Hx by lia. exact (lookup_zeros _ _ _ Hx).
Qed.

(** The entries written for a realization of order [ss >= 2]. *)
Lemma write_entries_block numFreq max_order (r : realization F) status ss new :
  2 <= ss ->
  has_shape ss ss (ac r) -> has_shape ss 1 (bc r) -> has_shape 1 ss (cc r) ->
  write_entries r status ss (zero_entries numFreq max_order) = OK new ->
  leading_block max_order ss new /\
  e_irk_bss new = k_ss_est r /\ e_rad_conv new = of_nat status /\
  e_r2t new = R2T r /\ e_it new = of_nat ss.
Proof.
  intros Hss Hac Hbc Hcc. unfold write_entries, zero_entries, mbind, result_bind, rbind.
  cbn [e_A e_B e_C e_D].
  destruct (write_A r _) as [A|] eqn:HA; [|discriminate].
  destruct (write_B r _) as [B|] eqn:HB; [|discriminate].
  destruct (write_C r _) as [C|] eqn:HC; [|discriminate].
  destruct (write_D r _) as [D|] eqn:HD; [|discriminate].
  intros [= <-]. cbn [e_irk_bss e_rad_conv e_r2t e_it].
  split; [|auto].
  destruct (write_A_block _ _ _ _ Hss Hac HA) as (Hle & HAs & HAz).
  destruct (write_B_block _ _ _ _ Hss Hbc HB) as (_ & HBs & HBz).
  destruct (write_C_block _ _ _ _ Hss Hcc HC) as (_ & HCs & HCz).
  unfold leading_block. cbn [e_A e_B e_C]. auto 10.
Qed.
End LeadingBlock.

(** ** The loops of [calc_ss_radiation] *)

Section FuelLoops.
Context {S : Type}.

Lemma for_fuel_seq (P : nat -> S -> Prop) (body : nat -> S -> S * option (result unit))
    (a len : nat) (s s' : S) :
  P a s ->
  (forall k s1 s2, a <= k < a + len -> P k s1 ->
     body k s1 = (s2, Some (OK tt)) -> P (Datatypes.S k) s2) ->
  for_fuel (seq a len) body s = (s', Some (OK tt)) -> P (a + len) s'.
Proof.
  revert a s. induction len as [|len IH]; intros a s Ha Hstep; simpl.
  - intros [= <-]. now rewrite Nat.add_0_r.
  - destruct (body a s) as [s1 [[[]|e]|]] eqn:Hbody; try discriminate.
    intros Hrest. replace (a + Datatypes.S len) with (Datatypes.S a + len) by lia.
    apply (IH (Datatypes.S a) s1).
    + apply (Hstep a s); [lia|exact Ha|exact Hbody].
    + intros k s2 s3 Hk. apply Hstep. lia.
    + exact Hrest.
Qed.

Lemma for_fuel_xrange (P : nat -> S -> Prop)
    (body : nat -> S -> S * option (result unit)) (n : nat) (s s' : S) :
  P 0 s ->
  (forall k s1 s2, k < n -> P k s1 ->
     body k s1 = (s2, Some (OK tt)) -> P (Datatypes.S k) s2) ->
  for_fuel (xrange n) body s = (s', Some (OK tt)) -> P n s'.
Proof.
  intros H0 Hstep Hfor. apply (for_fuel_seq P body 0 n s s' H0); [|exact Hfor].
  intros k s1 s2 Hk. apply Hstep. lia.
Qed.
End FuelLoops.

Section Reduction.
Context {F : Type} `{Scalar F} `{Library F}.
Variables (fuel : nat) (self : HydrodynamicData F) (dt : F)
  (numFreq max_order : nat) (r2_thresh : F).

(** What the loop body records for the pair [(i, j)]: nothing when the
    kernel is degenerate, otherwise the outcome of its own search. *)
Definition pair_record (i j : nat) : option (realization F * nat * nat) :=
  match K ← getattr (rd_irf_K (rd_irf self)); getitem2 K i j with
  | OK K_ij =>
      if fne (reference_norm K_ij) (of_nat 0) then
        match
          order_search fuel K_ij dt numFreq (reference_norm K_ij)
            max_order r2_thresh 2
        with
        | Some (OK x) => Some x
        | _ => None
        end
      else None
  | Raise _ => None
  end.

(** The entries the pair holds once its pass of the loops is over. *)
Definition reduced_entries (i j : nat) : pair_entries F :=
  match pair_record i j with
  | Some (r, status, ss) =>
      match write_entries r status ss (zero_entries numFreq max_order) with
      | OK new => new
      | Raise _ => zero_entries numFreq max_order
      end
  | None => zero_entries numFreq max_order
  end.

(** The pass of the loop body over [(i, j)] ended normally: the kernel
    exists and, unless it is degenerate, its search returned a realization
    that fitted into the containers. *)
Definition pair_done (i j : nat) : Prop :=
  exists K_ij,
    (K ← getattr (rd_irf_K (rd_irf self)); getitem2 K i j) = OK K_ij /\
    (fne (reference_norm K_ij) (of_nat 0) = true ->
     exists r status ss new,
       order_search fuel K_ij dt numFreq (reference_norm K_ij)
         max_order r2_thresh 2 = Some (OK (r, status, ss)) /\
       write_entries r status ss (zero_entries numFreq max_order) = OK new /\
       i < 6).

(** The store while the loops run: the pairs in [done] hold their reduced
    entries, the others are still zero; the containers have the shape
    [6 x n1]. *)
Definition reduced_on (n1 : nat) (done : nat -> nat -> bool)
    (s : StateSpaceRealization F) : Prop :=
  (forall i j,
     entries_at s i j =
     if decide (i < 6 /\ j < n1) then
       Some (if done i j then reduced_entries i j
             else zero_entries numFreq max_order)
     else None) /\
  (forall i j, done i j = true -> j < n1 -> pair_done i j).

Lemma reduced_on_ext n1 (d1 d2 : nat -> nat -> bool) s :
  (forall i j, j < n1 -> d1 i j = d2 i j) ->
  reduced_on n1 d1 s -> reduced_on n1 d2 s.
Proof.
  intros Hd [Hs Hdone]. split.
  - intros i j. rewrite (Hs i j).
    destruct (decide (i < 6 /\ j < n1)) as [[_ Hj]|]; [|reflexivity].
    now rewrite (Hd i j Hj).
  - intros i j Hij Hj. apply Hdone; [|exact Hj]. now rewrite (Hd i j Hj).
Qed.

Lemma empty_realization_reduced n1 :
  reduced_on n1 (fun _ _ => false) (empty_realization n1 numFreq max_order).
Proof.
  split; [|discriminate].
  intros i j. unfold entries_at, empty_realization. ss_simpl.
  rewrite !lookup2_zeros4, !lookup2_zeros3, !lookup2_zeros2.
  destruct (decide (i < 6 /\ j < n1)); reflexivity.
Qed.

(** One pass of the loop body that ends normally records the pair. *)
Lemma reduce_pair_reduced n1 (done : nat -> nat -> bool) i j s s' :
  done i j = false ->
  reduced_on n1 done s ->
  reduce_pair fuel self dt numFreq max_order r2_thresh i j s = (s', Some (OK tt)) ->
  reduced_on n1
    (fun i' j' => done i' j' || bool_decide (i' = i /\ j' = j)) s'.
Proof.
  intros Hnew [Hs Hdone]. unfold reduce_pair.
  assert (Hold_done : pair_done i j ->
    forall i' j', done i' j' || bool_decide (i' = i /\ j' = j) = true ->
      j' < n1 -> pair_done i' j').
  { intros Hij i' j' Hor Hj'. apply orb_true_iff in Hor as [Hd|Heq].
    - now apply Hdone.
    - apply bool_decide_eq_true in Heq as [-> ->]. exact Hij. }
  assert (Hskip : pair_record i j = None -> pair_done i j ->
    reduced_on n1
      (fun i' j' => done i' j' || bool_decide (i' = i /\ j' = j)) s).
  { intros Hrec Hij. split; [|now apply Hold_done].
    intros i' j'. rewrite (Hs i' j').
    destruct (decide (i' < 6 /\ j' < n1)); [|reflexivity]. f_equal.
    destruct (done i' j') eqn:Hd; [reflexivity|]. cbn [orb].
    destruct (decide (i' = i /\ j' = j)) as [[-> ->]|Hne].
    - rewrite bool_decide_eq_true_2 by tauto. unfold reduced_entries.
      now rewrite Hrec.
    - rewrite bool_decide_eq_false_2 by tauto. reflexivity. }
  unfold pair_record in Hskip. unfold pair_done in Hskip, Hold_done.
  destruct (K ← getattr (rd_irf_K (rd_irf self)); getitem2 K i j)
    as [K_ij|e] eqn:HK; [|discriminate].
  destruct (fne (reference_norm K_ij) (of_nat 0)) eqn:Hdeg.
  - destruct (order_search _ _ _ _ _ _ _ _) as [[[[r status] ss]|e]|] eqn:Hsearch;
      try discriminate.
    destruct (for_ _ _ s) as [s1 o] eqn:Hrec. intros [= <- ->].
    apply record_pair_entries in Hrec as (old & new & Hold & Hwrite & Hnew' & Hframe).
    rewrite (Hs i j) in Hold.
    destruct (decide (i < 6 /\ j < n1)) as [Hin|]; [|discriminate].
    rewrite Hnew in Hold. injection Hold as <-.
    split.
    + intros i' j'. destruct (decide (i' = i /\ j' = j)) as [[-> ->]|Hne].
      * rewrite Hnew'. rewrite decide_True by exact Hin.
        rewrite bool_decide_eq_true_2 by tauto. rewrite orb_true_r.
        unfold reduced_entries, pair_record.
        now rewrite HK, Hdeg, Hsearch, Hwrite.
      * rewrite (Hframe i' j' Hne), (Hs i' j').
        rewrite bool_decide_eq_false_2 by exact Hne. now rewrite orb_false_r.
    + apply Hold_done. exists K_ij. split; [reflexivity|].
      intros _. exists r, status, ss, new.
      split; [exact Hsearch|]. split; [exact Hwrite|exact (proj1 Hin)].
  - intros [= <-]. apply Hskip; [reflexivity|].
    exists K_ij. split; [reflexivity|]. rewrite Hdeg. discriminate.
Qed.

(** The loop over [j] in row [i], then the loop over [i]. *)
Lemma reduce_row_reduced n1 i s s' :
  reduced_on n1 (fun i' _ => bool_decide (i' < i)) s ->
  for_fuel (xrange n1)
    (reduce_pair fuel self dt numFreq max_order r2_thresh i) s
  = (s', Some (OK tt)) ->
  reduced_on n1 (fun i' _ => bool_decide (i' < S i)) s'.
Proof.
  intros Hs Hfor.
  set (P := fun (b : nat) (s : StateSpaceRealization F) =>
    reduced_on n1
      (fun i' j' => bool_decide (i' < i \/ (i' = i /\ j' < b))) s).
  assert (HP : P n1 s').
  { apply (for_fuel_xrange P
             (reduce_pair fuel self dt numFreq max_order r2_thresh i) n1 s s');
      [| |exact Hfor]; unfold P.
    - revert Hs. apply reduced_on_ext. intros i' j' _.
      apply bool_decide_ext. lia.
    - intros j s1 s2 Hj Hs1 Hbody.
      apply (reduce_pair_reduced n1
               (fun i' j' => bool_decide (i' < i \/ (i' = i /\ j' < j)))
               i j s1 s2) in Hbody;
        [|apply bool_decide_eq_false_2; lia|exact Hs1].
      revert Hbody. apply reduced_on_ext. intros i' j' _.
      rewrite <- bool_decide_or. apply bool_decide_ext. lia. }
  revert HP. unfold P. apply reduced_on_ext. intros i' j' Hj.
  apply bool_decide_ext. lia.
Qed.

Lemma reduce_rows_reduced (n0 n1 : nat) s' :
  for_fuel (xrange n0) (fun i =>
    for_fuel (xrange n1)
      (reduce_pair fuel self dt numFreq max_order r2_thresh i))
    (empty_realization n1 numFreq max_order)
  = (s', Some (OK tt)) ->
  reduced_on n1 (fun i' _ => bool_decide (i' < n0)) s'.
Proof.
  intros Hfor.
  set (P := fun (a : nat) (s : StateSpaceRealization F) =>
    reduced_on n1 (fun i' _ => bool_decide (i' < a)) s).
  change (P n0 s').
  apply (for_fuel_xrange P
           (fun i => for_fuel (xrange n1)
              (reduce_pair fuel self dt numFreq max_order r2_thresh i))
           n0 (empty_realization n1 numFreq max_order) s');
    [| |exact Hfor]; unfold P.
  - generalize (empty_realization_reduced n1). apply reduced_on_ext.
    intros i' j' _. symmetry. apply bool_decide_eq_false_2. lia.
  - intros i s1 s2 _ Hs1 Hbody. exact (reduce_row_reduced n1 i s1 s2 Hs1 Hbody).
Qed.
End Reduction.

Section Reduced.
Context {F : Type} `{Scalar F} `{Library F}.

(** When [calc_ss_radiation] returns, every pair of the loops holds its
    reduced entries and the rows the loops did not visit are zero. *)
Lemma calc_ss_radiation_reduced fuel max_order r2_thresh
    (self self' : HydrodynamicData F) :
  calc_ss_radiation fuel max_order r2_thresh self = (self', Some (OK tt)) ->
  exists t t1 t2 s,
    rd_irf_t (rd_irf self) = Some t /\ t !! 1 = Some t1 /\ t !! 2 = Some t2 /\
    self' = set_rd_ss s self /\
    reduced_on fuel self (t2 - t1)%fl (length t) max_order r2_thresh
      (shape1 (am_inf self))
      (fun i _ => bool_decide (i < shape0 (am_inf self))) s.
Proof.
  unfold calc_ss_radiation, mbind, result_bind, rbind, getattr.
  destruct (rd_irf_t (rd_irf self)) as [t|]; [|discriminate].
  destruct (getitem t 2) as [t2|] eqn:Ht2; [|discriminate].
  destruct (getitem t 1) as [t1|] eqn:Ht1; [|discriminate].
  apply getitem_OK in Ht1, Ht2.
  destruct (for_fuel _ _ _) as [s o] eqn:Hfor. intros [= <- ->].
  exists t, t1, t2, s. repeat (split; [reflexivity || assumption|]).
  exact (reduce_rows_reduced _ _ _ _ _ _ _ _ _ Hfor).
Qed.

(** A degenerate kernel is skipped: the pass changes nothing and raises
    nothing. *)
Lemma reduce_pair_degenerate fuel (self : HydrodynamicData F) dt numFreq
    max_order r2_thresh i j K_ij s :
  (K ← getattr (rd_irf_K (rd_irf self)); getitem2 K i j) = OK K_ij ->
  fne (reference_norm K_ij) (of_nat 0) = false ->
  reduce_pair fuel self dt numFreq max_order r2_thresh i j s = (s, Some (OK tt)).
Proof. intros HK Hdeg. unfold reduce_pair. now rewrite HK, Hdeg. Qed.

(** The reduced entries of a pair keep to the leading block of the order
    they record. *)
Lemma reduced_entries_block fuel (self : HydrodynamicData F) dt numFreq
    max_order r2_thresh i j :
  3 <= numFreq ->
  exists order,
    e_it (reduced_entries fuel self dt numFreq max_order r2_thresh i j)
      = of_nat order /\
    leading_block max_order order
      (reduced_entries fuel self dt numFreq max_order r2_thresh i j).
Proof.
  intros Hfreq. unfold reduced_entries, pair_record.
  assert (Hzero : exists order,
    e_it (zero_entries numFreq max_order) = of_nat order /\
    leading_block max_order order (zero_entries numFreq max_order)).
  { exists 0. split; [reflexivity|apply zero_entries_block]. }
  destruct (_ ≫= _) as [K_ij|]; [|exact Hzero].
  destruct (fne _ _); [|exact Hzero].
  destruct (order_search _ _ _ _ _ _ _ _) as [[[[r status] ss]|]|] eqn:Hsearch;
    try exact Hzero.
  destruct (write_entries _ _ _ _) as [new|] eqn:Hwrite; [|exact Hzero].
  apply order_search_spec in Hsearch as (ss' & Hss & _ & -> & Hpass & _).
  assert (Hss1 : 1 <= ss') by lia. assert (Hss2 : 2 <= ss') by lia.
  destruct (realization_at_shape _ _ _ _ _ _ Hfreq Hss1 Hpass)
    as (Hac & Hbc & Hcc & _).
  destruct (write_entries_block _ _ _ _ _ _ Hss2 Hac Hbc Hcc Hwrite)
    as (Hblock & _ & _ & _ & Hit).
  exists ss'. split; assumption.
Qed.
End Reduced.

(** * Concrete stores

    Small stores over the real numbers, on which the methods can be run by
    evaluation: each comparison of two reals that the run meets is settled
    by linear arithmetic. *)

Ltac real_eval :=
  cbv -[Rplus Rminus Rmult Rdiv Ropp Rinv sqrt cos sin PI IZR
        Rgt_dec Rge_dec Req_dec_T Rle_dec reference_norm].

Ltac real_case tac :=
  match goal with
  | |- context [Rle_dec ?x ?y] => destruct (Rle_dec x y); [exfalso; tac|]
  | |- context [Rle_dec ?x ?y] => destruct (Rle_dec x y); [|exfalso; tac]
  | |- context [Rgt_dec ?x ?y] => destruct (Rgt_dec x y); [exfalso; tac|]
  | |- context [Rgt_dec ?x ?y] => destruct (Rgt_dec x y); [|exfalso; tac]
  | |- context [Rge_dec ?x ?y] => destruct (Rge_dec x y); [exfalso; tac|]
  | |- context [Rge_dec ?x ?y] => destruct (Rge_dec x y); [|exfalso; tac]
  | |- context [Req_dec_T ?x ?y] => destruct (Req_dec_T x y); [exfalso; tac|]
  | |- context [Req_dec_T ?x ?y] => destruct (Req_dec_T x y); [|exfalso; tac]
  end.

Ltac real_run tac := real_eval; repeat (real_case tac; real_eval).

(** One body, one degree of freedom, two frequencies; no impulse response
    computed yet. The excitation coefficient is [3 + 4i] at [w = 1] and
    [0 + 3i] at [w = 2]. *)
Definition ascending_store : HydrodynamicData R :=
  {| w := [1; 2]%R; am_inf := [[0%R]]; rd_all := [[[3; 4]%R]]; rd_im := None;
     ex_re := [[[3; 0]%R]]; ex_im := [[[4; 3]%R]]; ex_mag := [[[5; 3]%R]];
     ex_irf := {| ex_irf_t := None; ex_irf_w := None; ex_irf_f := None |};
     rd_irf := {| rd_irf_t := None; rd_irf_w := None;
                  rd_irf_L := None; rd_irf_K := None |};
     rd_ss := None |}.

(** The same coefficients on the descending grid: the grid and every slice
    along it reversed. *)
Definition descending_store : HydrodynamicData R :=
  {| w := [2; 1]%R; am_inf := [[0%R]]; rd_all := [[[4; 3]%R]]; rd_im := None;
     ex_re := [[[0; 3]%R]]; ex_im := [[[3; 4]%R]]; ex_mag := [[[3; 5]%R]];
     ex_irf := {| ex_irf_t := None; ex_irf_w := None; ex_irf_f := None |};
     rd_irf := {| rd_irf_t := None; rd_irf_w := None;
                  rd_irf_L := None; rd_irf_K := None |};
     rd_ss := None |}.

(** The descending store after something has set [self.rd.im], here to
    zeros of the shape of [rd.all]. *)
Definition descending_store_rd_im : HydrodynamicData R :=
  {| w := [2; 1]%R; am_inf := [[0%R]]; rd_all := [[[4; 3]%R]];
     rd_im := Some [[[0; 0]%R]];
     ex_re := [[[0; 3]%R]]; ex_im := [[[3; 4]%R]]; ex_mag := [[[3; 5]%R]];
     ex_irf := {| ex_irf_t := None; ex_irf_w := None; ex_irf_f := None |};
     rd_irf := {| rd_irf_t := None; rd_irf_w := None;
                  rd_irf_L := None; rd_irf_K := None |};
     rd_ss := None |}.

(** A store with a single frequency. *)
Definition one_point_store : HydrodynamicData R :=
  {| w := [1%R]; am_inf := [[0%R]]; rd_all := [[[3%R]]]; rd_im := None;
     ex_re := [[[3%R]]]; ex_im := [[[4%R]]]; ex_mag := [[[5%R]]];
     ex_irf := {| ex_irf_t := None; ex_irf_w := None; ex_irf_f := None |};
     rd_irf := {| rd_irf_t := None; rd_irf_w := None;
                  rd_irf_L := None; rd_irf_K := None |};
     rd_ss := None |}.

(** A store with the radiation kernels of two degrees of freedom on three
    time samples: the first kernel is constant, the second is not. *)
Definition kernel_store : HydrodynamicData R :=
  {| w := [1; 2]%R; am_inf := [[0; 0]%R]; rd_all := [[[3; 4]; [3; 4]]%R];
     rd_im := None;
     ex_re := [[[3; 0]%R]]; ex_im := [[[4; 3]%R]]; ex_mag := [[[5; 3]%R]];
     ex_irf := {| ex_irf_t := None; ex_irf_w := None; ex_irf_f := None |};
     rd_irf := {| rd_irf_t := Some [0; 1; 2]%R; rd_irf_w := None;
                  rd_irf_L := None;
                  rd_irf_K := Some [[[1; 1; 1]; [1; 0; 0]]%R] |};
     rd_ss := None |}.

(** A library over the reals whose routines are computable: interpolation
    is the exact one; [svd] returns identity factors with unit singular
    values, [inv] and [expm] return their argument. It meets the shape
    contracts of [Library], which is all the properties below rely on, and
    lets the state-space reduction run on [kernel_store]. *)
Definition unit_svd (h : matrix R)
  : result (matrix R * list R * matrix R) :=
  OK (eye (length h), replicate (length h) 1%R, eye (length h)).

#[refine] Definition Unit_Library : Library R :=
  {| interp1d := R_interp1d; svd := unit_svd;
     inv := fun a => OK a; expm := fun a => OK a |}.
Proof.
- apply (@interp1d_length R R_Library).
- intros n h u s vh [Hn _] [= <- <- <-]. rewrite Hn.
  split; [apply has_shape_eye|].
  split; [apply length_replicate|apply has_shape_eye].
- intros n a m Ha [= <-]. exact Ha.
- intros n a m Ha [= <-]. exact Ha.
Defined.

Lemma reference_norm_constant : reference_norm [1; 1; 1]%R = 0%R.
Proof.
  cbv -[Rplus Rminus Rmult Rdiv Ropp Rinv sqrt IZR].
  transitivity (sqrt 0); [f_equal; lra|apply sqrt_0].
Qed.

Lemma reference_norm_impulse : reference_norm [1; 0; 0]%R <> 0%R.
Proof.
  cbv -[Rplus Rminus Rmult Rdiv Ropp Rinv sqrt IZR].
  apply Rgt_not_eq, sqrt_lt_R0. lra.
Qed.

(** [ascending_store] is the equivalent of [descending_store]. *)
Lemma ascending_equivalent_descending_store :
  ascending_equivalent descending_store = ascending_store.
Proof. reflexivity. Qed.

(** X16. Over the reals [calc_irf_radiation] does not depend on the
    direction of the grid: on a strictly descending grid it ends as it
    does on the store with the grid and every slice [rd.all[i,j,:]]
    reversed, and leaves the same [rd.irf]. *)
Lemma calc_irf_radiation_descending_reals
    (self : HydrodynamicData R) (t_end : R) (n_t n_w : nat) :
  2 <= length (w self) -> strictly_descending (w self) ->
  (calc_irf_radiation t_end n_t n_w self).2
  = (calc_irf_radiation t_end n_t n_w (ascending_equivalent self)).2 /\
  rd_irf (calc_irf_radiation t_end n_t n_w self).1
  = rd_irf (calc_irf_radiation t_end n_t n_w (ascending_equivalent self)).1.
Proof.
  apply calc_irf_radiation_descending.
  - intros x y. cbn. destruct (Rgt_dec x y), (Rgt_dec y x);
      (reflexivity || discriminate || lra).
  - apply Rmin_comm.
  - apply Rmin_assoc.
  - apply Rmax_comm.
  - apply Rmax_assoc.
Qed.

(** The runs of the methods on these stores. *)
Lemma ascending_store_radiation :
  exists self', calc_irf_radiation 1%R 2 2 ascending_store = (self', OK tt).
Proof. eexists. real_run lra. reflexivity. Qed.

Lemma descending_store_radiation :
  exists self',
    calc_irf_radiation 1%R 2 2 descending_store = (self', OK tt) /\
    rd_irf self' = rd_irf (calc_irf_radiation 1%R 2 2 ascending_store).1.
Proof.
  eexists. split; [real_run lra; reflexivity|]. real_run lra. reflexivity.
Qed.

Lemma ascending_store_excitation :
  exists self', calc_irf_excitation 1%R 2 2 ascending_store = (self', OK tt).
Proof. eexists. real_run lra. reflexivity. Qed.

Lemma descending_store_excitation :
  exists self',
    calc_irf_excitation 1%R 2 2 descending_store = (self', Raise AttributeError) /\
    ex_irf_f (ex_irf self') = Some (zeros3 1 1 2).
Proof. eexists. split; [real_run lra; reflexivity|reflexivity]. Qed.

Lemma kernel_store_reduced :
  exists self',
    calc_ss_radiation (H0 := Unit_Library) 1 2 2%R kernel_store
    = (self', Some (OK tt)).
Proof.
  eexists.
  real_run ltac:(first [ now apply reference_norm_impulse
                       | pose proof reference_norm_constant; contradiction
                       | nra ]).
  reflexivity.
Qed.

(** On the reals no fit quality reaches a threshold above 1. *)
Lemma fit_quality_below_two `{Library R} (K_ij : list R) dt numFreq r2bt k r :
  realization_at K_ij dt numFreq r2bt k = OK r -> fge (R2T r) 2%R = false.
Proof.
  intros (err & _ & ->)%realization_at_R2T. cbn.
  destruct (Rge_dec _ _) as [Hge|]; [exfalso|reflexivity].
  simpl in Hge. nra.
Qed.

(** * Properties *)

Section Properties.
Context {F : Type} `{Scalar F} `{Library F}.

(** ** Failures *)

(** C7. For every input, [calc_ss_excitation] fails: it raises the
    exception that announces the missing implementation (the
    specification's [UnimplementedError]), returns no value, and leaves the
    store exactly as it found it. *)
Theorem calc_ss_excitation_unimplemented
    (self : HydrodynamicData F) (t_end : F) (n_t n_w : nat) :
  exists e,
    calc_ss_excitation t_end n_t n_w self = (self, Raise e) /\
    e = Exception not_implemented_msg /\
    signals e = Some UnimplementedError.
Proof.
  exists (Exception not_implemented_msg). repeat split.
Qed.

(** What the two IRF methods do on a grid of fewer than two points: on an
    empty grid [np.min] raises [ValueError], on a one-point grid [w[1]]
    raises [IndexError]. *)
Definition short_grid_error (w : list F) : exn :=
  match w with
  | [] => ValueError
  | _ => IndexError
  end.

Lemma calc_irf_radiation_short_grid (self : HydrodynamicData F) t_end n_t n_w :
  length (w self) < 2 ->
  (calc_irf_radiation t_end n_t n_w self).2 = Raise (short_grid_error (w self)).
Proof.
  intros Hlen. unfold calc_irf_radiation, mbind, M_bind, modify, get, lift.
  cbn. destruct (w self) as [|x [|y l]]; cbn in *; [reflexivity..|lia].
Qed.

Lemma calc_irf_excitation_short_grid (self : HydrodynamicData F) t_length n_t n_w :
  length (w self) < 2 ->
  (calc_irf_excitation t_length n_t n_w self).2 = Raise (short_grid_error (w self)).
Proof.
  intros Hlen. unfold calc_irf_excitation, mbind, M_bind, modify, get, lift.
  cbn. destruct (w self) as [|x [|y l]]; cbn in *; [reflexivity..|lia].
Qed.

(** C8 (amended). On a store whose frequency grid has fewer than two
    points both IRF methods fail before any interpolation, with Python's
    own errors: [ValueError] from [np.min] when the grid is empty,
    [IndexError] from [self.w[1]] when it has one point. Neither is an
    [InsufficientDataError]: the code has no check of the grid length. *)
Theorem irf_short_grid_fails
    (self : HydrodynamicData F) (t_end t_length : F) (n_t n_w n_t' n_w' : nat) :
  length (w self) < 2 ->
  exists e,
    (calc_irf_radiation t_end n_t n_w self).2 = Raise e /\
    (calc_irf_excitation t_length n_t' n_w' self).2 = Raise e /\
    e = short_grid_error (w self) /\
    signals e = None.
Proof.
  intros Hlen. exists (short_grid_error (w self)).
  split; [now apply calc_irf_radiation_short_grid|].
  split; [now apply calc_irf_excitation_short_grid|].
  split; [reflexivity|]. destruct (w self); reflexivity.
Qed.

(** ** State-space reduction *)

Lemma entries_at_fields (s : StateSpaceRealization F) i j e :
  entries_at s i j = Some e ->
  lookup2 (ss_A s) i j = Some (e_A e) /\ lookup2 (ss_B s) i j = Some (e_B e) /\
  lookup2 (ss_C s) i j = Some (e_C e) /\ lookup2 (ss_D s) i j = Some (e_D e) /\
  lookup2 (ss_irk_bss s) i j = Some (e_irk_bss e) /\
  lookup2 (ss_rad_conv s) i j = Some (e_rad_conv e) /\
  lookup2 (ss_r2t s) i j = Some (e_r2t e) /\
  lookup2 (ss_it s) i j = Some (e_it e).
Proof.
  unfold entries_at.
  destruct (lookup2 (ss_A s) i j); [|discriminate].
  destruct (lookup2 (ss_B s) i j); [|discriminate].
  destruct (lookup2 (ss_C s) i j); [|discriminate].
  destruct (lookup2 (ss_D s) i j); [|discriminate].
  destruct (lookup2 (ss_irk_bss s) i j); [|discriminate].
  destruct (lookup2 (ss_rad_conv s) i j); [|discriminate].
  destruct (lookup2 (ss_r2t s) i j); [|discriminate].
  destruct (lookup2 (ss_it s) i j); [|discriminate].
  intros [= <-]. cbn. auto 10.
Qed.

(** What the loops leave at a pair they visited whose kernel is not
    degenerate: the outcome of the pair's own search. *)
Lemma reduced_pair_recorded fuel max_order r2_thresh
    (self : HydrodynamicData F) dt numFreq n1 s i j K_ij :
  reduced_on fuel self dt numFreq max_order r2_thresh n1
    (fun i _ => bool_decide (i < shape0 (am_inf self))) s ->
  i < shape0 (am_inf self) -> j < n1 ->
  (K ← getattr (rd_irf_K (rd_irf self)); getitem2 K i j) = OK K_ij ->
  fne (reference_norm K_ij) (of_nat 0) = true ->
  exists r status order new,
    order_search fuel K_ij dt numFreq (reference_norm K_ij) max_order
      r2_thresh 2 = Some (OK (r, status, order)) /\
    write_entries r status order (zero_entries numFreq max_order) = OK new /\
    entries_at s i j = Some new.
Proof.
  intros [Hs Hdone] Hi Hj HK Hdeg.
  destruct (Hdone i j (bool_decide_eq_true_2 _ Hi) Hj) as (K' & HK' & Hrec).
  rewrite HK in HK'. injection HK' as <-.
  destruct (Hrec Hdeg) as (r & status & order & new & Hsearch & Hwrite & Hi6).
  exists r, status, order, new. split; [exact Hsearch|]. split; [exact Hwrite|].
  rewrite (Hs i j), decide_True by tauto.
  rewrite bool_decide_eq_true_2 by exact Hi.
  unfold reduced_entries, pair_record. now rewrite HK, Hdeg, Hsearch, Hwrite.
Qed.


(** C3 (amended). The order search of a pair [(i, j)] whose kernel is not
    degenerate starts at order 2 and goes up by exactly 1 per pass: with
    the orders from 2 up to [ss] passed over (each computed, missed the
    threshold and was not [max_order]) and [ss - 1] passes of fuel, the
    search is at the order [ss], and what it does there is decided by the
    pass at [ss]:
    - a fit quality that reaches [r2_thresh] stops it with status 1, so the
      search stops at the first order that fits;
    - a miss at [ss = max_order] stops it with status 2, and that needs
      [max_order <= len(K[i,j,:]) - 1];
    - a miss at another order sends it on to [ss + 1];
    - a pass that raises ends the search with that exception: the pass of
      the pair raises it, nothing is recorded, and the method does not
      return normally; every pass at an order above [len(K[i,j,:]) - 1]
      raises.
    So with [max_order] above [len(K[i,j,:]) - 1] (or below 2) and no
    order meeting the threshold the search ends by an exception, with
    neither status. When the method returns, the order recorded in [it]
    lies between 2 and [max_order]; with the status and the fit quality
    recorded beside it, it is the outcome of this search. *)
Theorem order_search_first_fit (fuel max_order : nat) (r2_thresh : F)
    (self : HydrodynamicData F) (t : list F) (t1 t2 : F) (i j : nat)
    (K_ij : list F) (ss : nat) :
  rd_irf_t (rd_irf self) = Some t -> t !! 1 = Some t1 -> t !! 2 = Some t2 ->
  i < shape0 (am_inf self) -> j < shape1 (am_inf self) ->
  (K ← getattr (rd_irf_K (rd_irf self)); getitem2 K i j) = OK K_ij ->
  fne (reference_norm K_ij) (of_nat 0) = true ->
  2 <= ss -> ss - 1 <= fuel ->
  let dt := (t2 - t1)%fl in
  let r2bt := reference_norm K_ij in
  let pass := realization_at K_ij dt (length t) r2bt in
  let search := fun fuel ss0 =>
    order_search fuel K_ij dt (length t) r2bt max_order r2_thresh ss0 in
  (forall k, 2 <= k < ss ->
     exists r, pass k = OK r /\ fge (R2T r) r2_thresh = false /\
               k <> max_order) ->
  search fuel 2 = search (fuel - (ss - 2)) ss /\
  (2 <= max_order -> ss <= max_order) /\
  (forall r, pass ss = OK r -> fge (R2T r) r2_thresh = true ->
     search fuel 2 = Some (OK (r, 1, ss))) /\
  (forall r, pass ss = OK r -> fge (R2T r) r2_thresh = false ->
     ss = max_order ->
     search fuel 2 = Some (OK (r, 2, ss)) /\ max_order <= length K_ij - 1) /\
  (forall r, pass ss = OK r -> fge (R2T r) r2_thresh = false ->
     ss <> max_order ->
     search fuel 2 = search (fuel - (ss - 1)) (ss + 1)) /\
  (forall e, pass ss = Raise e ->
     search fuel 2 = Some (Raise e) /\
     (forall s, reduce_pair fuel self dt (length t) max_order r2_thresh i j s
                = (s, Some (Raise e))) /\
     forall self',
       calc_ss_radiation fuel max_order r2_thresh self
       <> (self', Some (OK tt))) /\
  (length K_ij - 1 < ss -> exists e, pass ss = Raise e) /\
  (length K_ij - 1 < max_order \/ max_order < 2 ->
   length K_ij - 1 <= fuel ->
   (forall k r, pass k = OK r -> fge (R2T r) r2_thresh = false) ->
   exists e, search fuel 2 = Some (Raise e)) /\
  (forall self',
     calc_ss_radiation fuel max_order r2_thresh self = (self', Some (OK tt)) ->
     exists s r status order,
       rd_ss self' = Some s /\
       search fuel 2 = Some (OK (r, status, order)) /\
       lookup2 (ss_it s) i j = Some (of_nat order) /\
       lookup2 (ss_rad_conv s) i j = Some (of_nat status) /\
       lookup2 (ss_r2t s) i j = Some (R2T r) /\
       ss <= order /\ 2 <= order <= max_order /\
       (forall k, 2 <= k < order ->
          exists r', pass k = OK r' /\ fge (R2T r') r2_thresh = false) /\
       pass order = OK r /\
       (exists err, broadcast1 fsub K_ij (k_ss_est r) = OK err /\
          R2T r = (of_nat 1 - (norm err / r2bt) * (norm err / r2bt))%fl) /\
       (status = 1 /\ fge (R2T r) r2_thresh = true \/
        status = 2 /\ fge (R2T r) r2_thresh = false /\ order = max_order)).
Proof.
  intros Ht Ht1 Ht2 Hi Hj HK Hdeg Hss Hfuel dt r2bt pass search Hbefore.
  assert (Hreturn : forall self',
    calc_ss_radiation fuel max_order r2_thresh self = (self', Some (OK tt)) ->
    exists s r status order new,
      rd_ss self' = Some s /\
      search fuel 2 = Some (OK (r, status, order)) /\
      write_entries r status order (zero_entries (length t) max_order)
      = OK new /\
      entries_at s i j = Some new).
  { intros self' Hrun.
    apply calc_ss_radiation_reduced in Hrun
      as (t' & t1' & t2' & s & Ht' & Ht1' & Ht2' & -> & Hred).
    rewrite Ht in Ht'. injection Ht' as <-.
    rewrite Ht1 in Ht1'. injection Ht1' as <-.
    rewrite Ht2 in Ht2'. injection Ht2' as <-.
    destruct (reduced_pair_recorded _ _ _ _ _ _ _ _ _ _ _ Hred Hi Hj HK Hdeg)
      as (r & status & order & new & Hsearch & Hwrite & Hnew).
    exists s, r, status, order, new. auto. }
  assert (Hat : search fuel 2 = search (fuel - (ss - 2)) ss).
  { apply order_search_passed_over; [lia|lia|exact Hbefore]. }
  assert (Hstop : forall out,
    stops_at K_ij dt (length t) r2bt max_order r2_thresh ss out ->
    search fuel 2 = Some out).
  { intros out. apply order_search_stops; [lia|lia|exact Hbefore]. }
  split; [exact Hat|]. split.
  { intros Hmax. destruct (decide (ss <= max_order)) as [|Hgt]; [assumption|].
    destruct (Hbefore max_order) as (_ & _ & _ & Hne); [lia|]. congruence. }
  split.
  { intros r Hpass Hfit. apply Hstop. simpl. auto. }
  split.
  { intros r Hpass Hfit Hmax. split; [apply Hstop; simpl; auto 6|].
    subst ss. exact (realization_at_order _ _ _ _ _ _ Hpass). }
  split.
  { intros r Hpass Hfit Hmax.
    replace (fuel - (ss - 1)) with (fuel - (ss + 1 - 2)) by lia.
    apply order_search_passed_over; [lia|lia|].
    intros k Hk. destruct (decide (k = ss)) as [->|Hne].
    - exists r. auto.
    - apply Hbefore. lia. }
  split.
  { intros e Hpass.
    assert (Hraise : search fuel 2 = Some (Raise e)) by (apply Hstop; exact Hpass).
    split; [exact Hraise|]. split.
    - intros s. unfold reduce_pair. rewrite HK, Hdeg.
      fold r2bt dt. unfold search in Hraise. now rewrite Hraise.
    - intros self' Hrun.
      destruct (Hreturn self' Hrun) as (s & r & status & order & new & _ & Hs & _).
      rewrite Hraise in Hs. discriminate. }
  split.
  { intros Hrank. destruct (pass ss) as [r|e] eqn:Hpass; [|eauto].
    apply realization_at_order in Hpass. lia. }
  split.
  { intros Hmax Hrank Hmiss.
    apply order_search_raises_beyond_rank; [exact Hmax|lia|exact Hrank|].
    exact Hmiss. }
  intros self' Hrun.
  destruct (Hreturn self' Hrun)
    as (s & r & status & order & new & Hs & Hsearch & Hwrite & Hnew).
  pose proof (order_search_not_before _ _ _ _ _ _ _ _ _ _ _ Hbefore Hsearch)
    as Hord.
  pose proof Hsearch as Hspec.
  apply order_search_spec in Hspec
    as (ss' & Hss' & Hbefore' & -> & Hpass & Hstatus).
  assert (Hfreq : 3 <= length t) by (apply lookup_lt_Some in Ht2; lia).
  assert (Hss1 : 1 <= ss') by lia. assert (Hss2 : 2 <= ss') by lia.
  destruct (realization_at_shape _ _ _ _ _ _ Hfreq Hss1 Hpass)
    as (Hac & Hbc & Hcc & _).
  destruct (write_entries_block _ _ _ _ _ _ Hss2 Hac Hbc Hcc Hwrite)
    as ((Hle & _) & _ & Hconv & Hr2t & Hit).
  apply entries_at_fields in Hnew
    as (_ & _ & _ & _ & _ & Hconv' & Hr2t' & Hit').
  exists s, r, status, ss'.
  split; [exact Hs|]. split; [exact Hsearch|].
  split; [now rewrite Hit', Hit|]. split; [now rewrite Hconv', Hconv|].
  split; [now rewrite Hr2t', Hr2t|]. split; [exact Hord|]. split; [lia|].
  split.
  { intros k Hk. destruct (Hbefore' k Hk) as (r' & Hr' & Hfit & _). eauto. }
  split; [exact Hpass|].
  split; [eapply realization_at_R2T; exact Hpass|exact Hstatus].
Qed.

(** C9. When [calc_ss_radiation] returns, for every pair [(i, j)] of the
    containers [A[i,j]] is [max_order x max_order], [B[i,j]] is
    [max_order x 1] and [C[i,j]] is [1 x max_order]; [it[i,j]] holds an
    order that is at most [max_order], and every entry of the three
    outside the leading block of that order is zero. *)
Theorem state_matrices_leading_block (fuel max_order : nat) (r2_thresh : F)
    (self self' : HydrodynamicData F) :
  calc_ss_radiation fuel max_order r2_thresh self = (self', Some (OK tt)) ->
  exists s,
    rd_ss self' = Some s /\
    forall i j, i < 6 -> j < shape1 (am_inf self) ->
      exists e order,
        entries_at s i j = Some e /\ e_it e = of_nat order /\
        leading_block max_order order e.
Proof.
  intros (t & t1 & t2 & s & Ht & Ht1 & Ht2 & -> & Hred)%calc_ss_radiation_reduced.
  exists s. split; [reflexivity|]. intros i j Hi Hj.
  assert (Hfreq : 3 <= length t) by (apply lookup_lt_Some in Ht2; lia).
  destruct Hred as [Hs _]. rewrite (Hs i j), decide_True by tauto.
  destruct (bool_decide (i < shape0 (am_inf self))).
  - destruct (reduced_entries_block fuel self (t2 - t1)%fl (length t) max_order
                r2_thresh i j Hfreq) as (order & Hit & Hblock).
    eauto.
  - exists (zero_entries (length t) max_order), 0.
    split; [reflexivity|]. split; [reflexivity|apply zero_entries_block].
Qed.

(** C10 (amended). The order search of a pair always ends. With
    [max_order >= 2] it ends within [max_order - 1] passes, at an order
    between 2 and [max_order], that is after at most [max_order - 2]
    increments. With any [max_order] it ends within [len(K[i,j,:]) - 1]
    passes, because a pass at an order above the number of singular values
    of the Hankel matrix raises; so with [max_order < 2] and no order
    meeting the threshold neither stop test fires and the loop is left by
    that exception, at an order of at most [len(K[i,j,:])], instead of
    running for ever. *)
Theorem order_search_terminates (fuel : nat) (K_ij : list F) (dt : F)
    (numFreq : nat) (r2bt : F) (max_order : nat) (r2_thresh : F) :
  (2 <= max_order /\ max_order - 1 <= fuel) \/
  (1 <= fuel /\ length K_ij - 1 <= fuel) ->
  exists out ss,
    order_search fuel K_ij dt numFreq r2bt max_order r2_thresh 2 = Some out /\
    2 <= ss /\
    (forall k, 2 <= k < ss ->
       passed_over K_ij dt numFreq r2bt max_order r2_thresh k) /\
    stops_at K_ij dt numFreq r2bt max_order r2_thresh ss out /\
    (2 <= max_order -> ss <= max_order /\ ss - 2 <= max_order - 2) /\
    (max_order < 2 ->
     (forall k r, realization_at K_ij dt numFreq r2bt k = OK r ->
        fge (R2T r) r2_thresh = false) ->
     exists e, out = Raise e /\ ss <= max 2 (length K_ij)).
Proof.
  intros Hfuel.
  assert (Hsome : is_Some
    (order_search fuel K_ij dt numFreq r2bt max_order r2_thresh 2)).
  { destruct Hfuel as [[Hmax Hfuel]|Hfuel].
    - apply order_search_reaches_max_order; lia.
    - apply order_search_reaches_rank; lia. }
  destruct Hsome as [out Hout]. pose proof Hout as Hspec.
  apply order_search_spec in Hspec as (ss & Hss & Hbefore & Hstop).
  exists out, ss. split; [exact Hout|]. split; [lia|].
  split; [exact Hbefore|]. split; [exact Hstop|]. split.
  - intros Hmax. assert (ss <= max_order); [|lia].
    destruct (decide (ss <= max_order)) as [|Hgt]; [assumption|].
    destruct (Hbefore max_order) as (_ & _ & _ & Hne); [lia|]. congruence.
  - intros Hmax Hmiss. destruct out as [[[r status] order]|e].
    + destruct Hstop as (_ & Hpass & [[_ Hfit]|(_ & _ & Hmo)]).
      * rewrite (Hmiss _ _ Hpass) in Hfit. discriminate.
      * lia.
    + exists e. split; [reflexivity|].
      destruct (decide (ss = 2)) as [->|Hne]; [lia|].
      assert (Hprev : 2 <= ss - 1 < ss) by lia.
      pose proof (passed_over_rank _ _ _ _ _ _ _ (Hbefore _ Hprev)). lia.
Qed.

(** ** The bilinear transform *)

(** The substitution as the specification states it (section 4.3, step 5):
    with [M = inv(dt/2 I - (-dt/2) a)], [ac = (a - I) M],
    [bc = (dt/2 * 1 - (-dt/2) * 1) M b], [cc = c M] and
    [dc = d + (-dt/2) c M b]. *)
Definition bilinear_substitution (dt : F) (ss : nat) (a b c : matrix F) (d : F)
  : result (matrix F * matrix F * matrix F * matrix F) :=
  let I := eye ss in
  let half := (dt / of_nat 2)%fl in
  m ← broadcast2 fsub (mmap (fmul half) I) (mmap (fmul (- half)%fl) a);
  M ← inv m;
  a_I ← broadcast2 fsub a I;
  ac ← dot a_I M;
  Mb ← dot M b;
  cM ← dot c M;
  cMb ← dot cM b;
  OK (ac,
      mmap (fmul (half * of_nat 1 - (- half) * of_nat 1)%fl) Mb,
      cM,
      mmap (fun x => (d + (- half) * x)%fl) cMb).

Lemma mmap_id (g : F -> F) (a : matrix F) : (forall x, g x = x) -> mmap g a = a.
Proof.
  intros Hg. unfold mmap. rewrite <- (list_fmap_id a) at 2.
  apply list_fmap_ext. intros _ r _. rewrite <- (list_fmap_id r) at 2.
  apply list_fmap_ext. intros _ x _. apply Hg.
Qed.

(** C6. At every candidate order the continuous-time matrices are the
    bilinear substitution of the discrete realization with the coefficients
    [(dt/2, 1, -dt/2, 1)]: the code's transform is [bilinear_substitution],
    and a pass of the search applies it to the discrete realization of its
    order. The one law of the arithmetic used is [1 * x = x]. *)
Theorem bilinear_is_substitution :
  (forall x : F, (of_nat 1 * x)%fl = x) ->
  (forall dt ss a b c d,
     bilinear dt ss a b c d = bilinear_substitution dt ss a b c d) /\
  (forall K_ij dt numFreq r2bt ss r,
     realization_at K_ij dt numFreq r2bt ss = OK r ->
     exists a b c d,
       discrete_realization K_ij dt numFreq ss = OK (a, b, c, d) /\
       bilinear_substitution dt ss a b c d = OK (ac r, bc r, cc r, dc r)).
Proof.
  intros Hone.
  assert (Heq : forall dt ss a b c d,
    bilinear dt ss a b c d = bilinear_substitution dt ss a b c d).
  { intros dt ss a b c d. unfold bilinear, bilinear_substitution.
    rewrite !(mmap_id (fmul (of_nat 1))) by exact Hone.
    unfold mbind, result_bind, rbind.
    destruct (broadcast2 fsub _ _) as [m|]; [|reflexivity].
    destruct (inv m) as [M|]; [|reflexivity].
    destruct (broadcast2 fsub a (eye ss)) as [a_I|]; [|reflexivity].
    destruct (dot a_I M) as [ac'|]; [|reflexivity].
    destruct (dot M b) as [Mb|]; [|reflexivity].
    destruct (dot c M) as [cM|]; [|reflexivity].
    destruct (dot cM b) as [cMb|]; reflexivity. }
  split; [exact Heq|].
  intros K_ij dt numFreq r2bt ss r.
  unfold realization_at, mbind, result_bind, rbind.
  destruct (discrete_realization _ _ _ _) as [[[[a b] c] d]|]; [|discriminate].
  rewrite Heq.
  destruct (bilinear_substitution _ _ _ _ _ _) as [[[[ac' bc'] cc'] dc']|]
    eqn:Hsub; [|discriminate].
  destruct (impulse_response _ _ _ _ _) as [k|]; [|discriminate].
  destruct (fit_quality _ _ _) as [q|]; [|discriminate].
  intros [= <-]. exists a, b, c, d. split; [reflexivity|exact Hsub].
Qed.
End Properties.

(** * The properties on the concrete stores *)

(** The impulse response of the radiation on [ascending_store]. *)
Lemma calc_irf_radiation_kernels_ascending_store :
  exists self',
    calc_irf_radiation 1%R 2 2 ascending_store = (self', OK tt) /\
    exists lo hi K L,
      np_min (w ascending_store) = OK lo /\
      np_max (w ascending_store) = OK hi /\
      rd_irf self' =
        {| rd_irf_t := Some (linspace 0%R 1%R 2);
           rd_irf_w := Some (linspace lo hi 2);
           rd_irf_L := Some L; rd_irf_K := Some K |} /\
      linearly_spaced 0%R 1%R 2 (linspace 0%R 1%R 2) /\
      linearly_spaced lo hi 2 (linspace lo hi 2) /\
      forall i j k t,
        i < shape0 (rd_all ascending_store) ->
        j < shape1 (rd_all ascending_store) ->
        linspace 0%R 1%R 2 !! k = Some t ->
        exists slice rd,
          getitem2 (rd_all ascending_store) i j = OK slice /\
          resample (w ascending_store) slice (linspace lo hi 2) = OK rd /\
          lookup3 K i j k = Some (spec_K rd (linspace lo hi 2) t) /\
          lookup3 L i j k = Some (spec_L rd (linspace lo hi 2) t).
Proof.
  destruct ascending_store_radiation as [self' Hrun]. exists self'.
  split; [exact Hrun|].
  exact (calc_irf_radiation_kernels ascending_store self' 1%R 2 2 Hrun).
Defined.

(** Both impulse responses fail on [one_point_store]. *)
Lemma irf_short_grid_fails_one_point_store :
  length (w one_point_store) < 2 /\
  exists e,
    (calc_irf_radiation 1%R 2 2 one_point_store).2 = Raise e /\
    (calc_irf_excitation 1%R 2 2 one_point_store).2 = Raise e /\
    e = short_grid_error (w one_point_store) /\
    signals e = None.
Proof.
  assert (Hlen : length (w one_point_store) < 2) by (simpl; lia).
  split; [exact Hlen|].
  exact (irf_short_grid_fails one_point_store 1%R 1%R 2 2 2 2 Hlen).
Defined.

(** On [one_point_store] the radiation impulse response stops on Python's
    [IndexError], which is not an [InsufficientDataError]. *)
Lemma one_point_grid_raises_IndexError :
  (calc_irf_radiation 1%R 2 2 one_point_store).2 = Raise IndexError /\
  (calc_irf_excitation 1%R 2 2 one_point_store).2 = Raise IndexError /\
  signals IndexError <> Some InsufficientDataError.
Proof.
  split; [|split]; [real_run lra; reflexivity..|discriminate].
Qed.


(** A store with one radiation kernel on four time samples, so that the
    Hankel matrix of the kernel has three singular values and the orders 2
    and 3 can both be tried. *)
Definition long_kernel_store : HydrodynamicData R :=
  {| w := [1; 2]%R; am_inf := [[0%R]]; rd_all := [[[3; 4]%R]]; rd_im := None;
     ex_re := [[[3; 0]%R]]; ex_im := [[[4; 3]%R]]; ex_mag := [[[5; 3]%R]];
     ex_irf := {| ex_irf_t := None; ex_irf_w := None; ex_irf_f := None |};
     rd_irf := {| rd_irf_t := Some [0; 1; 2; 3]%R; rd_irf_w := None;
                  rd_irf_L := None; rd_irf_K := Some [[[1; 0; 0; 0]%R]] |};
     rd_ss := None |}.

Lemma reference_norm_long_impulse : reference_norm [1; 0; 0; 0]%R <> 0%R.
Proof.
  cbv -[Rplus Rminus Rmult Rdiv Ropp Rinv sqrt IZR].
  apply Rgt_not_eq, sqrt_lt_R0. lra.
Qed.

(** The passes at the orders 2 and 3 on that kernel, and the reduction of
    the store with at most three states, with the computable library. *)
Lemma long_kernel_passes :
  exists r2 r3,
    realization_at (H0 := Unit_Library) [1; 0; 0; 0]%R (2 - 1)%R 4
      (reference_norm [1; 0; 0; 0]%R) 2 = OK r2 /\
    realization_at (H0 := Unit_Library) [1; 0; 0; 0]%R (2 - 1)%R 4
      (reference_norm [1; 0; 0; 0]%R) 3 = OK r3.
Proof. do 2 eexists. split; real_eval; reflexivity. Qed.

Lemma long_kernel_store_reduced :
  exists self',
    calc_ss_radiation (H0 := Unit_Library) 2 3 2%R long_kernel_store
    = (self', Some (OK tt)).
Proof.
  eexists.
  real_run ltac:(first [ now apply reference_norm_long_impulse | nra ]).
  reflexivity.
Qed.

(** On [long_kernel_store] with [max_order = 3] and a threshold no order
    can meet, the order 2 is passed over and the search stops at the order
    3 with status 2, which the method records; with the fit quality of the
    order 2 as threshold, the search stops there with status 1. *)
Lemma order_search_first_fit_long_kernel_store :
  exists r2 r3 self',
    realization_at (H0 := Unit_Library) [1; 0; 0; 0]%R (2 - 1)%R 4
      (reference_norm [1; 0; 0; 0]%R) 2 = OK r2 /\
    realization_at (H0 := Unit_Library) [1; 0; 0; 0]%R (2 - 1)%R 4
      (reference_norm [1; 0; 0; 0]%R) 3 = OK r3 /\
    rd_irf_t (rd_irf long_kernel_store) = Some [0; 1; 2; 3]%R /\
    [0; 1; 2; 3]%R !! 1 = Some 1%R /\ [0; 1; 2; 3]%R !! 2 = Some 2%R /\
    0 < shape0 (am_inf long_kernel_store) /\
    0 < shape1 (am_inf long_kernel_store) /\
    (K ← getattr (rd_irf_K (rd_irf long_kernel_store)); getitem2 K 0 0)
    = OK [1; 0; 0; 0]%R /\
    fne (reference_norm [1; 0; 0; 0]%R) 0%R = true /\
    (2 <= 3 /\ 3 - 1 <= 2) /\
    (forall k, 2 <= k < 3 ->
       exists r,
         realization_at (H0 := Unit_Library) [1; 0; 0; 0]%R (2 - 1)%R 4
           (reference_norm [1; 0; 0; 0]%R) k = OK r /\
         fge (R2T r) 2%R = false /\ k <> 3) /\
    order_search (H0 := Unit_Library) 2 [1; 0; 0; 0]%R (2 - 1)%R 4
      (reference_norm [1; 0; 0; 0]%R) 3 2%R 2 = Some (OK (r3, 2, 3)) /\
    calc_ss_radiation (H0 := Unit_Library) 2 3 2%R long_kernel_store
    = (self', Some (OK tt)) /\
    (exists s,
       rd_ss self' = Some s /\
       lookup2 (ss_it s) 0 0 = Some (INR 3) /\
       lookup2 (ss_rad_conv s) 0 0 = Some (INR 2) /\
       lookup2 (ss_r2t s) 0 0 = Some (R2T r3)) /\
    (2 <= 2 /\ 2 - 1 <= 2) /\
    order_search (H0 := Unit_Library) 2 [1; 0; 0; 0]%R (2 - 1)%R 4
      (reference_norm [1; 0; 0; 0]%R) 3 (R2T r2) 2 = Some (OK (r2, 1, 2)).
Proof.
  destruct long_kernel_passes as (r2 & r3 & Hr2 & Hr3).
  destruct long_kernel_store_reduced as [self' Hrun].
  exists r2, r3, self'.
  assert (Ht : rd_irf_t (rd_irf long_kernel_store) = Some [0; 1; 2; 3]%R)
    by reflexivity.
  assert (Ht1 : [0; 1; 2; 3]%R !! 1 = Some 1%R) by reflexivity.
  assert (Ht2 : [0; 1; 2; 3]%R !! 2 = Some 2%R) by reflexivity.
  assert (Hi : 0 < shape0 (am_inf long_kernel_store)) by (cbn; lia).
  assert (Hj : 0 < shape1 (am_inf long_kernel_store)) by (cbn; lia).
  assert (HK :
    (K ← getattr (rd_irf_K (rd_irf long_kernel_store)); getitem2 K 0 0)
    = OK [1; 0; 0; 0]%R) by reflexivity.
  assert (Hdeg : fne (reference_norm [1; 0; 0; 0]%R) 0%R = true).
  { cbn. destruct (Req_dec_T _ _) as [He|]; [|reflexivity].
    destruct (reference_norm_long_impulse He). }
  assert (Hmiss : forall r k,
    realization_at (H0 := Unit_Library) [1; 0; 0; 0]%R (2 - 1)%R 4
      (reference_norm [1; 0; 0; 0]%R) k = OK r -> fge (R2T r) 2%R = false)
    by (intros r k; apply (fit_quality_below_two (H := Unit_Library))).
  assert (Hss3 : 2 <= 3) by lia. assert (Hfuel3 : 3 - 1 <= 2) by lia.
  assert (Hss2 : 2 <= 2) by lia. assert (Hfuel2 : 2 - 1 <= 2) by lia.
  assert (Hbefore3 : forall k, 2 <= k < 3 ->
    exists r,
      realization_at (H0 := Unit_Library) [1; 0; 0; 0]%R (2 - 1)%R 4
        (reference_norm [1; 0; 0; 0]%R) k = OK r /\
      fge (R2T r) 2%R = false /\ k <> 3).
  { intros k Hk. assert (k = 2) as -> by lia. exists r2.
    split; [exact Hr2|]. split; [exact (Hmiss _ _ Hr2)|lia]. }
  assert (Hbefore2 : forall k, 2 <= k < 2 ->
    exists r,
      realization_at (H0 := Unit_Library) [1; 0; 0; 0]%R (2 - 1)%R 4
        (reference_norm [1; 0; 0; 0]%R) k = OK r /\
      fge (R2T r) (R2T r2) = false /\ k <> 3) by (intros k Hk; lia).
  assert (Hfit2 : fge (R2T r2) (R2T r2) = true).
  { cbn. destruct (Rge_dec _ _) as [_|Hn]; [reflexivity|].
    destruct Hn. apply Rge_refl. }
  pose proof (order_search_first_fit (H0 := Unit_Library) 2 3 2%R
                long_kernel_store [0; 1; 2; 3]%R 1%R 2%R 0 0 [1; 0; 0; 0]%R 3
                Ht Ht1 Ht2 Hi Hj HK Hdeg Hss3 Hfuel3 Hbefore3)
    as (_ & _ & _ & Hlimit & _ & _ & _ & _ & Hreturn).
  pose proof (order_search_first_fit (H0 := Unit_Library) 2 3 (R2T r2)
                long_kernel_store [0; 1; 2; 3]%R 1%R 2%R 0 0 [1; 0; 0; 0]%R 2
                Ht Ht1 Ht2 Hi Hj HK Hdeg Hss2 Hfuel2 Hbefore2)
    as (_ & _ & Hfirst & _).
  destruct (Hlimit r3 Hr3 (Hmiss _ _ Hr3) eq_refl) as [Hsearch _].
  destruct (Hreturn self' Hrun)
    as (s & r & status & order & Hs & Hsearch' & Hit & Hconv & Hr2t &
        Hge & Hle & _).
  assert (Horder : order = 3) by lia. subst order.
  rewrite Hsearch in Hsearch'. injection Hsearch' as <- <-.
  repeat (split; [assumption || (split; assumption)|]).
  split; [exists s; repeat split; assumption|].
  split; [split; assumption|].
  exact (Hfirst r2 Hr2 Hfit2).
Defined.

(** With the default [max_order = 10] the kernel [[1; 0; 0]] of
    [kernel_store] has fewer singular values than the limit: with a
    threshold no order can meet, the search does not stop with status 2;
    it is left by an exception and so is the method, whatever the
    library. *)
Lemma order_limit_above_rank_raises :
  fne (reference_norm [1; 0; 0]%R) 0%R = true /\
  length [1; 0; 0]%R - 1 < 10 /\
  (forall k r,
     realization_at [1; 0; 0]%R (2 - 1)%R 3 (reference_norm [1; 0; 0]%R) k
     = OK r -> fge (R2T r) 2%R = false) /\
  (exists e,
     order_search 2 [1; 0; 0]%R (2 - 1)%R 3 (reference_norm [1; 0; 0]%R)
       10 2%R 2 = Some (Raise e)) /\
  exists self' e,
    calc_ss_radiation 2 10 2%R kernel_store = (self', Some (Raise e)).
Proof.
  assert (Hdeg : fne (reference_norm [1; 0; 0]%R) 0%R = true).
  { cbn. destruct (Req_dec_T _ _) as [He|]; [|reflexivity].
    destruct (reference_norm_impulse He). }
  assert (Hmiss : forall k r,
    realization_at [1; 0; 0]%R (2 - 1)%R 3 (reference_norm [1; 0; 0]%R) k
    = OK r -> fge (R2T r) 2%R = false)
    by (intros k r; apply fit_quality_below_two).
  assert (Hraise : exists e,
    order_search 2 [1; 0; 0]%R (2 - 1)%R 3 (reference_norm [1; 0; 0]%R)
      10 2%R 2 = Some (Raise e)).
  { apply order_search_raises_beyond_rank;
      [left; simpl; lia|lia|simpl; lia|exact Hmiss]. }
  split; [exact Hdeg|]. split; [simpl; lia|]. split; [exact Hmiss|].
  split; [exact Hraise|].
  destruct Hraise as [e Hraise].
  eexists _, e.
  change (calc_ss_radiation 2 10 2%R kernel_store) with
    (let '(s, o) :=
       for_fuel [0] (fun i =>
         for_fuel [0; 1] (fun j =>
           reduce_pair 2 kernel_store (2 - 1)%R 3 10 2%R i j))
         (empty_realization 2 3 10) in
     (set_rd_ss s kernel_store, o)).
  cbn [for_fuel].
  rewrite (reduce_pair_degenerate 2 kernel_store (2 - 1)%R 3 10 2%R 0 0
             [1; 1; 1]%R); [|reflexivity|].
  2:{ cbn. destruct (Req_dec_T _ _) as [|Hn]; [reflexivity|].
      destruct Hn. apply reference_norm_constant. }
  assert (Hpair : forall s,
    reduce_pair 2 kernel_store (2 - 1)%R 3 10 2%R 0 1 s
    = (s, Some (Raise e))).
  { intros s. unfold reduce_pair.
    change (K ← getattr (rd_irf_K (rd_irf kernel_store)); getitem2 K 0 1)
      with (OK [1; 0; 0]%R : result (list R)).
    cbv beta iota zeta.
    assert (Hdeg' : fne (reference_norm [1; 0; 0]%R) (of_nat 0) = true)
      by exact Hdeg.
    rewrite Hdeg'. now rewrite Hraise. }
  rewrite Hpair. reflexivity.
Qed.

Lemma state_matrices_leading_block_kernel_store :
  exists self',
    calc_ss_radiation (H0 := Unit_Library) 1 2 2%R kernel_store
    = (self', Some (OK tt)) /\
    exists s,
      rd_ss self' = Some s /\
      forall i j, i < 6 -> j < shape1 (am_inf kernel_store) ->
        exists e order,
          entries_at s i j = Some e /\ e_it e = INR order /\
          leading_block 2 order e.
Proof.
  destruct kernel_store_reduced as [self' Hrun]. exists self'.
  split; [exact Hrun|].
  exact (state_matrices_leading_block (H0 := Unit_Library) 1 2 2%R
           kernel_store self' Hrun).
Defined.

(** The bilinear transform over the reals, where [1 * x = x]. *)
Lemma bilinear_is_substitution_reals :
  (forall x : R, (INR 1 * x)%R = x) /\
  (forall dt ss a b c d,
     bilinear (F := R) dt ss a b c d = bilinear_substitution dt ss a b c d) /\
  (forall K_ij dt numFreq r2bt ss r,
     realization_at (F := R) K_ij dt numFreq r2bt ss = OK r ->
     exists a b c d,
       discrete_realization K_ij dt numFreq ss = OK (a, b, c, d) /\
       bilinear_substitution dt ss a b c d = OK (ac r, bc r, cc r, dc r)).
Proof.
  assert (Hone : forall x : R, (INR 1 * x)%R = x) by (intros x; simpl; lra).
  split; [exact Hone|].
  exact (bilinear_is_substitution (F := R) Hone).
Defined.

(** C1. Feeding the descending grid does not give what the ascending
    equivalent gives. [descending_store] has a strictly descending grid
    and [ascending_store] is its equivalent, the grid and every slice
    reversed. [calc_irf_radiation] returns on both and leaves the same
    [rd.irf]; [calc_irf_excitation] returns on the ascending store, but on
    the descending one it raises [AttributeError] and leaves [ex.irf.f]
    all zero, because the branch of a descending grid (line 142) reverses
    [self.rd.im[i,j,:]] where the specification reverses
    [self.ex.im[i,j,:]]. *)
Theorem descending_grid_excitation_diverges :
  strictly_descending (w descending_store) /\
  ascending_equivalent descending_store = ascending_store /\
  (calc_irf_radiation 1%R 2 2 descending_store).2 = OK tt /\
  rd_irf (calc_irf_radiation 1%R 2 2 descending_store).1
  = rd_irf (calc_irf_radiation 1%R 2 2 ascending_store).1 /\
  (calc_irf_excitation 1%R 2 2 ascending_store).2 = OK tt /\
  (calc_irf_excitation 1%R 2 2 descending_store).2 = Raise AttributeError /\
  ex_irf_f (ex_irf (calc_irf_excitation 1%R 2 2 descending_store).1)
  = Some (zeros3 1 1 2).
Proof.
  split.
  { intros [|[|k]] x y; simpl; try discriminate. intros [= <-] [= <-].
    cbn. destruct (Rgt_dec 2 1); [reflexivity|lra]. }
  split; [reflexivity|].
  destruct descending_store_radiation as (rd & -> & Hrd).
  destruct ascending_store_excitation as (ex & ->).
  destruct descending_store_excitation as (ex' & -> & Hf).
  repeat split; assumption.
Qed.

(** C5. On a descending grid the imaginary channel of the quadrature is
    not the excitation's. On [descending_store_rd_im] the method returns,
    and [f[0,0,1]] is not the quadrature of
    [(1/pi) (re(w) cos(w t) - im(w) sin(w t))] at [t = 1] with [re] and
    [im] the resamplings of [ex.re[0,0,:]] and [ex.im[0,0,:]]: line 142
    took [rd.im[0,0,:]] for the imaginary slice. On [descending_store],
    where [rd.im] does not exist, the method raises [AttributeError] and
    computes no [f] at all. *)
Theorem excitation_kernel_reads_radiation_channel :
  exists self' f re_slice im_slice re im,
    calc_irf_excitation 1%R 2 2 descending_store_rd_im = (self', OK tt) /\
    ex_irf_t (ex_irf self') = Some [-1; 1]%R /\
    ex_irf_w (ex_irf self') = Some [1; 2]%R /\
    ex_irf_f (ex_irf self') = Some f /\
    getitem2 (ex_re descending_store_rd_im) 0 0 = OK re_slice /\
    getitem2 (ex_im descending_store_rd_im) 0 0 = OK im_slice /\
    resample (w descending_store_rd_im) re_slice [1; 2]%R = OK re /\
    resample (w descending_store_rd_im) im_slice [1; 2]%R = OK im /\
    lookup3 f 0 0 1 <> Some (spec_f re im [1; 2]%R 1%R) /\
    (calc_irf_excitation 1%R 2 2 descending_store).2 = Raise AttributeError.
Proof.
  do 6 eexists.
  split; [real_run lra; reflexivity|].
  split; [cbn; do 2 f_equal; lra|].
  split; [cbn; do 2 f_equal; lra|].
  split; [reflexivity|].
  split; [reflexivity|].
  split; [reflexivity|].
  split; [real_run lra; reflexivity|].
  split; [real_run lra; reflexivity|].
  split;
    [|destruct descending_store_excitation as (ex' & -> & _); reflexivity].
  real_run lra. intros [= Heq].
  replace (2 * 1)%R with 2%R in Heq by lra.
  replace (1 * 1)%R with 1%R in Heq by lra.
  replace ((0 * ((2 - 1) / 1) + 1) * 1)%R with 1%R in Heq by lra.
  pose proof PI2_1 as Hpi. pose proof PI_RGT_0 as Hpi0.
  assert (Hs1 : (0 < sin 1)%R) by (apply sin_gt_0; lra).
  assert (Hs2 : (0 < sin 2)%R) by (apply sin_gt_0; lra).
  assert (HP : (0 < 1 / PI)%R) by (apply Rdiv_lt_0_compat; lra).
  pose proof (Rmult_lt_0_compat _ _ Hs1 HP) as H1.
  pose proof (Rmult_lt_0_compat _ _ Hs2 HP) as H2.
  revert Heq H1 H2. generalize (1 / PI)%R (sin 1) (sin 2) (cos 1) (cos 2).
  intros P s1 s2 c1 c2 Heq H1 H2. lra.
Qed.

(** The search with the defaults of the method, [max_order = 10] and
    [r2_thresh = 0.95], on nine passes. *)
Lemma order_search_terminates_defaults :
  ((2 <= 10 /\ 10 - 1 <= 9) \/
   (1 <= 9 /\ length [1; 0; 0]%R - 1 <= 9)) /\
  exists out ss,
    order_search 9 [1; 0; 0]%R 1%R 3 (reference_norm [1; 0; 0]%R) 10
      (95 / 100)%R 2 = Some out /\
    2 <= ss /\
    (forall k, 2 <= k < ss ->
       passed_over [1; 0; 0]%R 1%R 3 (reference_norm [1; 0; 0]%R) 10
         (95 / 100)%R k) /\
    stops_at [1; 0; 0]%R 1%R 3 (reference_norm [1; 0; 0]%R) 10
      (95 / 100)%R ss out /\
    (2 <= 10 -> ss <= 10 /\ ss - 2 <= 10 - 2) /\
    (10 < 2 ->
     (forall k r,
        realization_at [1; 0; 0]%R 1%R 3 (reference_norm [1; 0; 0]%R) k = OK r ->
        fge (R2T r) (95 / 100)%R = false) ->
     exists e, out = Raise e /\ ss <= max 2 (length [1; 0; 0]%R)).
Proof.
  assert (Hfuel : (2 <= 10 /\ 10 - 1 <= 9) \/
                  (1 <= 9 /\ length [1; 0; 0]%R - 1 <= 9)) by (left; lia).
  split; [exact Hfuel|].
  exact (order_search_terminates 9 [1; 0; 0]%R 1%R 3
           (reference_norm [1; 0; 0]%R) 10 (95 / 100)%R Hfuel).
Defined.

(** With [max_order = 1] and a threshold no order can meet, the search of
    a non-degenerate kernel of three samples is over after two passes: it
    is left by an exception. *)
Lemma order_search_exits_below_order_two :
  1 < 2 /\
  fne (reference_norm [1; 0; 0]%R) 0%R = true /\
  (forall k r,
     realization_at [1; 0; 0]%R 1%R 3 (reference_norm [1; 0; 0]%R) k = OK r ->
     fge (R2T r) 2%R = false) /\
  exists e,
    order_search 2 [1; 0; 0]%R 1%R 3 (reference_norm [1; 0; 0]%R) 1 2%R 2
    = Some (Raise e).
Proof.
  split; [lia|]. split.
  { cbn. destruct (Req_dec_T _ _) as [He|]; [|reflexivity].
    destruct (reference_norm_impulse He). }
  split; [intros k r; apply fit_quality_below_two|].
  apply order_search_leaves_by_exception; [lia|lia|simpl; lia|].
  intros k r. apply fit_quality_below_two.
Qed.

(** * Further properties of the methods *)

(** ** Shapes and loops *)

(** [a] is an [n] by [m] by [k] array. *)
Definition has_shape3 {F} (n m k : nat) (a : tensor3 F) : Prop :=
  length a = n /\ Forall (has_shape m k) a.

Section ShapeLemmas.
Context {F : Type} `{Scalar F}.

Lemma has_shape3_zeros3 n m k : has_shape3 n m k (zeros3 n m k : tensor3 F).
Proof.
  split; [apply length_replicate|].
  apply Forall_forall. intros row [-> _]%elem_of_replicate.
  apply has_shape_zeros2.
Qed.

Lemma has_shape3_lookup n m k (a : tensor3 F) i j x :
  has_shape3 n m k a -> lookup2 a i j = Some x ->
  i < n /\ j < m /\ length x = k.
Proof.
  intros [Hn Hrows]. unfold lookup2.
  destruct (a !! i) as [row|] eqn:Hrow; [|discriminate]. simpl. intros Hx.
  pose proof (lookup_lt_Some _ _ _ Hrow) as Hi.
  destruct (proj1 (Forall_lookup _ _) Hrows _ _ Hrow) as [Hm Hcols].
  pose proof (lookup_lt_Some _ _ _ Hx) as Hj.
  split; [lia|]. split; [lia|].
  exact (proj1 (Forall_lookup _ _) Hcols _ _ Hx).
Qed.

Lemma has_shape3_lookup_Some n m k (a : tensor3 F) i j :
  has_shape3 n m k a -> i < n -> j < m ->
  exists x, lookup2 a i j = Some x /\ length x = k.
Proof.
  intros [Hn Hrows] Hi Hj. unfold lookup2.
  destruct (lookup_lt_is_Some_2 a i) as [row Hrow]; [lia|].
  destruct (proj1 (Forall_lookup _ _) Hrows _ _ Hrow) as [Hm Hcols].
  destruct (lookup_lt_is_Some_2 row j) as [x Hx]; [lia|].
  exists x. rewrite Hrow. simpl. split; [exact Hx|].
  exact (proj1 (Forall_lookup _ _) Hcols _ _ Hx).
Qed.

Lemma setitem3_has_shape3 n m k (a a' : tensor3 F) i j l x :
  setitem3 a i j l x = OK a' -> has_shape3 n m k a -> has_shape3 n m k a'.
Proof.
  unfold setitem3, setitem2, getitem2, mbind, result_bind, rbind.
  intros Hset [Hn Hrows].
  destruct (getitem a i) as [row|] eqn:Hrow; [|discriminate].
  apply getitem_OK in Hrow.
  destruct (getitem row j) as [v|] eqn:Hv; [|discriminate].
  apply getitem_OK in Hv.
  destruct (setitem v l x) as [v'|] eqn:Hv'; [|discriminate].
  apply setitem_OK in Hv' as [Hl ->].
  destruct (setitem row j _) as [row'|] eqn:Hrow'; [|discriminate].
  apply setitem_OK in Hrow' as [Hj ->].
  apply setitem_OK in Hset as [Hi ->].
  destruct (proj1 (Forall_lookup _ _) Hrows _ _ Hrow) as [Hm Hcols].
  split; [now rewrite length_insert|].
  apply Forall_insert; [exact Hrows|].
  split; [now rewrite length_insert|].
  apply Forall_insert; [exact Hcols|].
  rewrite length_insert. exact (proj1 (Forall_lookup _ _) Hcols _ _ Hv).
Qed.

(** A property that every pass of a loop keeps holds when the loop ends,
    also when it ends on an exception. *)
Lemma for_invariant {S X} (P : S -> Prop) (body : X -> S -> S * result unit)
    (xs : list X) :
  (forall x s s' r, P s -> body x s = (s', r) -> P s') ->
  forall s s' r, P s -> for_ xs body s = (s', r) -> P s'.
Proof.
  intros Hbody. induction xs as [|x xs IH]; intros s s' r Hs; simpl.
  - now intros [= <- _].
  - destruct (body x s) as [s1 [[]|e]] eqn:Hx.
    + apply IH. exact (Hbody _ _ _ _ Hs Hx).
    + intros [= <- _]. exact (Hbody _ _ _ _ Hs Hx).
Qed.

Lemma try_update_invariant {S} (P : S -> Prop) (g : S -> result S) s s' r :
  (forall s1, g s = OK s1 -> P s1) -> P s -> try_update g s = (s', r) -> P s'.
Proof.
  unfold try_update. intros Hg Hs. destruct (g s) as [s1|e]; intros [= <- _]; auto.
Qed.
End ShapeLemmas.

Section IRFShapes.
Context {F : Type} `{Scalar F} `{Library F}.

(** The loop of [calc_irf_radiation] keeps the shape of [K] and of [L],
    however it ends. *)
Definition both_shaped (n m k : nat) (KL : tensor3 F * tensor3 F) : Prop :=
  has_shape3 n m k KL.1 /\ has_shape3 n m k KL.2.

Lemma radiation_loop_shape n m k s0 s1 rd_interp irf_t irf_w
    (KL KL' : tensor3 F * tensor3 F) r :
  both_shaped n m k KL ->
  radiation_loop s0 s1 rd_interp irf_t irf_w KL = (KL', r) ->
  both_shaped n m k KL'.
Proof.
  unfold radiation_loop. apply (for_invariant (both_shaped n m k)).
  intros [t_ind t] s s' r'. apply (for_invariant (both_shaped n m k)).
  intros i s1' s2' r2. apply (for_invariant (both_shaped n m k)).
  intros j [K L] s3 r3 [HK HL]. unfold radiation_step. cbn [fst snd] in *.
  destruct (getitem2 rd_interp i j) as [rd_ij|];
    [|intros [= <- _]; now split].
  destruct (setitem3 K _ _ _ _) as [K'|] eqn:HK';
    [|intros [= <- _]; now split].
  pose proof (setitem3_has_shape3 _ _ _ _ _ _ _ _ _ HK' HK).
  destruct (setitem3 L _ _ _ _) as [L'|] eqn:HL';
    [|intros [= <- _]; now split].
  pose proof (setitem3_has_shape3 _ _ _ _ _ _ _ _ _ HL' HL).
  intros [= <- _]. now split.
Qed.

Lemma excitation_loop_shape n m k s0 s1 re_i im_i irf_t irf_w (f f' : tensor3 F) r :
  has_shape3 n m k f ->
  excitation_loop s0 s1 re_i im_i irf_t irf_w f = (f', r) ->
  has_shape3 n m k f'.
Proof.
  unfold excitation_loop. apply (for_invariant (has_shape3 n m k)).
  intros [t_ind t] s s' r'. apply (for_invariant (has_shape3 n m k)).
  intros i s1' s2' r2. apply (for_invariant (has_shape3 n m k)).
  intros j g g' r3 Hg. apply (try_update_invariant (has_shape3 n m k)); [|exact Hg].
  intros f1. unfold excitation_step, mbind, result_bind, rbind.
  destruct (getitem2 re_i i j); [|discriminate].
  destruct (getitem2 im_i i j); [|discriminate].
  intros Hset. exact (setitem3_has_shape3 _ _ _ _ _ _ _ _ _ Hset Hg).
Qed.

(** What a run of [calc_irf_radiation] that returns went through. *)
Lemma calc_irf_radiation_run (self self' : HydrodynamicData F) t_end n_t n_w :
  calc_irf_radiation t_end n_t n_w self = (self', OK tt) ->
  exists lo hi w0 w1 rd_interp K L,
    let irf_t := linspace (of_nat 0) t_end n_t in
    let irf_w := linspace lo hi n_w in
    let zs := zeros3 (shape0 (am_inf self)) (shape1 (am_inf self)) n_t in
    np_min (w self) = OK lo /\ np_max (w self) = OK hi /\
    getitem (w self) 0 = OK w0 /\ getitem (w self) 1 = OK w1 /\
    interp_radiation self (fgt w0 w1)
      (if fgt w0 w1 then flipud (w self) else w self) irf_w = OK rd_interp /\
    radiation_loop (shape0 (rd_all self)) (shape1 (rd_all self))
      rd_interp irf_t irf_w (zs, zs) = ((K, L), OK tt) /\
    self' = set_rd_irf (fun _ =>
              {| rd_irf_t := Some irf_t; rd_irf_w := Some irf_w;
                 rd_irf_L := Some L; rd_irf_K := Some K |}) self.
Proof.
  unfold calc_irf_radiation, mbind, M_bind, modify, get, lift,
    in_place_rd_irf_KL.
  cbn [rd_irf set_rd_irf_K set_rd_irf_L set_rd_irf_w set_rd_irf_t set_rd_irf
       rd_irf_K rd_irf_L rd_irf_t rd_irf_w w am_inf rd_all].
  rewrite linspace_length.
  destruct (np_min (w self)) as [lo|] eqn:Hlo; [|discriminate].
  destruct (np_max (w self)) as [hi|] eqn:Hhi; [|discriminate].
  destruct (getitem (w self) 0) as [w0|] eqn:Hw0; [|discriminate].
  destruct (getitem (w self) 1) as [w1|] eqn:Hw1; [|discriminate].
  change (interp_radiation (set_rd_irf_t (linspace (of_nat 0) t_end n_t) self))
    with (interp_radiation self).
  destruct (interp_radiation _ _ _ _) as [rd_interp|] eqn:Hinterp;
    [|discriminate].
  destruct (radiation_loop _ _ rd_interp _ _ _) as [[K L] r] eqn:Hloop.
  intros [= <- ->]. exists lo, hi, w0, w1, rd_interp, K, L. cbv zeta.
  repeat (split; [reflexivity || assumption|]). reflexivity.
Qed.
End IRFShapes.

Section IRFProperties.
Context {F : Type} `{Scalar F} `{Library F}.

(** What a run of [calc_irf_excitation] that returns went through. *)
Lemma calc_irf_excitation_run (self self' : HydrodynamicData F) t_length n_t n_w :
  calc_irf_excitation t_length n_t n_w self = (self', OK tt) ->
  exists lo hi w0 w1 interp f,
    let irf_t := linspace (- t_length)%fl t_length n_t in
    let irf_w := linspace lo hi n_w in
    np_min (w self) = OK lo /\ np_max (w self) = OK hi /\
    getitem (w self) 0 = OK w0 /\ getitem (w self) 1 = OK w1 /\
    interp_excitation self (fgt w0 w1)
      (if fgt w0 w1 then flipud (w self) else w self) irf_w = OK interp /\
    excitation_loop (shape0 (ex_mag self)) (shape1 (ex_mag self))
      interp.1 interp.2 irf_t irf_w
      (zeros3 (shape0 (ex_mag self)) (shape1 (ex_mag self)) n_t) = (f, OK tt) /\
    self' = set_ex_irf (fun _ =>
              {| ex_irf_t := Some irf_t; ex_irf_w := Some irf_w;
                 ex_irf_f := Some f |}) self.
Proof.
  unfold calc_irf_excitation, mbind, M_bind, modify, get, lift,
    in_place_ex_irf_f.
  cbn [ex_irf set_ex_irf_f set_ex_irf_w set_ex_irf_t set_ex_irf
       ex_irf_f ex_irf_t ex_irf_w w ex_mag].
  rewrite linspace_length.
  destruct (np_min (w self)) as [lo|] eqn:Hlo; [|discriminate].
  destruct (np_max (w self)) as [hi|] eqn:Hhi; [|discriminate].
  destruct (getitem (w self) 0) as [w0|] eqn:Hw0; [|discriminate].
  destruct (getitem (w self) 1) as [w1|] eqn:Hw1; [|discriminate].
  change (interp_excitation (set_ex_irf_t (linspace (- t_length)%fl t_length n_t) self))
    with (interp_excitation self).
  destruct (interp_excitation _ _ _ _) as [interp|] eqn:Hinterp; [|discriminate].
  destruct (excitation_loop _ _ _ _ _ _ _) as [f r] eqn:Hloop.
  intros [= <- ->]. exists lo, hi, w0, w1, interp, f. cbv zeta.
  repeat (split; [reflexivity || assumption|]). reflexivity.
Qed.

(** X1. When [calc_irf_radiation] returns, [rd.irf] holds a time grid of
    [n_t] samples, a frequency grid of [n_w] samples and kernels [K] and
    [L] of shape [am.inf.shape[0] x am.inf.shape[1] x n_t]. *)
Theorem calc_irf_radiation_shapes
    (self self' : HydrodynamicData F) (t_end : F) (n_t n_w : nat) :
  calc_irf_radiation t_end n_t n_w self = (self', OK tt) ->
  exists irf_t irf_w K L,
    rd_irf self' =
      {| rd_irf_t := Some irf_t; rd_irf_w := Some irf_w;
         rd_irf_L := Some L; rd_irf_K := Some K |} /\
    length irf_t = n_t /\ length irf_w = n_w /\
    has_shape3 (shape0 (am_inf self)) (shape1 (am_inf self)) n_t K /\
    has_shape3 (shape0 (am_inf self)) (shape1 (am_inf self)) n_t L.
Proof.
  intros (lo & hi & w0 & w1 & rd_interp & K & L & Hrun)%calc_irf_radiation_run.
  cbv zeta in Hrun.
  destruct Hrun as (_ & _ & _ & _ & _ & Hloop & ->).
  exists (linspace (of_nat 0) t_end n_t), (linspace lo hi n_w), K, L.
  split; [reflexivity|]. rewrite !linspace_length.
  split; [reflexivity|]. split; [reflexivity|].
  apply (radiation_loop_shape (shape0 (am_inf self)) (shape1 (am_inf self)) n_t)
    in Hloop; [exact Hloop|].
  split; apply has_shape3_zeros3.
Qed.

(** X2. [K] and [L] are allocated with the shape of [am.inf] and filled
    over the shape of [rd.all]: a run on at least one time sample only
    returns when [rd.all] does not exceed [am.inf] along the first two
    axes. *)
Theorem calc_irf_radiation_fits
    (self self' : HydrodynamicData F) (t_end : F) (n_t n_w : nat) :
  calc_irf_radiation t_end n_t n_w self = (self', OK tt) ->
  1 <= n_t ->
  forall i j, i < shape0 (rd_all self) -> j < shape1 (rd_all self) ->
    i < shape0 (am_inf self) /\ j < shape1 (am_inf self).
Proof.
  intros (lo & hi & w0 & w1 & rd_interp & K & L & Hrun)%calc_irf_radiation_run
    Hnt i j Hi Hj.
  cbv zeta in Hrun. destruct Hrun as (_ & _ & _ & _ & _ & Hloop & _).
  pose proof (radiation_loop_OK true _ _ _ _ _ _ _ i j 0 Hloop Hi Hj) as HK.
  rewrite linspace_length in HK. specialize (HK Hnt).
  apply (radiation_loop_shape (shape0 (am_inf self)) (shape1 (am_inf self)) n_t)
    in Hloop as [HsK _]; [|split; apply has_shape3_zeros3].
  unfold lookup_key, lookup3 in HK. cbn [pick fst snd] in HK, HsK.
  destruct (lookup2 K i j) as [x|] eqn:Hx; [|discriminate].
  destruct (has_shape3_lookup _ _ _ _ _ _ _ HsK Hx) as (? & ? & _). auto.
Qed.

(** The quadrature over a grid of fewer than two points has no interval. *)
Lemma trapz_short (y x : list F) : length x <= 1 -> trapz y x = of_nat 0.
Proof.
  intros Hx. unfold trapz, diff.
  destruct x as [|x0 [|x1 x]]; [reflexivity|reflexivity|simpl in Hx; lia].
Qed.

(** X3. With [n_w < 2] the frequency grid has no interval to integrate
    over: when [calc_irf_radiation] returns, every entry of [K] and of [L]
    it computed is zero, whatever the coefficients. *)
Theorem calc_irf_radiation_single_frequency
    (self self' : HydrodynamicData F) (t_end : F) (n_t n_w : nat) :
  calc_irf_radiation t_end n_t n_w self = (self', OK tt) ->
  n_w <= 1 ->
  exists K L,
    rd_irf_K (rd_irf self') = Some K /\ rd_irf_L (rd_irf self') = Some L /\
    forall i j k,
      i < shape0 (rd_all self) -> j < shape1 (rd_all self) -> k < n_t ->
      lookup3 K i j k = Some (of_nat 0) /\ lookup3 L i j k = Some (of_nat 0).
Proof.
  intros (lo & hi & w0 & w1 & rd_interp & K & L & Hrun)%calc_irf_radiation_run Hnw.
  cbv zeta in Hrun. destruct Hrun as (_ & _ & _ & _ & _ & Hloop & ->).
  exists K, L. split; [reflexivity|]. split; [reflexivity|].
  intros i j k Hi Hj Hk.
  pose proof (radiation_loop_OK true _ _ _ _ _ _ _ i j k Hloop Hi Hj) as HK.
  pose proof (radiation_loop_OK false _ _ _ _ _ _ _ i j k Hloop Hi Hj) as HL.
  rewrite linspace_length in HK, HL. specialize (HK Hk). specialize (HL Hk).
  unfold lookup_key, radiation_entry in HK, HL. cbn [pick fst snd] in HK, HL.
  rewrite trapz_short in HK, HL by (rewrite linspace_length; exact Hnw).
  auto.
Qed.

(** X4. When [calc_irf_excitation] returns, [ex.irf] holds a time grid of
    [n_t] samples, a frequency grid of [n_w] samples and a kernel [f] of
    shape [ex.mag.shape[0] x ex.mag.shape[1] x n_t]; with [n_w < 2] every
    entry of [f] is zero. *)
Theorem calc_irf_excitation_shapes
    (self self' : HydrodynamicData F) (t_length : F) (n_t n_w : nat) :
  calc_irf_excitation t_length n_t n_w self = (self', OK tt) ->
  exists irf_t irf_w f,
    ex_irf self' =
      {| ex_irf_t := Some irf_t; ex_irf_w := Some irf_w; ex_irf_f := Some f |} /\
    length irf_t = n_t /\ length irf_w = n_w /\
    has_shape3 (shape0 (ex_mag self)) (shape1 (ex_mag self)) n_t f /\
    (n_w <= 1 ->
     forall i j k,
       i < shape0 (ex_mag self) -> j < shape1 (ex_mag self) -> k < n_t ->
       lookup3 f i j k = Some (of_nat 0)).
Proof.
  intros (lo & hi & w0 & w1 & interp & f & Hrun)%calc_irf_excitation_run.
  cbv zeta in Hrun. destruct Hrun as (_ & _ & _ & _ & _ & Hloop & ->).
  exists (linspace (- t_length)%fl t_length n_t), (linspace lo hi n_w), f.
  split; [reflexivity|]. rewrite !linspace_length.
  split; [reflexivity|]. split; [reflexivity|]. split.
  - eapply excitation_loop_shape; [|exact Hloop]. apply has_shape3_zeros3.
  - intros Hnw i j k Hi Hj Hk.
    pose proof (excitation_loop_OK _ _ _ _ _ _ _ _ i j k Hloop Hi Hj) as Hf.
    rewrite linspace_length in Hf. rewrite (Hf Hk).
    unfold excitation_entry. rewrite trapz_short; [reflexivity|].
    rewrite linspace_length. exact Hnw.
Qed.
End IRFProperties.

(** ** Frame and composition of the impulse responses *)

Section IRFComposition.
Context {F : Type} `{Scalar F} `{Library F}.

(** The hydrodynamic coefficients of a store: what the parsers fill in
    and the methods read. *)
Definition coefficients (self : HydrodynamicData F) :=
  (w self, am_inf self, rd_all self, rd_im self,
   ex_re self, ex_im self, ex_mag self).

Lemma calc_irf_radiation_return (self : HydrodynamicData F) t_end n_t n_w
    lo hi w0 w1 rd_interp K L :
  let irf_t := linspace (of_nat 0) t_end n_t in
  let irf_w := linspace lo hi n_w in
  let zs := zeros3 (shape0 (am_inf self)) (shape1 (am_inf self)) n_t in
  np_min (w self) = OK lo -> np_max (w self) = OK hi ->
  getitem (w self) 0 = OK w0 -> getitem (w self) 1 = OK w1 ->
  interp_radiation self (fgt w0 w1)
    (if fgt w0 w1 then flipud (w self) else w self) irf_w = OK rd_interp ->
  radiation_loop (shape0 (rd_all self)) (shape1 (rd_all self))
    rd_interp irf_t irf_w (zs, zs) = ((K, L), OK tt) ->
  calc_irf_radiation t_end n_t n_w self =
  (set_rd_irf (fun _ =>
     {| rd_irf_t := Some irf_t; rd_irf_w := Some irf_w;
        rd_irf_L := Some L; rd_irf_K := Some K |}) self, OK tt).
Proof.
  cbv zeta. intros Hlo Hhi Hw0 Hw1 Hinterp Hloop.
  unfold calc_irf_radiation, mbind, M_bind, modify, get, lift,
    in_place_rd_irf_KL.
  cbn [rd_irf set_rd_irf_K set_rd_irf_L set_rd_irf_w set_rd_irf_t set_rd_irf
       rd_irf_K rd_irf_L rd_irf_t rd_irf_w w am_inf rd_all].
  rewrite linspace_length, Hlo, Hhi, Hw0, Hw1.
  change (interp_radiation (set_rd_irf_t (linspace (of_nat 0) t_end n_t) self))
    with (interp_radiation self).
  rewrite Hinterp, Hloop. reflexivity.
Qed.

Lemma calc_irf_excitation_return (self : HydrodynamicData F) t_length n_t n_w
    lo hi w0 w1 interp f :
  let irf_t := linspace (- t_length)%fl t_length n_t in
  let irf_w := linspace lo hi n_w in
  np_min (w self) = OK lo -> np_max (w self) = OK hi ->
  getitem (w self) 0 = OK w0 -> getitem (w self) 1 = OK w1 ->
  interp_excitation self (fgt w0 w1)
    (if fgt w0 w1 then flipud (w self) else w self) irf_w = OK interp ->
  excitation_loop (shape0 (ex_mag self)) (shape1 (ex_mag self))
    interp.1 interp.2 irf_t irf_w
    (zeros3 (shape0 (ex_mag self)) (shape1 (ex_mag self)) n_t) = (f, OK tt) ->
  calc_irf_excitation t_length n_t n_w self =
  (set_ex_irf (fun _ =>
     {| ex_irf_t := Some irf_t; ex_irf_w := Some irf_w; ex_irf_f := Some f |})
     self, OK tt).
Proof.
  cbv zeta. intros Hlo Hhi Hw0 Hw1 Hinterp Hloop.
  unfold calc_irf_excitation, mbind, M_bind, modify, get, lift,
    in_place_ex_irf_f.
  cbn [ex_irf set_ex_irf_f set_ex_irf_w set_ex_irf_t set_ex_irf
       ex_irf_f ex_irf_t ex_irf_w w ex_mag].
  rewrite linspace_length, Hlo, Hhi, Hw0, Hw1.
  change (interp_excitation (set_ex_irf_t (linspace (- t_length)%fl t_length n_t) self))
    with (interp_excitation self).
  rewrite Hinterp, Hloop. reflexivity.
Qed.

(** X5. The methods write where they say and nowhere else, also when
    they raise: [calc_irf_radiation] assigns attributes of [self.rd.irf]
    only, [calc_irf_excitation] attributes of [self.ex.irf] only and
    [calc_ss_radiation] attributes of [self.rd.ss] only; the coefficients
    and the other two results are as before. *)
Theorem methods_frame (self : HydrodynamicData F) (t_end : F) (n_t n_w : nat)
    (fuel max_order : nat) (r2_thresh : F) :
  let rad := (calc_irf_radiation t_end n_t n_w self).1 in
  let exc := (calc_irf_excitation t_end n_t n_w self).1 in
  let ss := (calc_ss_radiation fuel max_order r2_thresh self).1 in
  (coefficients rad = coefficients self /\
   ex_irf rad = ex_irf self /\ rd_ss rad = rd_ss self) /\
  (coefficients exc = coefficients self /\
   rd_irf exc = rd_irf self /\ rd_ss exc = rd_ss self) /\
  (coefficients ss = coefficients self /\
   ex_irf ss = ex_irf self /\ rd_irf ss = rd_irf self).
Proof.
  cbv zeta. split; [|split].
  - unfold calc_irf_radiation, mbind, M_bind, modify, get, lift,
      in_place_rd_irf_KL.
    cbn [rd_irf set_rd_irf_K set_rd_irf_L set_rd_irf_w set_rd_irf_t set_rd_irf
         rd_irf_K rd_irf_L rd_irf_t rd_irf_w w am_inf rd_all].
    destruct (np_min (w self)); [|now repeat split].
    destruct (np_max (w self)); [|now repeat split].
    destruct (getitem (w self) 0); [|now repeat split].
    destruct (getitem (w self) 1); [|now repeat split].
    destruct (interp_radiation _ _ _ _); [|now repeat split].
    destruct (radiation_loop _ _ _ _ _ _) as [[K L] r]. now repeat split.
  - unfold calc_irf_excitation, mbind, M_bind, modify, get, lift,
      in_place_ex_irf_f.
    cbn [ex_irf set_ex_irf_f set_ex_irf_w set_ex_irf_t set_ex_irf
         ex_irf_f ex_irf_t ex_irf_w w ex_mag].
    destruct (np_min (w self)); [|now repeat split].
    destruct (np_max (w self)); [|now repeat split].
    destruct (getitem (w self) 0); [|now repeat split].
    destruct (getitem (w self) 1); [|now repeat split].
    destruct (interp_excitation _ _ _ _); [|now repeat split].
    destruct (excitation_loop _ _ _ _ _ _ _) as [f r]. now repeat split.
  - unfold calc_ss_radiation.
    destruct (_ ≫= _) as [[dt numFreq]|]; [|now repeat split].
    destruct (for_fuel _ _ _) as [s o]. now repeat split.
Qed.

(** X6. Running [calc_irf_radiation] again on the store it left changes
    nothing: the second run returns and leaves the same store. *)
Theorem calc_irf_radiation_idempotent
    (self self' : HydrodynamicData F) (t_end : F) (n_t n_w : nat) :
  calc_irf_radiation t_end n_t n_w self = (self', OK tt) ->
  calc_irf_radiation t_end n_t n_w self' = (self', OK tt).
Proof.
  intros (lo & hi & w0 & w1 & rd_interp & K & L & Hrun)%calc_irf_radiation_run.
  cbv zeta in Hrun.
  destruct Hrun as (Hlo & Hhi & Hw0 & Hw1 & Hinterp & Hloop & ->).
  erewrite calc_irf_radiation_return; [reflexivity|..]; eassumption.
Qed.

(** X7. The two impulse responses can be computed in either order: when
    the radiation one and then the excitation one return, the excitation
    one and then the radiation one return as well, on the same store. *)
Theorem calc_irf_commute
    (self s1 s2 : HydrodynamicData F) (t_end t_length : F)
    (n_t n_w n_t' n_w' : nat) :
  calc_irf_radiation t_end n_t n_w self = (s1, OK tt) ->
  calc_irf_excitation t_length n_t' n_w' s1 = (s2, OK tt) ->
  exists s1',
    calc_irf_excitation t_length n_t' n_w' self = (s1', OK tt) /\
    calc_irf_radiation t_end n_t n_w s1' = (s2, OK tt).
Proof.
  intros (lo & hi & w0 & w1 & rd_interp & K & L & Hrad)%calc_irf_radiation_run.
  cbv zeta in Hrad.
  destruct Hrad as (Hlo & Hhi & Hw0 & Hw1 & Hinterp & Hloop & ->).
  intros (lo' & hi' & w0' & w1' & interp & f & Hexc)%calc_irf_excitation_run.
  cbv zeta in Hexc.
  destruct Hexc as (Hlo' & Hhi' & Hw0' & Hw1' & Hinterp' & Hloop' & ->).
  eexists. split.
  - apply (calc_irf_excitation_return self _ _ _ lo' hi' w0' w1' interp f);
      [exact Hlo'|exact Hhi'|exact Hw0'|exact Hw1'|exact Hinterp'|exact Hloop'].
  - rewrite (calc_irf_radiation_return _ _ _ _ lo hi w0 w1 rd_interp K L);
      [reflexivity|exact Hlo|exact Hhi|exact Hw0|exact Hw1|exact Hinterp
      |exact Hloop].
Qed.
End IRFComposition.

(** ** The state-space reduction: preconditions and what it stores *)

Section ReductionProperties.
Context {F : Type} `{Scalar F} `{Library F}.

(** X8. [calc_ss_radiation] reads the time grid of the impulse response
    first: without [self.rd.irf.t] it raises [AttributeError], with fewer
    than three time samples [IndexError] (from [t[2]]), and in both cases
    it leaves the store as it was. *)
Theorem calc_ss_radiation_needs_time_grid (fuel max_order : nat) (r2_thresh : F)
    (self : HydrodynamicData F) :
  match rd_irf_t (rd_irf self) with
  | None => True
  | Some t => length t < 3
  end ->
  calc_ss_radiation fuel max_order r2_thresh self =
  (self, Some (Raise (match rd_irf_t (rd_irf self) with
                      | None => AttributeError
                      | Some _ => IndexError
                      end))).
Proof.
  unfold calc_ss_radiation, mbind, result_bind, rbind, getattr.
  destruct (rd_irf_t (rd_irf self)) as [t|]; [|reflexivity].
  intros Hlen. unfold getitem. rewrite (lookup_ge_None_2 t 2) by lia.
  reflexivity.
Qed.

(** X9. The state-space reduction needs an impulse response on at least
    three time samples: after [calc_irf_radiation] returned with
    [n_t < 3], [calc_ss_radiation] raises [IndexError] and changes
    nothing. *)
Theorem calc_ss_radiation_after_short_irf (fuel max_order : nat) (r2_thresh : F)
    (self self' : HydrodynamicData F) (t_end : F) (n_t n_w : nat) :
  calc_irf_radiation t_end n_t n_w self = (self', OK tt) ->
  n_t < 3 ->
  calc_ss_radiation fuel max_order r2_thresh self' =
  (self', Some (Raise IndexError)).
Proof.
  intros (lo & hi & w0 & w1 & rd_interp & K & L & Hrun)%calc_irf_radiation_run Hnt.
  cbv zeta in Hrun. destruct Hrun as (_ & _ & _ & _ & _ & _ & ->).
  unfold calc_ss_radiation, mbind, result_bind, rbind, getattr.
  cbn [rd_irf set_rd_irf rd_irf_t]. unfold getitem.
  rewrite (lookup_ge_None_2 _ 2) by (rewrite linspace_length; lia).
  reflexivity.
Qed.

Lemma for_fuel_skip {S X} (body : X -> S -> S * option (result unit))
    (xs : list X) (s : S) :
  (forall x, x ∈ xs -> body x s = (s, Some (OK tt))) ->
  for_fuel xs body s = (s, Some (OK tt)).
Proof.
  induction xs as [|x xs IH]; intros Hbody; [reflexivity|]. simpl.
  rewrite Hbody by apply list_elem_of_here.
  apply IH. intros y Hy. apply Hbody. now apply list_elem_of_further.
Qed.

(** X10. On a store whose kernels are all degenerate the reduction
    returns, whatever [max_order] and [r2_thresh]: no order search is run
    (no fuel is needed) and [rd.ss] holds the containers as they were
    allocated, all zero. *)
Theorem calc_ss_radiation_all_degenerate (fuel max_order : nat) (r2_thresh : F)
    (self : HydrodynamicData F) (t : list F) :
  rd_irf_t (rd_irf self) = Some t -> 3 <= length t ->
  (forall i j, i < shape0 (am_inf self) -> j < shape1 (am_inf self) ->
     exists K_ij,
       (K ← getattr (rd_irf_K (rd_irf self)); getitem2 K i j) = OK K_ij /\
       fne (reference_norm K_ij) (of_nat 0) = false) ->
  calc_ss_radiation fuel max_order r2_thresh self =
  (set_rd_ss (empty_realization (shape1 (am_inf self)) (length t) max_order) self,
   Some (OK tt)).
Proof.
  intros Ht Hlen Hdeg. unfold calc_ss_radiation. rewrite Ht.
  destruct (lookup_lt_is_Some_2 t 2) as [t2 Ht2]; [lia|].
  destruct (lookup_lt_is_Some_2 t 1) as [t1 Ht1]; [lia|].
  unfold mbind at 1, result_bind, rbind, getattr, getitem. rewrite Ht2, Ht1.
  cbn [mbind result_bind rbind].
  rewrite for_fuel_skip; [reflexivity|].
  intros i Hi%elem_of_xrange. apply for_fuel_skip.
  intros j Hj%elem_of_xrange.
  destruct (Hdeg i j Hi Hj) as (K_ij & HK & Hnorm).
  now apply (reduce_pair_degenerate _ _ _ _ _ _ _ _ K_ij).
Qed.

(** X11. The containers are allocated with six rows and [max_order]
    states: a run of [calc_ss_radiation] only returns when every pair
    whose kernel is not degenerate lies in one of the rows 0 to 5 and
    [max_order] is at least 2. *)
Theorem calc_ss_radiation_capacity (fuel max_order : nat) (r2_thresh : F)
    (self self' : HydrodynamicData F) :
  calc_ss_radiation fuel max_order r2_thresh self = (self', Some (OK tt)) ->
  forall i j K_ij,
    i < shape0 (am_inf self) -> j < shape1 (am_inf self) ->
    (K ← getattr (rd_irf_K (rd_irf self)); getitem2 K i j) = OK K_ij ->
    fne (reference_norm K_ij) (of_nat 0) = true ->
    i < 6 /\ 2 <= max_order.
Proof.
  intros (t & t1 & t2 & s & Ht & Ht1 & Ht2 & -> & Hred)%calc_ss_radiation_reduced.
  intros i j K_ij Hi Hj HK Hdeg.
  assert (Hfreq : 3 <= length t) by (apply lookup_lt_Some in Ht2; lia).
  destruct Hred as [_ Hdone].
  destruct (Hdone i j) as (K' & HK' & Hrec);
    [now apply bool_decide_eq_true_2|exact Hj|].
  rewrite HK in HK'. injection HK' as <-.
  destruct (Hrec Hdeg) as (r & status & order & new & Hsearch & Hwrite & Hi6).
  split; [exact Hi6|].
  apply order_search_spec in Hsearch as (ss & Hss & _ & -> & Hpass & _).
  assert (Hss1 : 1 <= ss) by lia. assert (Hss2 : 2 <= ss) by lia.
  destruct (realization_at_shape _ _ _ _ _ _ Hfreq Hss1 Hpass)
    as (Hac & Hbc & Hcc & _).
  destruct (write_entries_block _ _ _ _ _ _ Hss2 Hac Hbc Hcc Hwrite)
    as ((Hle & _) & _). lia.
Qed.

(** X12. A converged search does not depend on the limit: when the search
    under [max_order >= 2] ends with status 1 at some order, it ends with
    the same realization, status and order under every larger limit. *)
Theorem order_search_converged_stable (fuel : nat) (K_ij : list F) (dt : F)
    (numFreq : nat) (r2bt : F) (max_order max_order' : nat) (r2_thresh : F)
    (r : realization F) (order : nat) :
  2 <= max_order -> max_order <= max_order' ->
  order_search fuel K_ij dt numFreq r2bt max_order r2_thresh 2
  = Some (OK (r, 1, order)) ->
  order_search fuel K_ij dt numFreq r2bt max_order' r2_thresh 2
  = Some (OK (r, 1, order)).
Proof.
  intros Hmax Hle.
  assert (Hfrom : forall ss, ss <= max_order ->
    order_search fuel K_ij dt numFreq r2bt max_order r2_thresh ss
    = Some (OK (r, 1, order)) ->
    order_search fuel K_ij dt numFreq r2bt max_order' r2_thresh ss
    = Some (OK (r, 1, order))); [|now apply Hfrom].
  clear Hmax. induction fuel as [|fuel IH]; intros ss Hss; simpl; [discriminate|].
  destruct (realization_at _ _ _ _ ss) as [r'|e]; [|discriminate].
  destruct (fge (R2T r') r2_thresh); [tauto|].
  destruct (decide (ss = max_order)) as [->|Hne]; [discriminate|].
  rewrite decide_False by lia. apply IH. lia.
Qed.

(** The leading blocks the assignments of lines 328-330 leave in
    containers that were all zero. *)
Lemma write_A_content max_order ss (r : realization F) A i j :
  2 <= ss -> has_shape ss ss (ac r) ->
  write_A r (zeros2 max_order max_order) = OK A ->
  i < ss -> j < ss -> lookup2 A i j = lookup2 (ac r) i j.
Proof.
  intros Hss Hac. unfold write_A, shape0. rewrite (proj1 Hac).
  intros [Hle ->]%assign2_zeros Hi Hj; [|exact Hss|exact Hac].
  destruct Hac as [Hlen Hrows]. unfold lookup2.
  rewrite lookup_app_l by (rewrite length_fmap; lia).
  rewrite list_lookup_fmap.
  destruct (ac r !! i) as [row|] eqn:Hrow; [|reflexivity].
  cbn [fmap option_fmap option_map mbind option_bind].
  assert (Hrl : length row = ss).
  { rewrite Forall_forall in Hrows. apply Hrows.
    eapply list_elem_of_lookup_2; eauto. }
  now rewrite lookup_app_l by lia.
Qed.

Lemma write_B_content max_order ss (r : realization F) B i :
  2 <= ss -> has_shape ss 1 (bc r) ->
  write_B r (zeros2 max_order 1) = OK B ->
  i < ss -> lookup2 B i 0 = lookup2 (bc r) i 0.
Proof.
  intros Hss [Hlen Hrows]. unfold write_B, mbind, result_bind, rbind, shape0.
  destruct (mapM _ (bc r)) as [bc_0|] eqn:Hbc0; [|discriminate].
  pose proof (mapM_result_Forall2 _ _ _ Hbc0) as Hcol.
  apply mapM_result_length in Hbc0. rewrite Hlen in Hbc0.
  rewrite col_zeros2, Hlen, <- Hbc0.
  destruct (assign1 _ _ bc_0) as [B_0|] eqn:HB0; [|discriminate].
  apply assign1_exact in HB0 as [Hle ->]; [|lia].
  rewrite length_zeros in Hle. rewrite drop_zeros. intros [= <-] Hi.
  unfold lookup2. rewrite lookup_zip_with.
  unfold zeros2 at 1. rewrite lookup_replicate_2 by lia.
  rewrite lookup_app_l by lia.
  destruct (lookup_lt_is_Some_2 (bc r) i) as [row Hrow]; [lia|].
  destruct (Forall2_lookup_l _ _ _ _ _ Hcol Hrow) as (x & Hx & Hget).
  rewrite Hx, Hrow. simpl. now apply getitem_OK in Hget.
Qed.

Lemma write_C_content max_order ss (r : realization F) C j :
  2 <= ss -> has_shape 1 ss (cc r) ->
  write_C r (zeros2 1 max_order) = OK C ->
  j < ss -> lookup2 C 0 j = lookup2 (cc r) 0 j.
Proof.
  intros Hss [Hlen Hrows]. unfold write_C, mbind, result_bind, rbind.
  destruct (cc r) as [|row [|row' rest]]; try discriminate.
  apply Forall_cons in Hrows as [Hrl _]. cbn [getitem lookup list_lookup shape1].
  unfold zeros2. cbn [replicate getitem lookup list_lookup].
  rewrite Hrl, <- Hrl.
  destruct (assign1 _ _ row) as [C_0|] eqn:HC0; [|discriminate].
  apply assign1_exact in HC0 as [Hle ->]; [|lia].
  intros [= <-] Hj. unfold lookup2. cbn [insert list_insert lookup list_lookup
    mbind option_bind]. now rewrite lookup_app_l by lia.
Qed.

(** X13. What the reduction stores for a pair can be read back: in a run
    of [calc_ss_radiation] that returns, for every pair that is not
    degenerate the leading blocks of [A[i,j]], [B[i,j]] and [C[i,j]] are
    the matrices [ac], [bc] and [cc] of the realization the search ended
    on, [D[i,j]] holds the one entry of [dc], and [irk_bss[i,j,:]] is its
    impulse response [k_ss_est], of the length of the time grid. *)
Theorem calc_ss_radiation_stores_realization
    (fuel max_order : nat) (r2_thresh : F) (self self' : HydrodynamicData F) :
  calc_ss_radiation fuel max_order r2_thresh self = (self', Some (OK tt)) ->
  exists t t1 t2 s,
    rd_irf_t (rd_irf self) = Some t /\ t !! 1 = Some t1 /\ t !! 2 = Some t2 /\
    rd_ss self' = Some s /\
    forall i j K_ij,
      i < shape0 (am_inf self) -> j < shape1 (am_inf self) ->
      (K ← getattr (rd_irf_K (rd_irf self)); getitem2 K i j) = OK K_ij ->
      fne (reference_norm K_ij) (of_nat 0) = true ->
      exists r status order e,
        order_search fuel K_ij (t2 - t1)%fl (length t) (reference_norm K_ij)
          max_order r2_thresh 2 = Some (OK (r, status, order)) /\
        entries_at s i j = Some e /\
        (forall a b, a < order -> b < order ->
           lookup2 (e_A e) a b = lookup2 (ac r) a b) /\
        (forall a, a < order -> lookup2 (e_B e) a 0 = lookup2 (bc r) a 0) /\
        (forall b, b < order -> lookup2 (e_C e) 0 b = lookup2 (cc r) 0 b) /\
        (exists x, dc r = [[x]] /\ e_D e = [x]) /\
        e_irk_bss e = k_ss_est r /\ length (e_irk_bss e) = length t.
Proof.
  intros (t & t1 & t2 & s & Ht & Ht1 & Ht2 & -> & Hred)%calc_ss_radiation_reduced.
  exists t, t1, t2, s. repeat (split; [reflexivity || assumption|]).
  intros i j K_ij Hi Hj HK Hdeg.
  assert (Hfreq : 3 <= length t) by (apply lookup_lt_Some in Ht2; lia).
  destruct Hred as [Hs Hdone].
  destruct (Hdone i j) as (K' & HK' & Hrec);
    [now apply bool_decide_eq_true_2|exact Hj|].
  rewrite HK in HK'. injection HK' as <-.
  destruct (Hrec Hdeg) as (r & status & order & new & Hsearch & Hwrite & Hi6).
  exists r, status, order, new. split; [exact Hsearch|].
  split.
  { rewrite (Hs i j), decide_True by tauto.
    rewrite bool_decide_eq_true_2 by exact Hi.
    unfold reduced_entries, pair_record. now rewrite HK, Hdeg, Hsearch, Hwrite. }
  apply order_search_spec in Hsearch as (ss & Hss & _ & -> & Hpass & _).
  assert (Hss1 : 1 <= ss) by lia. assert (Hss2 : 2 <= ss) by lia.
  destruct (realization_at_shape _ _ _ _ _ _ Hfreq Hss1 Hpass)
    as (Hac & Hbc & Hcc & Hdc & Hk).
  revert Hwrite. unfold write_entries, zero_entries, mbind, result_bind, rbind.
  cbn [e_A e_B e_C e_D].
  destruct (write_A r _) as [A|] eqn:HA; [|discriminate].
  destruct (write_B r _) as [B|] eqn:HB; [|discriminate].
  destruct (write_C r _) as [C|] eqn:HC; [|discriminate].
  destruct (write_D r _) as [D|] eqn:HD; [|discriminate].
  intros [= <-]. cbn [e_A e_B e_C e_D e_irk_bss].
  split; [intros a b Ha Hb; now apply (write_A_content max_order ss)|].
  split; [intros a Ha; now apply (write_B_content max_order ss)|].
  split; [intros b Hb; now apply (write_C_content max_order ss)|].
  split; [|now split].
  revert HD. unfold write_D, item, mbind, result_bind, rbind.
  destruct (dc r) as [|[|x [|]] [|]]; try discriminate.
  intros [= <-]. eauto.
Qed.
End ReductionProperties.

(** ** Over the real numbers *)

Section RealKernels.

Definition all_zero (l : list R) : Prop := Forall (fun x => x = 0%R) l.

Lemma np_sum_all_zero (l : list R) : all_zero l -> np_sum l = 0%R.
Proof.
  unfold np_sum. cbn [of_nat R_Scalar INR fadd].
  induction 1 as [|x l -> _ IH]; [reflexivity|].
  simpl. now rewrite Rplus_0_l.
Qed.

Lemma trapz_all_zero (y x : list R) : all_zero y -> trapz y x = 0%R.
Proof.
  intros Hy. unfold trapz. apply np_sum_all_zero. unfold all_zero in *.
  apply Forall_forall. intros v (d & s & -> & _ & Hs)%elem_of_zip_with.
  apply elem_of_zip_with in Hs as (a & b & -> & Ha & Hb).
  rewrite Forall_forall in Hy. rewrite (Hy a Ha).
  apply list_elem_of_lookup in Hb as [k Hk]. rewrite lookup_tail in Hk.
  rewrite (Hy b) by (eapply list_elem_of_lookup_2; exact Hk).
  cbn. lra.
Qed.

(** At [t = 0] the sine integrand vanishes. *)
Lemma radiation_integrand_sin_zero (rd irf_w : list R) :
  all_zero (radiation_integrand fsin rd irf_w 0%R).
Proof.
  unfold radiation_integrand, vmul, all_zero. apply Forall_forall.
  intros v (a & b & -> & _ & Hb)%elem_of_zip_with.
  apply list_elem_of_fmap in Hb as (c & -> & Hc).
  apply list_elem_of_fmap in Hc as (wk & -> & _).
  cbn. rewrite Rmult_0_r, sin_0. lra.
Qed.

(** A slice that is zero gives a zero integrand at every time. *)
Lemma radiation_integrand_zero trig (rd irf_w : list R) t :
  all_zero rd -> all_zero (radiation_integrand trig rd irf_w t).
Proof.
  intros Hrd. unfold radiation_integrand, vmul, all_zero in *.
  apply Forall_forall.
  intros v (a & b & -> & Ha & _)%elem_of_zip_with.
  apply list_elem_of_fmap in Ha as (c & -> & Hc).
  rewrite Forall_forall in Hrd. rewrite (Hrd c Hc). cbn. lra.
Qed.

Lemma interp_segment_zero (xs ys : list R) x_new :
  all_zero ys -> interp_segment xs ys x_new = 0%R.
Proof.
  intros Hys. revert xs. induction Hys as [|y_lo ys -> Hys IH]; intros xs.
  - destruct xs; reflexivity.
  - destruct xs as [|x_lo xs]; [reflexivity|]. cbn [interp_segment].
    destruct xs as [|x_hi xs]; [reflexivity|].
    destruct Hys as [|y_hi ys -> Hys]; [reflexivity|].
    destruct (Rle_dec x_new x_hi); [unfold Rdiv; lra|].
    apply (IH (x_hi :: xs)).
Qed.

(** The exact interpolant of a zero slice is zero. *)
Lemma R_interp1d_zero (x y x_new y_new : list R) f :
  all_zero y -> R_interp1d x y = OK f -> f x_new = OK y_new -> all_zero y_new.
Proof.
  intros Hy. unfold R_interp1d. destruct (decide _); [|discriminate].
  intros [= <-] Heval. apply mapM_result_Forall2 in Heval.
  unfold all_zero. apply Forall_forall. intros v [k Hk]%list_elem_of_lookup.
  destruct (Forall2_lookup_r _ _ _ _ _ Heval Hk) as (p & _ & Hp).
  revert Hp. unfold interp_at. destruct x as [|x0 x]; [discriminate|].
  destruct (Rgt_dec _ _); [discriminate|].
  destruct (Rgt_dec _ _); [discriminate|].
  intros [= <-]. exact (interp_segment_zero (x0 :: x) y p Hy).
Qed.

Lemma reference_norm_all_zero (K_ij : list R) :
  all_zero K_ij -> fne (reference_norm K_ij) 0%R = false.
Proof.
  intros HK. unfold reference_norm, norm, mean.
  rewrite (np_sum_all_zero K_ij HK).
  rewrite np_sum_all_zero.
  - cbn. rewrite sqrt_0. destruct (Req_dec_T 0 0); [reflexivity|lra].
  - unfold all_zero in *. apply Forall_fmap, Forall_fmap.
    eapply Forall_impl; [exact HK|].
    intros x ->. unfold compose. cbn. unfold Rdiv. lra.
Qed.
End RealKernels.

Section RealRadiation.

Lemma linspace_starts_at_zero (t_end : R) (n_t : nat) :
  1 <= n_t -> sample (linspace 0%R t_end n_t) 0 = 0%R.
Proof.
  intros Hnt. destruct n_t as [|[|n]]; [lia|reflexivity|].
  apply sample_lookup. rewrite linspace_lookup by lia. f_equal. cbn. lra.
Qed.

(** X14. Over the reals [L] starts at zero: when [calc_irf_radiation]
    returns with at least one time sample, [L[i,j,0]] is [0] for every
    pair, whatever the coefficients and the library, because the first
    time sample is [0] and the integrand carries [sin(w * 0)]. *)
Theorem calc_irf_radiation_L_starts_at_zero (lib : Library R)
    (self self' : HydrodynamicData R) (t_end : R) (n_t n_w : nat) :
  calc_irf_radiation (H0 := lib) t_end n_t n_w self = (self', OK tt) ->
  1 <= n_t ->
  exists L,
    rd_irf_L (rd_irf self') = Some L /\
    forall i j, i < shape0 (rd_all self) -> j < shape1 (rd_all self) ->
      lookup3 L i j 0 = Some 0%R.
Proof.
  intros (lo & hi & w0 & w1 & rd_interp & K & L & Hrun)%calc_irf_radiation_run Hnt.
  cbv zeta in Hrun. destruct Hrun as (_ & _ & _ & _ & _ & Hloop & ->).
  exists L. split; [reflexivity|]. intros i j Hi Hj.
  pose proof (radiation_loop_OK false _ _ _ _ _ _ _ i j 0 Hloop Hi Hj) as HL.
  rewrite linspace_length in HL. specialize (HL Hnt).
  unfold lookup_key, radiation_entry in HL. cbn [pick trig_of fst snd] in HL.
  change (of_nat 0) with 0%R in HL.
  rewrite linspace_starts_at_zero in HL by exact Hnt.
  rewrite trapz_all_zero in HL by apply radiation_integrand_sin_zero.
  exact HL.
Qed.

(** X15. Zero damping gives a degenerate kernel. With the exact library
    over the reals, when [calc_irf_radiation] returns with at least one
    time sample, a pair whose slice [rd.all[i,j,:]] is all zero has
    [K[i,j,:]] and [L[i,j,:]] all zero, and the reference norm of
    [K[i,j,:]] is [0]: [calc_ss_radiation] will skip the pair. *)
Theorem zero_damping_degenerate
    (self self' : HydrodynamicData R) (t_end : R) (n_t n_w : nat) (i j : nat)
    (slice : list R) :
  calc_irf_radiation t_end n_t n_w self = (self', OK tt) ->
  1 <= n_t ->
  getitem2 (rd_all self) i j = OK slice -> j < shape1 (rd_all self) ->
  all_zero slice ->
  exists K_ij L_ij,
    (K ← getattr (rd_irf_K (rd_irf self')); getitem2 K i j) = OK K_ij /\
    (L ← getattr (rd_irf_L (rd_irf self')); getitem2 L i j) = OK L_ij /\
    length K_ij = n_t /\ length L_ij = n_t /\
    all_zero K_ij /\ all_zero L_ij /\
    fne (reference_norm K_ij) 0%R = false.
Proof.
  intros (lo & hi & w0 & w1 & rd_interp & K & L & Hrun)%calc_irf_radiation_run
    Hnt Hslice Hj Hzero.
  cbv zeta in Hrun. destruct Hrun as (_ & _ & _ & _ & Hinterp & Hloop & ->).
  cbn [rd_irf set_rd_irf rd_irf_K rd_irf_L getattr mbind result_bind rbind].
  assert (Hi : i < shape0 (rd_all self)).
  { apply getitem2_OK in Hslice. unfold lookup2 in Hslice.
    destruct (rd_all self !! i) eqn:Hrow; [|discriminate].
    exact (lookup_lt_Some _ _ _ Hrow). }
  destruct (interp_radiation_OK _ _ _ _ _ i j Hinterp Hi Hj) as (rd & Hval & Hrd).
  assert (Hz : all_zero rd).
  { revert Hval. unfold interp_radiation_value.
    rewrite Hslice. unfold mbind, result_bind, rbind.
    assert (Hflip : all_zero (flipud slice))
      by (unfold all_zero, flipud; now apply Forall_reverse).
    destruct (fgt w0 w1); cbn [fmap result_fmap rbind];
      destruct (interp1d _ _) as [f|] eqn:Hf; try discriminate;
      intros Heval.
    - exact (R_interp1d_zero _ _ _ _ _ Hflip Hf Heval).
    - exact (R_interp1d_zero _ _ _ _ _ Hzero Hf Heval). }
  assert (HsKL : both_shaped (shape0 (am_inf self)) (shape1 (am_inf self)) n_t
                   (K, L)).
  { eapply radiation_loop_shape; [|exact Hloop]. split; apply has_shape3_zeros3. }
  destruct HsKL as [HsK HsL]. cbn [fst snd] in HsK, HsL.
  assert (Hentry : forall cosine k, k < n_t ->
    lookup3 (pick cosine (K, L)) i j k = Some 0%R).
  { intros cosine k Hk.
    pose proof (radiation_loop_OK cosine _ _ _ _ _ _ _ i j k Hloop Hi Hj) as HKL.
    rewrite linspace_length in HKL. specialize (HKL Hk).
    unfold lookup_key, radiation_entry in HKL. cbn [fst snd] in HKL.
    rewrite Hrd in HKL. cbn [default] in HKL.
    rewrite trapz_all_zero in HKL by now apply radiation_integrand_zero.
    exact HKL. }
  assert (Hrow : forall cosine, has_shape3 (shape0 (am_inf self))
                   (shape1 (am_inf self)) n_t (pick cosine (K, L)) ->
    exists row, getitem2 (pick cosine (K, L)) i j = OK row /\
                length row = n_t /\ all_zero row).
  { intros cosine Hshape. pose proof (Hentry cosine 0 Hnt) as H0'.
    unfold lookup3 in H0'.
    destruct (lookup2 (pick cosine (K, L)) i j) as [row|] eqn:Hrow;
      [|discriminate].
    destruct (has_shape3_lookup _ _ _ _ _ _ _ Hshape Hrow) as (_ & _ & Hlen).
    exists row. split; [now apply getitem2_OK|]. split; [exact Hlen|].
    unfold all_zero. apply Forall_forall. intros x [k Hk]%list_elem_of_lookup.
    pose proof (lookup_lt_Some _ _ _ Hk) as Hkn. rewrite Hlen in Hkn.
    specialize (Hentry cosine k Hkn). unfold lookup3 in Hentry.
    rewrite Hrow in Hentry. cbn in Hentry. congruence. }
  destruct (Hrow true HsK) as (K_ij & HK & HKl & HKz).
  destruct (Hrow false HsL) as (L_ij & HL & HLl & HLz).
  cbn [pick fst snd] in HK, HL.
  exists K_ij, L_ij. repeat (split; [assumption|]).
  now apply reference_norm_all_zero.
Qed.
End RealRadiation.

(** ** The further properties on concrete stores *)

(** A store whose one kernel is constant over three time samples. *)
Definition constant_kernel_store : HydrodynamicData R :=
  {| w := [1; 2]%R; am_inf := [[0%R]]; rd_all := [[[3; 4]%R]]; rd_im := None;
     ex_re := [[[3; 0]%R]]; ex_im := [[[4; 3]%R]]; ex_mag := [[[5; 3]%R]];
     ex_irf := {| ex_irf_t := None; ex_irf_w := None; ex_irf_f := None |};
     rd_irf := {| rd_irf_t := Some [0; 1; 2]%R; rd_irf_w := None;
                  rd_irf_L := None; rd_irf_K := Some [[[1; 1; 1]%R]] |};
     rd_ss := None |}.

(** A store without radiation damping. *)
Definition zero_damping_store : HydrodynamicData R :=
  {| w := [1; 2]%R; am_inf := [[0%R]]; rd_all := [[[0; 0]%R]]; rd_im := None;
     ex_re := [[[3; 0]%R]]; ex_im := [[[4; 3]%R]]; ex_mag := [[[5; 3]%R]];
     ex_irf := {| ex_irf_t := None; ex_irf_w := None; ex_irf_f := None |};
     rd_irf := {| rd_irf_t := None; rd_irf_w := None;
                  rd_irf_L := None; rd_irf_K := None |};
     rd_ss := None |}.

Lemma ascending_store_single_frequency :
  exists self', calc_irf_radiation 1%R 2 1 ascending_store = (self', OK tt).
Proof. eexists. real_run lra. reflexivity. Qed.

Lemma ascending_store_excitation_single_frequency :
  exists self', calc_irf_excitation 1%R 2 1 ascending_store = (self', OK tt).
Proof. eexists. real_run lra. reflexivity. Qed.

Lemma ascending_store_both :
  exists s1 s2,
    calc_irf_radiation 1%R 2 2 ascending_store = (s1, OK tt) /\
    calc_irf_excitation 1%R 2 2 s1 = (s2, OK tt).
Proof.
  do 2 eexists. split; [real_run lra; reflexivity|]. real_run lra. reflexivity.
Qed.

Lemma zero_damping_store_radiation :
  exists self', calc_irf_radiation 1%R 3 2 zero_damping_store = (self', OK tt).
Proof. eexists. real_run lra. reflexivity. Qed.

Lemma strictly_descending_descending_store :
  strictly_descending (w descending_store).
Proof.
  intros [|[|k]] x y; simpl; try discriminate. intros [= <-] [= <-].
  cbn. destruct (Rgt_dec 2 1); [reflexivity|lra].
Qed.

Lemma descending_grid_ascending_store :
  descending_grid (w ascending_store) = false.
Proof. cbn. destruct (Rgt_dec 1 2); [lra|reflexivity]. Qed.

Lemma descending_grid_descending_store :
  descending_grid (w descending_store) = true.
Proof. cbn. destruct (Rgt_dec 2 1); [reflexivity|lra]. Qed.

(** The pass at order 2 on the kernel [[1; 0; 0]] with the computable
    library. *)
Lemma impulse_kernel_pass :
  exists r,
    realization_at (H0 := Unit_Library) [1; 0; 0]%R 1%R 3
      (reference_norm [1; 0; 0]%R) 2 = OK r.
Proof. eexists. real_eval. reflexivity. Qed.

Lemma calc_irf_radiation_shapes_ascending_store :
  exists self',
    calc_irf_radiation 1%R 2 2 ascending_store = (self', OK tt) /\
    exists irf_t irf_w K L,
      rd_irf self' =
        {| rd_irf_t := Some irf_t; rd_irf_w := Some irf_w;
           rd_irf_L := Some L; rd_irf_K := Some K |} /\
      length irf_t = 2 /\ length irf_w = 2 /\
      has_shape3 (shape0 (am_inf ascending_store))
        (shape1 (am_inf ascending_store)) 2 K /\
      has_shape3 (shape0 (am_inf ascending_store))
        (shape1 (am_inf ascending_store)) 2 L.
Proof.
  destruct ascending_store_radiation as [self' Hrun]. exists self'.
  split; [exact Hrun|].
  exact (calc_irf_radiation_shapes ascending_store self' 1%R 2 2 Hrun).
Defined.

Lemma calc_irf_radiation_fits_ascending_store :
  exists self',
    calc_irf_radiation 1%R 2 2 ascending_store = (self', OK tt) /\
    1 <= 2 /\
    forall i j,
      i < shape0 (rd_all ascending_store) -> j < shape1 (rd_all ascending_store) ->
      i < shape0 (am_inf ascending_store) /\ j < shape1 (am_inf ascending_store).
Proof.
  destruct ascending_store_radiation as [self' Hrun]. exists self'.
  assert (Hnt : 1 <= 2) by lia.
  split; [exact Hrun|]. split; [exact Hnt|].
  exact (calc_irf_radiation_fits ascending_store self' 1%R 2 2 Hrun Hnt).
Defined.

Lemma calc_irf_radiation_single_frequency_ascending_store :
  exists self',
    calc_irf_radiation 1%R 2 1 ascending_store = (self', OK tt) /\
    1 <= 1 /\
    exists K L,
      rd_irf_K (rd_irf self') = Some K /\ rd_irf_L (rd_irf self') = Some L /\
      forall i j k,
        i < shape0 (rd_all ascending_store) ->
        j < shape1 (rd_all ascending_store) -> k < 2 ->
        lookup3 K i j k = Some 0%R /\ lookup3 L i j k = Some 0%R.
Proof.
  destruct ascending_store_single_frequency as [self' Hrun]. exists self'.
  assert (Hnw : 1 <= 1) by lia.
  split; [exact Hrun|]. split; [exact Hnw|].
  exact (calc_irf_radiation_single_frequency ascending_store self' 1%R 2 1
           Hrun Hnw).
Defined.

Lemma calc_irf_excitation_shapes_ascending_store :
  exists self',
    calc_irf_excitation 1%R 2 2 ascending_store = (self', OK tt) /\
    exists irf_t irf_w f,
      ex_irf self' =
        {| ex_irf_t := Some irf_t; ex_irf_w := Some irf_w; ex_irf_f := Some f |} /\
      length irf_t = 2 /\ length irf_w = 2 /\
      has_shape3 (shape0 (ex_mag ascending_store))
        (shape1 (ex_mag ascending_store)) 2 f /\
      (2 <= 1 ->
       forall i j k,
         i < shape0 (ex_mag ascending_store) ->
         j < shape1 (ex_mag ascending_store) -> k < 2 ->
         lookup3 f i j k = Some 0%R).
Proof.
  destruct ascending_store_excitation as [self' Hrun]. exists self'.
  split; [exact Hrun|].
  exact (calc_irf_excitation_shapes ascending_store self' 1%R 2 2 Hrun).
Defined.

Lemma calc_irf_radiation_idempotent_ascending_store :
  exists self',
    calc_irf_radiation 1%R 2 2 ascending_store = (self', OK tt) /\
    calc_irf_radiation 1%R 2 2 self' = (self', OK tt).
Proof.
  destruct ascending_store_radiation as [self' Hrun]. exists self'.
  split; [exact Hrun|].
  exact (calc_irf_radiation_idempotent ascending_store self' 1%R 2 2 Hrun).
Defined.

Lemma calc_irf_commute_ascending_store :
  exists s1 s2,
    calc_irf_radiation 1%R 2 2 ascending_store = (s1, OK tt) /\
    calc_irf_excitation 1%R 2 2 s1 = (s2, OK tt) /\
    exists s1',
      calc_irf_excitation 1%R 2 2 ascending_store = (s1', OK tt) /\
      calc_irf_radiation 1%R 2 2 s1' = (s2, OK tt).
Proof.
  destruct ascending_store_both as (s1 & s2 & Hrad & Hexc). exists s1, s2.
  split; [exact Hrad|]. split; [exact Hexc|].
  exact (calc_irf_commute ascending_store s1 s2 1%R 1%R 2 2 2 2 Hrad Hexc).
Defined.

Lemma calc_ss_radiation_needs_time_grid_ascending_store :
  match rd_irf_t (rd_irf ascending_store) with
  | None => True
  | Some t => length t < 3
  end /\
  calc_ss_radiation 10 10 (95 / 100)%R ascending_store =
  (ascending_store, Some (Raise AttributeError)).
Proof.
  assert (Hgrid : match rd_irf_t (rd_irf ascending_store) with
                  | None => True
                  | Some t => length t < 3
                  end) by exact I.
  split; [exact Hgrid|].
  exact (calc_ss_radiation_needs_time_grid 10 10 (95 / 100)%R ascending_store
           Hgrid).
Defined.

Lemma calc_ss_radiation_after_short_irf_ascending_store :
  exists self',
    calc_irf_radiation 1%R 2 2 ascending_store = (self', OK tt) /\
    2 < 3 /\
    calc_ss_radiation 10 10 (95 / 100)%R self' = (self', Some (Raise IndexError)).
Proof.
  destruct ascending_store_radiation as [self' Hrun]. exists self'.
  assert (Hnt : 2 < 3) by lia.
  split; [exact Hrun|]. split; [exact Hnt|].
  exact (calc_ss_radiation_after_short_irf 10 10 (95 / 100)%R ascending_store
           self' 1%R 2 2 Hrun Hnt).
Defined.

Lemma constant_kernel_store_degenerate i j :
  i < shape0 (am_inf constant_kernel_store) ->
  j < shape1 (am_inf constant_kernel_store) ->
  exists K_ij,
    (K ← getattr (rd_irf_K (rd_irf constant_kernel_store)); getitem2 K i j)
    = OK K_ij /\
    fne (reference_norm K_ij) 0%R = false.
Proof.
  simpl. intros Hi Hj. destruct i; [|lia]. destruct j; [|lia].
  exists [1; 1; 1]%R. split; [reflexivity|]. cbn.
  destruct (Req_dec_T _ _) as [|Hne]; [reflexivity|].
  destruct (Hne reference_norm_constant).
Qed.

Lemma calc_ss_radiation_all_degenerate_constant_kernel_store :
  rd_irf_t (rd_irf constant_kernel_store) = Some [0; 1; 2]%R /\
  3 <= length [0; 1; 2]%R /\
  calc_ss_radiation 0 10 (95 / 100)%R constant_kernel_store =
  (set_rd_ss (empty_realization (shape1 (am_inf constant_kernel_store))
                (length [0; 1; 2]%R) 10) constant_kernel_store,
   Some (OK tt)).
Proof.
  assert (Ht : rd_irf_t (rd_irf constant_kernel_store) = Some [0; 1; 2]%R)
    by reflexivity.
  assert (Hlen : 3 <= length [0; 1; 2]%R) by (simpl; lia).
  split; [exact Ht|]. split; [exact Hlen|].
  exact (calc_ss_radiation_all_degenerate 0 10 (95 / 100)%R
           constant_kernel_store [0; 1; 2]%R Ht Hlen
           constant_kernel_store_degenerate).
Defined.

Lemma calc_ss_radiation_capacity_kernel_store :
  exists self',
    calc_ss_radiation (H0 := Unit_Library) 1 2 2%R kernel_store
    = (self', Some (OK tt)) /\
    forall i j K_ij,
      i < shape0 (am_inf kernel_store) -> j < shape1 (am_inf kernel_store) ->
      (K ← getattr (rd_irf_K (rd_irf kernel_store)); getitem2 K i j) = OK K_ij ->
      fne (reference_norm K_ij) 0%R = true ->
      i < 6 /\ 2 <= 2.
Proof.
  destruct kernel_store_reduced as [self' Hrun]. exists self'.
  split; [exact Hrun|].
  exact (calc_ss_radiation_capacity (H0 := Unit_Library) 1 2 2%R kernel_store
           self' Hrun).
Defined.

Lemma order_search_converged_stable_impulse_kernel :
  exists r,
    2 <= 2 /\ 2 <= 10 /\
    order_search (H0 := Unit_Library) 1 [1; 0; 0]%R 1%R 3
      (reference_norm [1; 0; 0]%R) 2 (R2T r) 2 = Some (OK (r, 1, 2)) /\
    order_search (H0 := Unit_Library) 1 [1; 0; 0]%R 1%R 3
      (reference_norm [1; 0; 0]%R) 10 (R2T r) 2 = Some (OK (r, 1, 2)).
Proof.
  destruct impulse_kernel_pass as [r Hpass]. exists r.
  assert (Hmax : 2 <= 2) by lia. assert (Hle : 2 <= 10) by lia.
  assert (Hsearch :
    order_search (H0 := Unit_Library) 1 [1; 0; 0]%R 1%R 3
      (reference_norm [1; 0; 0]%R) 2 (R2T r) 2 = Some (OK (r, 1, 2))).
  { cbn [order_search]. rewrite Hpass. cbn [fge R_Scalar].
    destruct (Rge_dec (R2T r) (R2T r)) as [_|Hn]; [reflexivity|].
    destruct Hn. apply Rge_refl. }
  split; [exact Hmax|]. split; [exact Hle|]. split; [exact Hsearch|].
  exact (order_search_converged_stable (H0 := Unit_Library) 1 [1; 0; 0]%R 1%R 3
           (reference_norm [1; 0; 0]%R) 2 10 (R2T r) r 2 Hmax Hle Hsearch).
Defined.

Lemma calc_ss_radiation_stores_realization_kernel_store :
  exists self',
    calc_ss_radiation (H0 := Unit_Library) 1 2 2%R kernel_store
    = (self', Some (OK tt)) /\
    exists t t1 t2 s,
      rd_irf_t (rd_irf kernel_store) = Some t /\
      t !! 1 = Some t1 /\ t !! 2 = Some t2 /\
      rd_ss self' = Some s /\
      forall i j K_ij,
        i < shape0 (am_inf kernel_store) -> j < shape1 (am_inf kernel_store) ->
        (K ← getattr (rd_irf_K (rd_irf kernel_store)); getitem2 K i j)
        = OK K_ij ->
        fne (reference_norm K_ij) 0%R = true ->
        exists r status order e,
          order_search (H0 := Unit_Library) 1 K_ij (t2 - t1)%R (length t)
            (reference_norm K_ij) 2 2%R 2 = Some (OK (r, status, order)) /\
          entries_at s i j = Some e /\
          (forall a b, a < order -> b < order ->
             lookup2 (e_A e) a b = lookup2 (ac r) a b) /\
          (forall a, a < order -> lookup2 (e_B e) a 0 = lookup2 (bc r) a 0) /\
          (forall b, b < order -> lookup2 (e_C e) 0 b = lookup2 (cc r) 0 b) /\
          (exists x, dc r = [[x]] /\ e_D e = [x]) /\
          e_irk_bss e = k_ss_est r /\ length (e_irk_bss e) = length t.
Proof.
  destruct kernel_store_reduced as [self' Hrun]. exists self'.
  split; [exact Hrun|].
  exact (calc_ss_radiation_stores_realization (H0 := Unit_Library) 1 2 2%R
           kernel_store self' Hrun).
Defined.

Lemma calc_irf_radiation_L_starts_at_zero_ascending_store :
  exists self',
    calc_irf_radiation 1%R 2 2 ascending_store = (self', OK tt) /\
    1 <= 2 /\
    exists L,
      rd_irf_L (rd_irf self') = Some L /\
      forall i j,
        i < shape0 (rd_all ascending_store) ->
        j < shape1 (rd_all ascending_store) ->
        lookup3 L i j 0 = Some 0%R.
Proof.
  destruct ascending_store_radiation as [self' Hrun]. exists self'.
  assert (Hnt : 1 <= 2) by lia.
  split; [exact Hrun|]. split; [exact Hnt|].
  exact (calc_irf_radiation_L_starts_at_zero R_Library ascending_store self'
           1%R 2 2 Hrun Hnt).
Defined.

Lemma zero_damping_degenerate_zero_damping_store :
  exists self',
    calc_irf_radiation 1%R 3 2 zero_damping_store = (self', OK tt) /\
    1 <= 3 /\
    getitem2 (rd_all zero_damping_store) 0 0 = OK [0; 0]%R /\
    0 < shape1 (rd_all zero_damping_store) /\
    all_zero [0; 0]%R /\
    exists K_ij L_ij,
      (K ← getattr (rd_irf_K (rd_irf self')); getitem2 K 0 0) = OK K_ij /\
      (L ← getattr (rd_irf_L (rd_irf self')); getitem2 L 0 0) = OK L_ij /\
      length K_ij = 3 /\ length L_ij = 3 /\
      all_zero K_ij /\ all_zero L_ij /\
      fne (reference_norm K_ij) 0%R = false.
Proof.
  destruct zero_damping_store_radiation as [self' Hrun]. exists self'.
  assert (Hnt : 1 <= 3) by lia.
  assert (Hslice : getitem2 (rd_all zero_damping_store) 0 0 = OK [0; 0]%R)
    by reflexivity.
  assert (Hj : 0 < shape1 (rd_all zero_damping_store)) by (simpl; lia).
  assert (Hzero : all_zero [0; 0]%R) by (repeat constructor).
  split; [exact Hrun|]. split; [exact Hnt|]. split; [exact Hslice|].
  split; [exact Hj|]. split; [exact Hzero|].
  exact (zero_damping_degenerate zero_damping_store self' 1%R 3 2 0 0 [0; 0]%R
           Hrun Hnt Hslice Hj Hzero).
Defined.

Section ThresholdOrder.
Context {F : Type} `{Scalar F} `{Library F}.

(** X19. A lower threshold cannot ask for a higher order: when every fit
    quality that reaches [r2_thresh] also reaches [r2_thresh'] and the
    search under [r2_thresh] converges at some order, the search under
    [r2_thresh'] converges too, at that order or below. *)
Theorem order_search_threshold_monotone (fuel : nat) (K_ij : list F) (dt : F)
    (numFreq : nat) (r2bt : F) (max_order : nat) (r2_thresh r2_thresh' : F)
    (r : realization F) (order : nat) :
  (forall x, fge x r2_thresh = true -> fge x r2_thresh' = true) ->
  order_search fuel K_ij dt numFreq r2bt max_order r2_thresh 2
  = Some (OK (r, 1, order)) ->
  exists r' order',
    order_search fuel K_ij dt numFreq r2bt max_order r2_thresh' 2
    = Some (OK (r', 1, order')) /\
    order' <= order.
Proof.
  intros Hmono. generalize 2 as ss.
  induction fuel as [|fuel IH]; intros ss; simpl; [discriminate|].
  destruct (realization_at _ _ _ _ ss) as [r0|e]; [|discriminate].
  destruct (fge (R2T r0) r2_thresh) eqn:Hfit.
  - rewrite (Hmono _ Hfit). intros [= <- <-]. eauto.
  - destruct (fge (R2T r0) r2_thresh') eqn:Hfit'.
    + destruct (decide (ss = max_order)) as [|Hne]; [discriminate|].
      intros (last & Hlast & _ & Hstop)%order_search_spec.
      destruct Hstop as [-> _]. exists r0, ss. split; [reflexivity|lia].
    + destruct (decide (ss = max_order)) as [|Hne]; [discriminate|].
      intros Hrest. destruct (IH _ Hrest) as (r' & order' & Hsearch & Hle).
      eauto.
Qed.
End ThresholdOrder.

Lemma order_search_threshold_monotone_impulse_kernel :
  exists r,
    (forall x, fge x (R2T r) = true -> fge x (R2T r - 1)%R = true) /\
    order_search (H0 := Unit_Library) 1 [1; 0; 0]%R 1%R 3
      (reference_norm [1; 0; 0]%R) 2 (R2T r) 2 = Some (OK (r, 1, 2)) /\
    exists r' order',
      order_search (H0 := Unit_Library) 1 [1; 0; 0]%R 1%R 3
        (reference_norm [1; 0; 0]%R) 2 (R2T r - 1)%R 2
      = Some (OK (r', 1, order')) /\
      order' <= 2.
Proof.
  destruct impulse_kernel_pass as [r Hpass]. exists r.
  assert (Hmono : forall x, fge x (R2T r) = true -> fge x (R2T r - 1)%R = true).
  { intros x. cbn [fge R_Scalar].
    destruct (Rge_dec x (R2T r)) as [Hx|]; [intros _|discriminate].
    destruct (Rge_dec x (R2T r - 1)) as [|Hn]; [reflexivity|].
    destruct Hn. lra. }
  assert (Hsearch :
    order_search (H0 := Unit_Library) 1 [1; 0; 0]%R 1%R 3
      (reference_norm [1; 0; 0]%R) 2 (R2T r) 2 = Some (OK (r, 1, 2))).
  { cbn [order_search]. rewrite Hpass. cbn [fge R_Scalar].
    destruct (Rge_dec (R2T r) (R2T r)) as [_|Hn]; [reflexivity|].
    destruct Hn. apply Rge_refl. }
  split; [exact Hmono|]. split; [exact Hsearch|].
  exact (order_search_threshold_monotone (H0 := Unit_Library) 1 [1; 0; 0]%R 1%R
           3 (reference_norm [1; 0; 0]%R) 2 (R2T r) (R2T r - 1)%R r 2
           Hmono Hsearch).
Defined.

Lemma calc_irf_radiation_descending_reals_descending_store :
  2 <= length (w descending_store) /\
  strictly_descending (w descending_store) /\
  (calc_irf_radiation 1%R 2 2 descending_store).2
  = (calc_irf_radiation 1%R 2 2 (ascending_equivalent descending_store)).2 /\
  rd_irf (calc_irf_radiation 1%R 2 2 descending_store).1
  = rd_irf (calc_irf_radiation 1%R 2 2
              (ascending_equivalent descending_store)).1.
Proof.
  assert (Hlen : 2 <= length (w descending_store)) by (simpl; lia).
  split; [exact Hlen|]. split; [exact strictly_descending_descending_store|].
  exact (calc_irf_radiation_descending_reals descending_store 1%R 2 2 Hlen
           strictly_descending_descending_store).
Defined.

Lemma calc_irf_excitation_kernel_ascending_ascending_store :
  exists self',
    descending_grid (w ascending_store) = false /\
    calc_irf_excitation 1%R 2 2 ascending_store = (self', OK tt) /\
    exists lo hi f,
      np_min (w ascending_store) = OK lo /\
      np_max (w ascending_store) = OK hi /\
      ex_irf self' =
        {| ex_irf_t := Some (linspace (- 1)%R 1%R 2);
           ex_irf_w := Some (linspace lo hi 2); ex_irf_f := Some f |} /\
      linearly_spaced (- 1)%R 1%R 2 (linspace (- 1)%R 1%R 2) /\
      linearly_spaced lo hi 2 (linspace lo hi 2) /\
      forall i j k t,
        i < shape0 (ex_mag ascending_store) ->
        j < shape1 (ex_mag ascending_store) ->
        linspace (- 1)%R 1%R 2 !! k = Some t ->
        exists re_slice im_slice re im,
          getitem2 (ex_re ascending_store) i j = OK re_slice /\
          getitem2 (ex_im ascending_store) i j = OK im_slice /\
          resample (w ascending_store) re_slice (linspace lo hi 2) = OK re /\
          resample (w ascending_store) im_slice (linspace lo hi 2) = OK im /\
          lookup3 f i j k = Some (spec_f re im (linspace lo hi 2) t).
Proof.
  destruct ascending_store_excitation as [self' Hrun]. exists self'.
  split; [exact descending_grid_ascending_store|]. split; [exact Hrun|].
  exact (calc_irf_excitation_kernel_ascending ascending_store self' 1%R 2 2
           descending_grid_ascending_store Hrun).
Defined.

Lemma calc_irf_excitation_descending_raises_descending_store :
  descending_grid (w descending_store) = true /\
  rd_im descending_store = None /\
  0 < shape0 (ex_mag descending_store) /\
  0 < shape1 (ex_mag descending_store) /\
  getitem2 (ex_re descending_store) 0 0 = OK [0; 3]%R /\
  (calc_irf_excitation 1%R 2 2 descending_store).2 = Raise AttributeError.
Proof.
  assert (Him : rd_im descending_store = None) by reflexivity.
  assert (Hs0 : 0 < shape0 (ex_mag descending_store)) by (simpl; lia).
  assert (Hs1 : 0 < shape1 (ex_mag descending_store)) by (simpl; lia).
  assert (Hre : getitem2 (ex_re descending_store) 0 0 = OK [0; 3]%R)
    by reflexivity.
  split; [exact descending_grid_descending_store|].
  split; [exact Him|]. split; [exact Hs0|]. split; [exact Hs1|].
  split; [exact Hre|].
  exact (calc_irf_excitation_descending_raises descending_store 1%R 2 2
           [0; 3]%R descending_grid_descending_store Him Hs0 Hs1 Hre).
Defined.
